(** * A shallow embedding of the WebGL/Canvas layout engine

    The development follows [src/engine/WebEngine.jsx],
    [src/canvasEngine/CanvasEngine.jsx] and the style and gradient workers
    under [public/].  JavaScript values are embedded as follows.

    - Numbers are exact rationals extended by [NaN] and the two infinities.
      [JS.round64] rounds a rational to binary64; [parseFloat] and the
      colour conversions apply it, the layout arithmetic is kept exact.
      The sign of zero is not modelled.
    - Strings are [String.string], read as sequences of code units below
      256; [trim] and [toLowerCase] act on those as the language does.
    - Objects used as dictionaries are [gmap string _]; a key that is absent
      reads as [undefined].
    - [null]/absent object references are [option]. *)

From Stdlib Require Import String Ascii ZArith QArith Qminmax Qround Qabs Qpower Lia Lqa.
From Stdlib Require Import List Permutation Sorted.
From Stdlib Require Qcanon.
From stdpp Require Import base option list gmap strings.

Set Warnings "-register-all".

Import ListNotations.
Local Open Scope string_scope.
Local Open Scope Z_scope.
Local Open Scope list_scope.

(** ** JavaScript numbers, strings and the parsing built-ins *)

Module JS.

Inductive num : Type :=
  | NaN
  | PInf
  | NInf
  | Fin (q : Q).

Definition zero : num := Fin 0.
Definition one : num := Fin 1.
Definition ofZ (z : Z) : num := Fin (inject_Z z).
Definition ofNat (n : nat) : num := ofZ (Z.of_nat n).

(** Sign of a rational as a comparison with zero. *)
Definition qsign (q : Q) : comparison := (0 ?= q)%Q.

Definition neg (a : num) : num :=
  match a with
  | NaN => NaN
  | PInf => NInf
  | NInf => PInf
  | Fin q => Fin (- q)
  end.

Definition add (a b : num) : num :=
  match a, b with
  | NaN, _ | _, NaN => NaN
  | PInf, NInf | NInf, PInf => NaN
  | PInf, _ | _, PInf => PInf
  | NInf, _ | _, NInf => NInf
  | Fin x, Fin y => Fin (x + y)
  end.

Definition sub (a b : num) : num := add a (neg b).

(** Infinity with the sign of a product, [NaN] when a factor is zero. *)
Definition inf_signed (s : comparison) (positive : bool) : num :=
  match s with
  | Eq => NaN
  | Lt => if positive then PInf else NInf
  | Gt => if positive then NInf else PInf
  end.

Definition mul (a b : num) : num :=
  match a, b with
  | NaN, _ | _, NaN => NaN
  | Fin x, Fin y => Fin (x * y)
  | PInf, PInf | NInf, NInf => PInf
  | PInf, NInf | NInf, PInf => NInf
  | PInf, Fin y | Fin y, PInf => inf_signed (qsign y) true
  | NInf, Fin y | Fin y, NInf => inf_signed (qsign y) false
  end.

Definition div (a b : num) : num :=
  match a, b with
  | NaN, _ | _, NaN => NaN
  | Fin x, Fin y =>
      match qsign y with
      | Eq => inf_signed (qsign x) true
      | _ => Fin (x / y)
      end
  | Fin _, PInf | Fin _, NInf => Fin 0
  | PInf, Fin y => match qsign y with Gt => NInf | _ => PInf end
  | NInf, Fin y => match qsign y with Gt => PInf | _ => NInf end
  | _, _ => NaN
  end.

(** [a > b]; every comparison with [NaN] is false. *)
Definition gt (a b : num) : bool :=
  match a, b with
  | NaN, _ | _, NaN => false
  | PInf, PInf => false
  | PInf, _ => true
  | _, PInf => false
  | NInf, _ => false
  | Fin _, NInf => true
  | Fin x, Fin y => match (x ?= y)%Q with Gt => true | _ => false end
  end.

Definition lt (a b : num) : bool := gt b a.

(** [a === b] on numbers. *)
Definition eqb (a b : num) : bool :=
  match a, b with
  | PInf, PInf | NInf, NInf => true
  | Fin x, Fin y => Qeq_bool x y
  | _, _ => false
  end.

(** [Math.max(a, b)] and [Math.min(a, b)]. *)
Definition max (a b : num) : num :=
  match a, b with
  | NaN, _ | _, NaN => NaN
  | _, _ => if gt b a then b else a
  end.

Definition min (a b : num) : num :=
  match a, b with
  | NaN, _ | _, NaN => NaN
  | _, _ => if lt b a then b else a
  end.

(** [Math.abs]. *)
Definition abs (a : num) : num :=
  match a with
  | NaN => NaN
  | PInf | NInf => PInf
  | Fin q => Fin (Qabs q)
  end.

(** [Math.round]: to the nearest integer, ties towards plus infinity. *)
Definition round (a : num) : num :=
  match a with
  | Fin q => Fin (inject_Z (Qfloor (q + (1 # 2))))
  | other => other
  end.

(** [Math.ceil]. *)
Definition ceil (a : num) : num :=
  match a with
  | Fin q => Fin (inject_Z (Qceiling q))
  | other => other
  end.

(** Truthiness of a number: neither [NaN] nor zero. *)
Definition truthy (a : num) : bool :=
  match a with
  | NaN => false
  | Fin q => negb (Qeq_bool q 0)
  | _ => true
  end.

(** [a || d] on numbers. *)
Definition or_else (a d : num) : num := if truthy a then a else d.

(** Equality of numbers up to the representation of the rational. *)
Definition num_eq (a b : num) : Prop :=
  match a, b with
  | NaN, NaN | PInf, PInf | NInf, NInf => True
  | Fin x, Fin y => (x == y)%Q
  | _, _ => False
  end.

Definition is_fin (a : num) : Prop :=
  match a with Fin _ => True | _ => False end.

(** *** Binary64

    [round64 q] is the binary64 number nearest to the rational [q], ties to
    the even significand, and an infinity beyond the range: the value the
    language gives to a decimal literal and to an arithmetic operation
    whose exact result is [q]. *)

Definition pow2 (e : Z) : Q := Qpower 2 e.

(** The binary exponent of a positive rational: [2^e <= q < 2^(e+1)]. *)
Definition exponent (q : Q) : Z :=
  let e0 := Z.log2 (Qnum q) - Z.log2 (Zpos (Qden q)) in
  if Qle_bool (pow2 e0) q then e0 else e0 - 1.

(** The nearest integer, ties to even. *)
Definition round_even (q : Q) : Z :=
  let f := Qfloor q in
  match (q - inject_Z f ?= 1 # 2)%Q with
  | Lt => f
  | Gt => f + 1
  | Eq => if Z.even f then f else f + 1
  end.

(** A positive rational: 53 significant bits, fewer below [2^-1022]. *)
Definition round64_pos (q : Q) : num :=
  let e := Z.max (exponent q) (-1022) in
  let m := round_even (q * pow2 (52 - e)) in
  let v := (inject_Z m * pow2 (e - 52))%Q in
  if Qle_bool (pow2 1024) v then PInf else Fin (Qred v).

Definition round64 (q : Q) : num :=
  match (0 ?= q)%Q with
  | Eq => Fin 0
  | Lt => round64_pos q
  | Gt => neg (round64_pos (- q))
  end.

(** Zero or above, [Infinity] included; [NaN] is not. *)
Definition nonneg (a : num) : Prop :=
  match a with
  | Fin q => (0 <= q)%Q
  | PInf => True
  | NaN | NInf => False
  end.

(** The result of an operation, rounded. *)
Definition rounded (a : num) : num :=
  match a with
  | Fin q => round64 q
  | other => other
  end.

(** The number that stands for an integer read from a string. *)
Definition ofInt (z : Z) : num := round64 (inject_Z z).

(** The operators on binary64 numbers: the exact result, rounded. *)
Definition add64 (a b : num) : num := rounded (add a b).
Definition sub64 (a b : num) : num := rounded (sub a b).
Definition mul64 (a b : num) : num := rounded (mul a b).
Definition div64 (a b : num) : num := rounded (div a b).

(** *** Characters *)

Definition is_digit (c : ascii) : bool :=
  let n := nat_of_ascii c in (48 <=? n)%nat && (n <=? 57)%nat.

Definition digit_val (c : ascii) : Z := Z.of_nat (nat_of_ascii c) - 48.

Definition is_upper (c : ascii) : bool :=
  let n := nat_of_ascii c in (65 <=? n)%nat && (n <=? 90)%nat.

Definition is_lower (c : ascii) : bool :=
  let n := nat_of_ascii c in (97 <=? n)%nat && (n <=? 122)%nat.

Definition is_alpha (c : ascii) : bool := is_upper c || is_lower c.

(** White space and line terminators, as [trim], [parseFloat] and the
    class [\s] take them: tab to carriage return, space and the no-break
    space U+00A0. *)
Definition is_space (c : ascii) : bool :=
  let n := nat_of_ascii c in
  (n =? 32)%nat || ((9 <=? n)%nat && (n <=? 13)%nat) || (n =? 160)%nat.

(** The capital letters of the second half of the code units: U+00C0 to
    U+00DE without the multiplication sign U+00D7. *)
Definition is_upper_latin1 (c : ascii) : bool :=
  let n := nat_of_ascii c in
  (192 <=? n)%nat && (n <=? 222)%nat && negb (n =? 215)%nat.

Definition lower_char (c : ascii) : ascii :=
  if is_upper c || is_upper_latin1 c
  then ascii_of_nat (nat_of_ascii c + 32) else c.

(** *** Strings *)

Fixpoint toLowerCase (s : string) : string :=
  match s with
  | EmptyString => EmptyString
  | String c r => String (lower_char c) (toLowerCase r)
  end.

Fixpoint startsWith (s p : string) : bool :=
  match p, s with
  | EmptyString, _ => true
  | String _ _, EmptyString => false
  | String b p', String a s' => Ascii.eqb a b && startsWith s' p'
  end.

(** [s.includes(p)]. *)
Fixpoint includes (s p : string) : bool :=
  startsWith s p ||
  match s with
  | EmptyString => false
  | String _ r => includes r p
  end.

(** [s.indexOf(p)], [None] for -1. *)
Fixpoint indexOf (s p : string) : option nat :=
  if startsWith s p then Some O
  else match s with
       | EmptyString => None
       | String _ r => S <$> indexOf r p
       end.

Fixpoint drop_str (n : nat) (s : string) : string :=
  match n, s with
  | O, _ => s
  | S _, EmptyString => EmptyString
  | S k, String _ r => drop_str k r
  end.

Fixpoint take_str (n : nat) (s : string) : string :=
  match n, s with
  | O, _ => EmptyString
  | S _, EmptyString => EmptyString
  | S k, String c r => String c (take_str k r)
  end.

(** [s.substring(i, j)] for [i <= j] and [s.substring(i)]. *)
Definition substring (i j : nat) (s : string) : string :=
  take_str (j - i) (drop_str i s).

Definition endsWith (s p : string) : bool :=
  (String.length p <=? String.length s)%nat &&
  String.eqb (drop_str (String.length s - String.length p) s) p.

Fixpoint trimStart (s : string) : string :=
  match s with
  | EmptyString => EmptyString
  | String c r => if is_space c then trimStart r else s
  end.

(** Drops trailing white space: a space is kept only when something that
    is kept follows it. *)
Fixpoint trimEnd (s : string) : string :=
  match s with
  | EmptyString => EmptyString
  | String c r =>
      match trimEnd r with
      | EmptyString => if is_space c then EmptyString else String c EmptyString
      | r' => String c r'
      end
  end.

Definition trim (s : string) : string := trimEnd (trimStart s).

(** [s.replace(p, r)] with a string pattern: the first occurrence only. *)
Definition replace_first (s p r : string) : string :=
  match indexOf s p with
  | None => s
  | Some i => take_str i s +:+ r +:+ drop_str (i + String.length p) s
  end.

(** [s.split(c)] for a one-character separator. *)
Fixpoint split_on (sep : ascii) (s : string) : list string :=
  match s with
  | EmptyString => [EmptyString]
  | String c r =>
      if Ascii.eqb c sep then EmptyString :: split_on sep r
      else match split_on sep r with
           | [] => [String c EmptyString]
           | w :: ws => String c w :: ws
           end
  end.

(** *** [parseFloat] and [parseInt] *)

(** Leading decimal digits of [s], most significant first, and the rest. *)
Fixpoint span_digits (s : string) : list Z * string :=
  match s with
  | EmptyString => ([], EmptyString)
  | String c r =>
      if is_digit c
      then let '(ds, rest) := span_digits r in (digit_val c :: ds, rest)
      else ([], s)
  end.

Definition digits_value (ds : list Z) : Z :=
  fold_left (fun acc d => 10 * acc + d) ds 0.

(** [m * 10^e] as a rational. *)
Definition scale10 (m e : Z) : Q :=
  if 0 <=? e then inject_Z (m * 10 ^ e)
  else Qmake m (Z.to_pos (10 ^ (- e))).

(** The optional exponent part: it counts only when a digit follows. *)
Definition parse_exponent (s : string) : Z :=
  match s with
  | String c r =>
      if Ascii.eqb c "e" || Ascii.eqb c "E" then
        let '(sgn, r') :=
          match r with
          | String "+" t => (1, t)
          | String "-" t => (-1, t)
          | _ => (1, r)
          end in
        match span_digits r' with
        | ([], _) => 0
        | (ds, _) => sgn * digits_value ds
        end
      else 0
  | EmptyString => 0
  end.

(** The unsigned part of a [StrDecimalLiteral]. *)
Definition parse_unsigned (s : string) : num :=
  if startsWith s "Infinity" then PInf
  else
    let '(ip, r1) := span_digits s in
    let '(fp, r2) :=
      match r1 with
      | String "." t => span_digits t
      | _ => ([], r1)
      end in
    match ip, fp with
    | [], [] => NaN
    | _, _ =>
        round64 (scale10 (digits_value (ip ++ fp))
                         (parse_exponent r2 - Z.of_nat (List.length fp)))
    end.

(** [parseFloat(s)] for a string [s]. *)
Definition parseFloat (s : string) : num :=
  match trimStart s with
  | String "-" r => neg (parse_unsigned r)
  | String "+" r => parse_unsigned r
  | r => parse_unsigned r
  end.

Definition is_hex_digit (c : ascii) : bool :=
  is_digit c ||
  (let n := nat_of_ascii (lower_char c) in (97 <=? n)%nat && (n <=? 102)%nat).

Definition hex_val (c : ascii) : Z :=
  if is_digit c then digit_val c
  else Z.of_nat (nat_of_ascii (lower_char c)) - 87.

Fixpoint span_hex (s : string) : list Z :=
  match s with
  | EmptyString => []
  | String c r => if is_hex_digit c then hex_val c :: span_hex r else []
  end.

Definition parse_int_unsigned (s : string) : option Z :=
  if startsWith s "0x" || startsWith s "0X" then
    match span_hex (drop_str 2 s) with
    | [] => None
    | ds => Some (fold_left (fun acc d => 16 * acc + d) ds 0)
    end
  else
    match span_digits s with
    | ([], _) => None
    | (ds, _) => Some (digits_value ds)
    end.

(** [parseInt(s)] without a radix; [None] is [NaN]. *)
Definition parseInt (s : string) : option Z :=
  match trimStart s with
  | String "-" r => Z.opp <$> parse_int_unsigned r
  | String "+" r => parse_int_unsigned r
  | r => parse_int_unsigned r
  end.

(** *** Primitive values held in property bags *)

Inductive prim : Type :=
  | PUndef
  | PNull
  | PBool (b : bool)
  | PNum (n : num)
  | PStr (s : string).

(** Truthiness of a primitive. *)
Definition prim_truthy (v : prim) : bool :=
  match v with
  | PUndef | PNull => false
  | PBool b => b
  | PNum n => truthy n
  | PStr s => negb (String.eqb s "")
  end.

(** [parseFloat(v)]: the argument is converted to a string first; a number
    reads back as itself. *)
Definition parseFloatP (v : prim) : num :=
  match v with
  | PNum n => n
  | PStr s => parseFloat s
  | _ => NaN
  end.

End JS.






(** ** Greedy word wrap ([GeometrySnapshot.wrapText], [TextNode.wrapText]) *)

Module Text.

Definition nonempty (s : string) : bool := negb (String.eqb s "").

(** The words of a string: its space-separated pieces that are not empty. *)
Definition words (s : string) : list string :=
  List.filter nonempty (JS.split_on " " s).

(** A line made of one piece: it holds no space. *)
Definition single_word (l : string) : Prop := JS.split_on " " l = [l].

Section WrapText.

(** [ctx.measureText(s).width] for the font set on the context. *)
Variable measureText : string -> Q.
Variable maxWidth : JS.num.

Definition too_wide (l : string) : bool :=
  JS.gt (JS.Fin (measureText l)) maxWidth.

(** A line fits when its measured width does not exceed [maxWidth]. *)
Definition fits (l : string) : Prop := too_wide l = false.

(** The body of [words.forEach]; the state is [(lines, currentLine)]. *)
Definition wrap_step (st : list string * string) (word : string)
  : list string * string :=
  let '(lines, currentLine) := st in
  let testLine :=
    if nonempty currentLine then currentLine +:+ " " +:+ word else word in
  if too_wide testLine && nonempty currentLine
  then (lines ++ [currentLine], word)
  else (lines, testLine).

Definition wrapText (text : string) : list string :=
  let '(lines, currentLine) :=
    fold_left wrap_step (JS.split_on " " text) ([], "") in
  if nonempty currentLine then lines ++ [currentLine] else lines.

(** The words held by a loop state: those of the committed lines, then
    those of the line under construction. *)
Definition state_words (st : list string * string) : list string :=
  flat_map words (fst st) ++ words (snd st).

(** A committed line either fits or is a single piece. *)
Definition line_ok (l : string) : Prop := fits l \/ single_word l.

Definition state_ok (st : list string * string) : Prop :=
  Forall line_ok (fst st) /\ (nonempty (snd st) = true -> line_ok (snd st)).

End WrapText.

(** A measured width is within [maxWidth]: not above it.  Nothing is
    within [NaN]. *)
Definition within (width : Q) (maxWidth : JS.num) : Prop :=
  match maxWidth with
  | JS.Fin w => (width <= w)%Q
  | JS.PInf => True
  | JS.NInf | JS.NaN => False
  end.

(** The measurement of a font in which every character is one unit wide. *)
Definition monospace (s : string) : Q := inject_Z (Z.of_nat (String.length s)).

End Text.

(** ** Values stored in style records *)

Module Style.

Inductive jsval : Type :=
  | VUndef
  | VNull
  | VNum (n : JS.num)
  | VStr (s : string)
  | VObj (fields : list (string * jsval))
  | VArr (items : list jsval).

(** A property read that may be [undefined]. *)
Definition of_prop (o : option string) : jsval :=
  match o with
  | Some s => VStr s
  | None => VUndef
  end.

(** [Object.assign(target, source)]: every own key of [source], also one
    holding [undefined], overwrites the key of [target]. *)
Definition assign (target source : gmap string jsval) : gmap string jsval :=
  source ∪ target.

(** [parseFloat] of a property read; [undefined] gives [NaN]. *)
Definition parseFloatO (o : option string) : JS.num :=
  match o with
  | Some s => JS.parseFloat s
  | None => JS.NaN
  end.

(** [parseInt] of a property read, as a number. *)
Definition parseIntO (o : option string) : JS.num :=
  match o ≫= JS.parseInt with
  | Some z => JS.ofInt z
  | None => JS.NaN
  end.

(** Truthiness of a property read: a non-empty string. *)
Definition prop_truthy (o : option string) : bool :=
  match o with
  | Some s => negb (String.eqb s "")
  | None => false
  end.

Definition prop_is (o : option string) (s : string) : bool :=
  match o with
  | Some t => String.eqb t s
  | None => false
  end.

End Style.

(** ** Scanning helpers shared by the gradient parsers *)

Module Scan.

Fixpoint take_while (p : ascii -> bool) (s : string) : string :=
  match s with
  | EmptyString => EmptyString
  | String c r => if p c then String c (take_while p r) else EmptyString
  end.

Definition snoc (s : string) (c : ascii) : string := s +:+ String c EmptyString.

(** The split loop of the parsers: cut at commas met at parenthesis depth
    zero, trimming each piece.  [cur] is [content.substring(lastIdx, i)]. *)
Fixpoint split_top_from (s : string) (depth : Z) (cur : string) : list string :=
  match s with
  | EmptyString => [JS.trim cur]
  | String c r =>
      if Ascii.eqb c "(" then split_top_from r (depth + 1) (snoc cur c)
      else if Ascii.eqb c ")" then split_top_from r (depth - 1) (snoc cur c)
      else if Ascii.eqb c "," && (depth =? 0)
           then JS.trim cur :: split_top_from r depth EmptyString
      else split_top_from r depth (snoc cur c)
  end.

Definition split_top (s : string) : list string := split_top_from s 0 EmptyString.

(** Index of the last [")"] of [s]. *)
Fixpoint last_close_from (s : string) (i : nat) (found : option nat) : option nat :=
  match s with
  | EmptyString => found
  | String c r =>
      last_close_from r (S i) (if Ascii.eqb c ")" then Some i else found)
  end.

(** The first group of the dot-all greedy pattern "NAME(" any ")" matched
    against [s]: from the first "NAME(" to the last closing parenthesis. *)
Definition match_call (name s : string) : option string :=
  match JS.indexOf s (name +:+ "(") with
  | None => None
  | Some p =>
      let start := (p + String.length name + 1)%nat in
      match last_close_from s O None with
      | Some e => if (start <=? e)%nat then Some (JS.substring start e s) else None
      | None => None
      end
  end.

Definition is_line_end (c : ascii) : bool :=
  Ascii.eqb c "010" || Ascii.eqb c "013".

(** The lazy "any, then )" part: the text up to the first ")", which no
    line end may precede. *)
Fixpoint until_close (s : string) : option string :=
  match s with
  | EmptyString => None
  | String c r =>
      if Ascii.eqb c ")" then Some EmptyString
      else if is_line_end c then None
      else String c <$> until_close r
  end.

(** The alternative "rgb", optional "a", "(", lazily anything, ")",
    anchored at the head of [s]. *)
Definition alt_rgb (s : string) : option string :=
  if JS.startsWith s "rgb" then
    match JS.drop_str 3 s with
    | String "a" (String "(" t) => (fun b => "rgba(" +:+ b +:+ ")") <$> until_close t
    | String "(" t => (fun b => "rgb(" +:+ b +:+ ")") <$> until_close t
    | _ => None
    end
  else None.

(** [[a-zA-Z]+] anchored at the head of [s]. *)
Definition alt_alpha (s : string) : option string :=
  match take_while JS.is_alpha s with
  | EmptyString => None
  | run => Some run
  end.

(** Leftmost match of an alternation given by its anchored alternatives,
    tried in order at each position. *)
Fixpoint first_match (alts : string -> option string) (s : string) : option string :=
  match alts s with
  | Some m => Some m
  | None =>
      match s with
      | EmptyString => None
      | String _ r => first_match alts r
      end
  end.

(** [s.match(/(\d+)%/)], first group: the first run of digits followed by
    a percent sign. *)
Fixpoint match_percent (s : string) (fuel : nat) : option string :=
  match fuel with
  | O => None
  | S fuel' =>
      match s with
      | EmptyString => None
      | String c r =>
          if JS.is_digit c then
            let run := take_while JS.is_digit s in
            let rest := JS.drop_str (String.length run) s in
            match rest with
            | String "%" _ => Some run
            | _ => match_percent rest fuel'
            end
          else match_percent r fuel'
      end
  end.

Definition percent_of (s : string) : option string :=
  match_percent s (S (String.length s)).

End Scan.

(** ** Gradient parsing of [GeometrySnapshot] ([WebEngine.jsx]) *)

Module Gradient.

Record colorStop := { color : string; position : JS.num }.

Inductive gradient : Type :=
  | Linear (angle : JS.num) (stops : list colorStop)
  | Radial (stops : list colorStop).

(** [#[a-fA-F0-0]{3,8}] anchored at the head of [s]; the class holds the
    letters a to f in both cases and the digit zero. *)
Definition is_hexish (c : ascii) : bool :=
  let n := nat_of_ascii (JS.lower_char c) in
  ((97 <=? n)%nat && (n <=? 102)%nat) || Ascii.eqb c "0".

Definition alt_hash (s : string) : option string :=
  match s with
  | String "#" r =>
      let run := JS.take_str 8 (Scan.take_while is_hexish r) in
      if (3 <=? String.length run)%nat then Some (String "#" run) else None
  | _ => None
  end.

(** The colour pattern of [parseColorStops]: a hash colour, else an
    rgb/rgba call, else a run of letters, at the leftmost position. *)
Definition colorMatch (stop : string) : option string :=
  Scan.first_match
    (fun s => match alt_hash s with
              | Some m => Some m
              | None => match Scan.alt_rgb s with
                        | Some m => Some m
                        | None => Scan.alt_alpha s
                        end
              end) stop.

(** The loop of [parseColorStops]; [i] is the index of the head of [rest]
    in [parts] and [len] is [parts.length]. *)
Fixpoint colorStops_from (rest : list string) (i startIdx len : nat) : list colorStop :=
  match rest with
  | [] => []
  | stop :: rest' =>
      let tail := colorStops_from rest' (S i) startIdx len in
      match colorMatch stop with
      | Some c =>
          let pos :=
            match Scan.percent_of stop with
            | Some d => JS.div (JS.parseFloat d) (JS.Fin 100)
            | None =>
                JS.div (JS.sub (JS.ofNat i) (JS.ofNat startIdx))
                       (JS.or_else
                          (JS.sub (JS.sub (JS.ofNat len) (JS.ofNat startIdx)) JS.one)
                          JS.one)
            end in
          {| color := c; position := pos |} :: tail
      | None => tail
      end
  end.

Definition parseColorStops (parts : list string) (startIdx : nat) : list colorStop :=
  colorStops_from (drop startIdx parts) startIdx startIdx (List.length parts).

Definition parseLinearGradient (content : string) : gradient :=
  let parts := Scan.split_top content in
  let firstPart := hd EmptyString parts in
  if JS.includes firstPart "deg" then
    Linear (JS.parseFloat firstPart) (parseColorStops parts 1)
  else if JS.includes firstPart "to " then
    let direction := JS.toLowerCase firstPart in
    let angle := JS.Fin 180 in
    let angle := if JS.includes direction "right" then JS.Fin 90 else angle in
    let angle := if JS.includes direction "left" then JS.Fin 270 else angle in
    let angle := if JS.includes direction "top" then JS.Fin 0 else angle in
    let angle := if JS.includes direction "bottom" then JS.Fin 180 else angle in
    Linear angle (parseColorStops parts 1)
  else Linear (JS.Fin 180) (parseColorStops parts 0).

Definition parseRadialGradient (content : string) : gradient :=
  let parts := Scan.split_top content in
  let firstPart := hd EmptyString parts in
  let hasShape :=
    JS.includes firstPart "circle" || JS.includes firstPart "ellipse"
    || JS.includes firstPart "at " in
  Radial (parseColorStops parts (if hasShape then 1 else 0)%nat).

(** [parseGradient(bgImage)]; [None] is [null]. *)
Definition parseGradient (bgImage : option string) : option gradient :=
  match bgImage with
  | None => None
  | Some bg =>
      if String.eqb bg "" || String.eqb bg "none" then None
      else
        let cleanBg := hd EmptyString (Scan.split_top bg) in
        match Scan.match_call "linear-gradient" cleanBg with
        | Some content => Some (parseLinearGradient (JS.trim content))
        | None =>
            match Scan.match_call "radial-gradient" cleanBg with
            | Some content => Some (parseRadialGradient (JS.trim content))
            | None => None
            end
        end
  end.

Definition stop_val (s : colorStop) : Style.jsval :=
  Style.VObj [("color", Style.VStr (color s)); ("position", Style.VNum (position s))].

(** The gradient as the object literal the parser returns. *)
Definition to_val (g : gradient) : Style.jsval :=
  match g with
  | Linear a stops =>
      Style.VObj [("type", Style.VStr "linear"); ("angle", Style.VNum a);
                  ("stops", Style.VArr (map stop_val stops))]
  | Radial stops =>
      Style.VObj [("type", Style.VStr "radial");
                  ("stops", Style.VArr (map stop_val stops))]
  end.

End Gradient.

(** ** The style worker ([public/workers/styleWorker.js]) *)

Module StyleWorker.

(** [ToInt32] and the 32-bit operators used to pack a colour. *)
Definition to_int32 (z : Z) : Z := (z + 2 ^ 31) mod 2 ^ 32 - 2 ^ 31.

(** [ToInt32] of what [parseInt] returned: the integer read, rounded to
    binary64; [NaN] and [Infinity] give 0. *)
Definition int32_of (o : option Z) : Z :=
  match o with
  | Some z =>
      match JS.ofInt z with
      | JS.Fin q => to_int32 (Qfloor q)
      | _ => 0
      end
  | None => 0
  end.

Definition shl32 (a k : Z) : Z := to_int32 (Z.shiftl a k).
Definition or32 (a b : Z) : Z := Z.lor a b.

(** [parseInt(s, 16)]; [None] is [NaN]. *)
Definition parseInt16 (s : string) : option Z :=
  let body (r : string) : option Z :=
    let r' := if JS.startsWith r "0x" || JS.startsWith r "0X"
              then JS.drop_str 2 r else r in
    match JS.span_hex r' with
    | [] => None
    | ds => Some (fold_left (fun acc d => 16 * acc + d) ds 0)
    end in
  match JS.trimStart s with
  | String "-" r => Z.opp <$> body r
  | String "+" r => body r
  | r => body r
  end.

(** The number for a short run of digits or a constant of a table, which
    binary64 holds exactly; [None] is [NaN]. *)
Definition num_of (o : option Z) : JS.num :=
  match o with
  | Some z => JS.ofZ z
  | None => JS.NaN
  end.

(** The number for a run of digits of any length. *)
Definition number_of (o : option Z) : JS.num :=
  match o with
  | Some z => JS.ofInt z
  | None => JS.NaN
  end.

Record colorData := { hex : JS.num; alpha : JS.num }.

Fixpoint double_chars (s : string) : string :=
  match s with
  | EmptyString => EmptyString
  | String c r => String c (String c (double_chars r))
  end.

Definition is_num_char (c : ascii) : bool := JS.is_digit c || Ascii.eqb c ".".

(** All matches of a run of digits and dots, as the global match gives. *)
Fixpoint number_runs (s : string) (fuel : nat) : list string :=
  match fuel with
  | O => []
  | S fuel' =>
      match s with
      | EmptyString => []
      | String c r =>
          if is_num_char c then
            let run := Scan.take_while is_num_char s in
            run :: number_runs (JS.drop_str (String.length run) s) fuel'
          else number_runs r fuel'
      end
  end.

Definition namedColors : list (string * Z) :=
  [("white", 0xffffff); ("black", 0x000000); ("red", 0xff0000);
   ("green", 0x008000); ("blue", 0x0000ff); ("yellow", 0xffff00);
   ("orange", 0xffa500); ("gray", 0x808080); ("grey", 0x808080);
   ("purple", 0x800080); ("pink", 0xffc0cb); ("transparent", 0xffffff)].

Fixpoint lookup_named (k : string) (l : list (string * Z)) : option Z :=
  match l with
  | [] => None
  | (k', v) :: r => if String.eqb k k' then Some v else lookup_named k r
  end.

(** The tail of [parseColor]: named colours, then the grey default.
    Members inherited from [Object.prototype] are not modelled. *)
Definition parseNamed (cssColor : string) : colorData :=
  match lookup_named (JS.toLowerCase cssColor) namedColors with
  | Some c =>
      {| hex := JS.ofZ c;
         alpha := if String.eqb (JS.toLowerCase cssColor) "transparent"
                  then JS.zero else JS.one |}
  | None => {| hex := JS.ofZ 0xcccccc; alpha := JS.one |}
  end.

Definition parseColor (cssColor : string) : colorData :=
  if String.eqb cssColor "" || String.eqb cssColor "transparent" then
    {| hex := JS.ofZ 0xffffff; alpha := JS.zero |}
  else if JS.startsWith cssColor "#" then
    let h := JS.drop_str 1 cssColor in
    if (String.length h =? 3)%nat then
      {| hex := num_of (parseInt16 (double_chars h)); alpha := JS.one |}
    else if (String.length h =? 8)%nat then
      {| hex := num_of (parseInt16 (JS.substring 0 6 h));
         alpha := JS.div (num_of (parseInt16 (JS.substring 6 8 h))) (JS.Fin 255) |}
    else {| hex := number_of (parseInt16 h); alpha := JS.one |}
  else if JS.startsWith cssColor "rgb" then
    match number_runs cssColor (String.length cssColor) with
    | [] => parseNamed cssColor
    | values =>
        let r := int32_of (values !! 0%nat ≫= JS.parseInt) in
        let g := int32_of (values !! 1%nat ≫= JS.parseInt) in
        let b := int32_of (values !! 2%nat ≫= JS.parseInt) in
        let a := match values !! 3%nat with
                 | Some v => JS.parseFloat v
                 | None => JS.one
                 end in
        {| hex := JS.ofZ (or32 (or32 (shl32 r 16) (shl32 g 8)) b); alpha := a |}
    end
  else parseNamed cssColor.

Record colorStop := { color : JS.num; stop_alpha : JS.num; offset : JS.num }.

Inductive gradient : Type :=
  | Linear (angle : JS.num) (stops : list colorStop)
  | Radial (stops : list colorStop).

(** A hash followed by hexadecimal digits, anchored at the head of [s]. *)
Definition alt_hash (s : string) : option string :=
  match s with
  | String "#" r =>
      match Scan.take_while JS.is_hex_digit r with
      | EmptyString => None
      | run => Some (String "#" run)
      end
  | _ => None
  end.

(** The colour pattern of the worker: an rgb/rgba call, else a hash
    colour, else a run of letters, at the leftmost position. *)
Definition colorMatch (part : string) : option string :=
  Scan.first_match
    (fun s => match Scan.alt_rgb s with
              | Some m => Some m
              | None => match alt_hash s with
                        | Some m => Some m
                        | None => Scan.alt_alpha s
                        end
              end) part.

Fixpoint colorStops_from (rest : list string) (i startIdx len : nat) : list colorStop :=
  match rest with
  | [] => []
  | part :: rest' =>
      let tail := colorStops_from rest' (S i) startIdx len in
      match colorMatch part with
      | Some c =>
          let cd := parseColor c in
          let off :=
            match Scan.percent_of (JS.trim (JS.replace_first part c "")) with
            | Some d => JS.div (JS.parseFloat d) (JS.Fin 100)
            | None =>
                JS.div (JS.sub (JS.ofNat i) (JS.ofNat startIdx))
                       (JS.sub (JS.sub (JS.ofNat len) (JS.ofNat startIdx)) JS.one)
            end in
          {| color := hex cd; stop_alpha := alpha cd; offset := off |} :: tail
      | None => tail
      end
  end.

Definition parseColorStops (parts : list string) (startIdx : nat) : list colorStop :=
  colorStops_from (drop startIdx parts) startIdx startIdx (List.length parts).

Definition parseLinearGradient (content : string) : gradient :=
  let parts := Scan.split_top content in
  let first := hd EmptyString parts in
  if JS.includes first "deg" then
    Linear (JS.or_else (JS.parseFloat first) (JS.Fin 180)) (parseColorStops parts 1)
  else if JS.includes first "to " then
    let dir := JS.toLowerCase first in
    let angle := JS.Fin 180 in
    let angle := if JS.includes dir "bottom" then JS.Fin 180 else angle in
    let angle := if JS.includes dir "top" then JS.Fin 0 else angle in
    let angle := if JS.includes dir "right" then JS.Fin 90 else angle in
    let angle := if JS.includes dir "left" then JS.Fin 270 else angle in
    Linear angle (parseColorStops parts 1)
  else Linear (JS.Fin 180) (parseColorStops parts 0).

Definition parseRadialGradient (content : string) : gradient :=
  Radial (parseColorStops (Scan.split_top content) 0).

Definition parseGradient (bgImage : option string) : option gradient :=
  match bgImage with
  | None => None
  | Some bg =>
      if String.eqb bg "" || String.eqb bg "none" then None
      else
        let cleanBg := hd EmptyString (Scan.split_top bg) in
        match Scan.match_call "linear-gradient" cleanBg with
        | Some content => Some (parseLinearGradient (JS.trim content))
        | None =>
            match Scan.match_call "radial-gradient" cleanBg with
            | Some content => Some (parseRadialGradient (JS.trim content))
            | None => None
            end
        end
  end.

Definition stop_val (s : colorStop) : Style.jsval :=
  Style.VObj [("color", Style.VNum (color s)); ("alpha", Style.VNum (stop_alpha s));
              ("offset", Style.VNum (offset s))].

Definition to_val (g : gradient) : Style.jsval :=
  match g with
  | Linear a stops =>
      Style.VObj [("type", Style.VStr "linear"); ("angle", Style.VNum a);
                  ("stops", Style.VArr (map stop_val stops))]
  | Radial stops =>
      Style.VObj [("type", Style.VStr "radial");
                  ("stops", Style.VArr (map stop_val stops))]
  end.

(** [a || b] on two property reads. *)
Definition prop_or (a b : option string) : Style.jsval :=
  if Style.prop_truthy a then Style.of_prop a else Style.of_prop b.

(** [p !== 'none' ? p : null]. *)
Definition unless_none (p : option string) : Style.jsval :=
  if Style.prop_is p "none" then Style.VNull else Style.of_prop p.

Definition num_or (p : option string) (d : JS.num) : Style.jsval :=
  Style.VNum (JS.or_else (Style.parseFloatO p) d).

Definition lineHeight_of (raw : gmap string string) : Style.jsval :=
  Style.VNum (JS.or_else (Style.parseFloatO (raw !! "lineHeight"))
                (JS.mul (Style.parseFloatO (raw !! "fontSize")) (JS.Fin (12 # 10)))).

Definition padding_of (raw : gmap string string) : Style.jsval :=
  Style.VObj [("top", num_or (raw !! "paddingTop") JS.zero);
              ("right", num_or (raw !! "paddingRight") JS.zero);
              ("bottom", num_or (raw !! "paddingBottom") JS.zero);
              ("left", num_or (raw !! "paddingLeft") JS.zero)].

(** The object built for one raw style by the [PARSE_STYLES] handler. *)
Definition processOne (raw : gmap string string) : gmap string Style.jsval :=
  list_to_map
    [("backgroundColor", Style.of_prop (raw !! "backgroundColor"));
     ("backgroundImage", Style.of_prop (raw !! "backgroundImage"));
     ("borderWidth", num_or (raw !! "borderTopWidth") JS.zero);
     ("borderRightWidth", num_or (raw !! "borderRightWidth") JS.zero);
     ("borderBottomWidth", num_or (raw !! "borderBottomWidth") JS.zero);
     ("borderLeftWidth", num_or (raw !! "borderLeftWidth") JS.zero);
     ("borderColor", prop_or (raw !! "borderTopColor") (raw !! "borderColor"));
     ("borderRightColor", Style.of_prop (raw !! "borderRightColor"));
     ("borderBottomColor", Style.of_prop (raw !! "borderBottomColor"));
     ("borderLeftColor", Style.of_prop (raw !! "borderLeftColor"));
     ("borderStyle", prop_or (raw !! "borderTopStyle") (raw !! "borderStyle"));
     ("borderRadius", Style.of_prop (raw !! "borderRadius"));
     ("color", Style.of_prop (raw !! "color"));
     ("fontSize", num_or (raw !! "fontSize") (JS.Fin 12));
     ("fontFamily", Style.of_prop (raw !! "fontFamily"));
     ("fontWeight", Style.of_prop (raw !! "fontWeight"));
     ("fontStyle", Style.of_prop (raw !! "fontStyle"));
     ("textAlign", Style.of_prop (raw !! "textAlign"));
     ("justifyContent", Style.of_prop (raw !! "justifyContent"));
     ("alignItems", Style.of_prop (raw !! "alignItems"));
     ("lineHeight", lineHeight_of raw);
     ("letterSpacing", num_or (raw !! "letterSpacing") JS.zero);
     ("padding", padding_of raw);
     ("opacity", num_or (raw !! "opacity") JS.one);
     ("boxShadow", unless_none (raw !! "boxShadow"));
     ("transform", unless_none (raw !! "transform"));
     ("zIndex", Style.VNum (if Style.prop_is (raw !! "zIndex") "auto"
                            then JS.zero else Style.parseIntO (raw !! "zIndex")));
     ("overflow", Style.of_prop (raw !! "overflow"));
     ("visibility", Style.of_prop (raw !! "visibility"));
     ("whiteSpace", Style.of_prop (raw !! "whiteSpace"));
     ("wordBreak", Style.of_prop (raw !! "wordBreak"));
     ("gradient",
       if Style.prop_truthy (raw !! "backgroundImage")
          && negb (Style.prop_is (raw !! "backgroundImage") "none")
       then match parseGradient (raw !! "backgroundImage") with
            | Some g => to_val g
            | None => Style.VNull
            end
       else Style.VNull)].

(** The [processedBatch] posted back for a [PARSE_STYLES] request. *)
Definition processBatch (rawStylesBatch : list (gmap string string))
  : list (gmap string Style.jsval) :=
  map processOne rawStylesBatch.

End StyleWorker.

(** ** The legacy gradient worker
    ([public/legacy-workers/workers/gradientWorker.js]) *)

Module LegacyGradientWorker.

(** Whether the next parenthesis after a comma is a closing one: the
    look-ahead that keeps a comma inside a call from splitting. *)
Fixpoint closes_first (s : string) : bool :=
  match s with
  | EmptyString => false
  | String c r =>
      if Ascii.eqb c ")" then true
      else if Ascii.eqb c "(" then false
      else closes_first r
  end.

Fixpoint split_commas (s : string) (cur : string) : list string :=
  match s with
  | EmptyString => [cur]
  | String c r =>
      if Ascii.eqb c "," && negb (closes_first r)
      then cur :: split_commas r EmptyString
      else split_commas r (Scan.snoc cur c)
  end.

Definition directionMap : list (string * Z) :=
  [("top", 0); ("right", 90); ("bottom", 180); ("left", 270);
   ("top right", 45); ("bottom right", 135); ("bottom left", 225);
   ("top left", 315)].

(** Whether [s] is optional white space followed by nothing or by digits
    and a percent sign that end the string; the percentage digits are
    returned. *)
Definition stop_suffix (s : string) : option (option string) :=
  match JS.trimStart s with
  | EmptyString => Some None
  | r =>
      let run := Scan.take_while JS.is_digit r in
      match run, JS.drop_str (String.length run) r with
      | String _ _, String "%" EmptyString => Some (Some run)
      | _, _ => None
      end
  end.

(** The stop pattern: the shortest non-empty head, free of line ends, after
    which [stop_suffix] succeeds.  [k] is the length of the head tried. *)
Fixpoint match_stop (part : string) (k fuel : nat) : option (string * option string) :=
  match fuel with
  | O => None
  | S fuel' =>
      if (String.length part <? k)%nat then None
      else if existsb Scan.is_line_end (list_ascii_of_string (JS.take_str k part))
      then None
      else match stop_suffix (JS.drop_str k part) with
           | Some pct => Some (JS.take_str k part, pct)
           | None => match_stop part (S k) fuel'
           end
  end.

Fixpoint colorStops_from (rest : list string) (i startIdx len : nat)
  : list Gradient.colorStop :=
  match rest with
  | [] => []
  | p :: rest' =>
      let part := JS.trim p in
      let tail := colorStops_from rest' (S i) startIdx len in
      match match_stop part 1 (String.length part) with
      | Some (c, pct) =>
          let pos :=
            match pct with
            | Some d => JS.div (JS.parseFloat d) (JS.Fin 100)
            | None =>
                JS.div (JS.sub (JS.ofNat i) (JS.ofNat startIdx))
                       (JS.sub (JS.sub (JS.ofNat len) (JS.ofNat startIdx)) JS.one)
            end in
          {| Gradient.color := JS.trim c; Gradient.position := pos |} :: tail
      | None => tail
      end
  end.

Definition parseColorStops (parts : list string) (startIdx : nat)
  : list Gradient.colorStop :=
  colorStops_from (drop startIdx parts) startIdx startIdx (List.length parts).

Definition parseLinearGradient (content : string) : Gradient.gradient :=
  let parts := map JS.trim (split_commas content EmptyString) in
  let firstPart := hd EmptyString parts in
  if JS.includes firstPart "deg" then
    Gradient.Linear (JS.parseFloat firstPart) (parseColorStops parts 1)
  else if JS.startsWith firstPart "to " then
    let direction := JS.replace_first firstPart "to " "" in
    Gradient.Linear
      (JS.or_else (StyleWorker.num_of (StyleWorker.lookup_named direction directionMap))
                  (JS.Fin 180))
      (parseColorStops parts 1)
  else Gradient.Linear (JS.Fin 180) (parseColorStops parts 0).

End LegacyGradientWorker.

(** ** The visual tree read by the capturer *)

Module Dom.

Record rect := { left : JS.num; top : JS.num; width : JS.num; height : JS.num }.

(** An element carries its identity [uid], its attributes, the rectangle
    [getBoundingClientRect] reports and the table [getComputedStyle]
    returns; a property the table lacks reads as [undefined]. *)
Inductive element : Type :=
  | Element (uid : nat) (tagName : string) (attrs : gmap string string)
            (bounds : rect) (computed : gmap string string)
            (childNodes : list node)
with node : Type :=
  | ElementNode (e : element)
  | TextNode (textContent : string)
  | OtherNode.

Definition uid_of (e : element) : nat :=
  match e with Element u _ _ _ _ _ => u end.
Definition tag_of (e : element) : string :=
  match e with Element _ t _ _ _ _ => t end.
Definition childNodes_of (e : element) : list node :=
  match e with Element _ _ _ _ _ k => k end.
Definition bounds_of (e : element) : rect :=
  match e with Element _ _ _ b _ _ => b end.

(** [element.children]: the child nodes that are elements. *)
Fixpoint elements_of (l : list node) : list element :=
  match l with
  | [] => []
  | ElementNode e :: r => e :: elements_of r
  | _ :: r => elements_of r
  end.

Definition children (e : element) : list element := elements_of (childNodes_of e).

(** [element.textContent]. *)
Fixpoint textContent (e : element) : string :=
  match e with
  | Element _ _ _ _ _ kids =>
      (fix go (l : list node) : string :=
         match l with
         | [] => EmptyString
         | ElementNode e' :: r => textContent e' +:+ go r
         | TextNode s :: r => s +:+ go r
         | OtherNode :: r => go r
         end) kids
  end.

(** The tag names of the descendants of [e], [e] excluded. *)
Fixpoint descendant_tags (e : element) : list string :=
  match e with
  | Element _ _ _ _ _ kids =>
      (fix go (l : list node) : list string :=
         match l with
         | [] => []
         | ElementNode e' :: r => (tag_of e' :: descendant_tags e') ++ go r
         | _ :: r => go r
         end) kids
  end.

(** The identities of [e] and of its descendants. *)
Fixpoint subtree_uids (e : element) : list nat :=
  match e with
  | Element u _ _ _ _ kids =>
      u :: (fix go (l : list node) : list nat :=
              match l with
              | [] => []
              | ElementNode e' :: r => subtree_uids e' ++ go r
              | _ :: r => go r
              end) kids
  end.

Definition mem (s : string) (l : list string) : bool :=
  existsb (String.eqb s) l.

(** [for (const child of element.children) body(child)] on a threaded
    state: the child nodes that are elements, in order. *)
Definition for_children {S : Type} (body : element -> S -> S)
  : list node -> S -> S :=
  fix each (l : list node) (s : S) : S :=
    match l with
    | [] => s
    | ElementNode child :: r => each r (body child s)
    | _ :: r => each r s
    end.

(** [element.querySelector(sel)] is not null, for a list of tag selectors. *)
Definition has_descendant_tag (e : element) (tags : list string) : bool :=
  existsb (fun t => mem (JS.toLowerCase t) tags) (descendant_tags e).

Definition is_direct_text (n : node) : bool :=
  match n with
  | TextNode s => negb (String.eqb (JS.trim s) "")
  | _ => false
  end.

(** [element.src] of an image: the property reflects the attribute.  It is
    the empty string when the attribute is missing and otherwise what the
    document makes of the attribute, as a rule an absolute URL; [resolve]
    is that part of the document. *)
Definition reflected_src (resolve : string -> string)
    (attrs : gmap string string) : string :=
  match attrs !! "src" with
  | Some v => resolve v
  | None => EmptyString
  end.

End Dom.

(** ** The capturer: [GeometrySnapshot] of [WebEngine.jsx] *)

Module Snapshot.

Record clipRegion := {
  clip_x : JS.num; clip_y : JS.num;
  clip_width : JS.num; clip_height : JS.num;
  clip_radius : JS.num }.

Inductive nodeType : Type := text_t | box_t | image_t.

Record nodeData := {
  type : nodeType;
  x : JS.num; y : JS.num; width : JS.num; height : JS.num;
  styles : gmap string Style.jsval;
  zIndex : JS.num;
  href : option string;
  tagName : string;
  clip : option clipRegion;
  text : option string;
  src : option string }.

Definition with_styles (nd : nodeData) (s : gmap string Style.jsval) : nodeData :=
  {| type := type nd; x := x nd; y := y nd; width := width nd; height := height nd;
     styles := s; zIndex := zIndex nd; href := href nd; tagName := tagName nd;
     clip := clip nd; text := text nd; src := src nd |}.

Definition with_text (nd : nodeData) (t : option string) : nodeData :=
  {| type := type nd; x := x nd; y := y nd; width := width nd; height := height nd;
     styles := styles nd; zIndex := zIndex nd; href := href nd; tagName := tagName nd;
     clip := clip nd; text := t; src := src nd |}.

Definition with_src (nd : nodeData) (s : option string) : nodeData :=
  {| type := type nd; x := x nd; y := y nd; width := width nd; height := height nd;
     styles := styles nd; zIndex := zIndex nd; href := href nd; tagName := tagName nd;
     clip := clip nd; text := text nd; src := s |}.

(** *** Clip regions *)

Definition zeroClip : clipRegion :=
  {| clip_x := JS.Fin 0; clip_y := JS.Fin 0; clip_width := JS.Fin 0;
     clip_height := JS.Fin 0; clip_radius := JS.Fin 0 |}.

(** The branch taken when the node clips and has a parent clip. *)
Definition intersect (parentClip myClip : clipRegion) : clipRegion :=
  let x1 := JS.max (clip_x parentClip) (clip_x myClip) in
  let y1 := JS.max (clip_y parentClip) (clip_y myClip) in
  let x2 := JS.min (JS.add (clip_x parentClip) (clip_width parentClip))
                   (JS.add (clip_x myClip) (clip_width myClip)) in
  let y2 := JS.min (JS.add (clip_y parentClip) (clip_height parentClip))
                   (JS.add (clip_y myClip) (clip_height myClip)) in
  if JS.gt x2 x1 && JS.gt y2 y1 then
    {| clip_x := x1; clip_y := y1; clip_width := JS.sub x2 x1;
       clip_height := JS.sub y2 y1; clip_radius := clip_radius myClip |}
  else zeroClip.

Definition clips_overflow (computed : gmap string string) : bool :=
  Style.prop_is (computed !! "overflow") "hidden"
  || Style.prop_is (computed !! "overflow") "auto".

(** Radius of the node's own region: a percentage is resolved against the
    smaller side. *)
Definition ownRadius (computed : gmap string string) (w h : JS.num) : JS.num :=
  let br := if Style.prop_truthy (computed !! "borderRadius")
            then default EmptyString (computed !! "borderRadius") else "0px" in
  if JS.includes br "%" then
    JS.div (JS.mul (JS.min w h) (JS.parseFloat br)) (JS.Fin 100)
  else JS.or_else (JS.parseFloat br) JS.zero.

(** The region named [currentClip] in [captureNode]: what is handed to the
    children of a node placed at [(x, y)] with size [(w, h)]. *)
Definition myClip (computed : gmap string string) (x y w h : JS.num) : clipRegion :=
  {| clip_x := x; clip_y := y; clip_width := w; clip_height := h;
     clip_radius := ownRadius computed w h |}.

Definition currentClip (computed : gmap string string) (x y w h : JS.num)
    (parentClip : option clipRegion) : option clipRegion :=
  if clips_overflow computed then
    let myClip := myClip computed x y w h in
    match parentClip with
    | Some pc => Some (intersect pc myClip)
    | None => Some myClip
    end
  else parentClip.

(** A region with finite sides. *)
Definition region (x y w h r : Q) : clipRegion :=
  {| clip_x := JS.Fin x; clip_y := JS.Fin y; clip_width := JS.Fin w;
     clip_height := JS.Fin h; clip_radius := JS.Fin r |}.

(** The points a region lets through: its rectangle, right and bottom
    edges excluded. *)
Definition covers (c : clipRegion) (a b : Q) : Prop :=
  match clip_x c, clip_y c, clip_width c, clip_height c with
  | JS.Fin cx, JS.Fin cy, JS.Fin cw, JS.Fin ch =>
      (cx <= a /\ a < cx + cw) /\ (cy <= b /\ b < cy + ch)
  | _, _, _, _ => False
  end%Q.

(** Extent of the overlap of two intervals [[a, a + la)] and [[b, b + lb)]:
    positive when they share a segment. *)
Definition overlap (a la b lb : Q) : Q :=
  (Qmin (a + la) (b + lb) - Qmax a b)%Q.

(** *** Node classification *)

Definition hasVisibleBoxStyle (computed : gmap string string) : bool :=
  (negb (Style.prop_is (computed !! "backgroundColor") "rgba(0, 0, 0, 0)")
   && negb (Style.prop_is (computed !! "backgroundColor") "transparent"))
  || (Style.prop_truthy (computed !! "backgroundImage")
      && negb (Style.prop_is (computed !! "backgroundImage") "none"))
  || (JS.gt (Style.parseFloatO (computed !! "borderTopWidth")) JS.zero
      && negb (Style.prop_is (computed !! "borderTopStyle") "none"))
  || (Style.prop_truthy (computed !! "boxShadow")
      && negb (Style.prop_is (computed !! "boxShadow") "none")).

Definition textTags : list string :=
  ["SPAN"; "P"; "H1"; "H2"; "H3"; "H4"; "H5"; "H6";
   "STRONG"; "EM"; "B"; "I"; "LABEL"; "A"; "LI"].

Definition blockSelectors : list string :=
  ["div"; "section"; "article"; "main"; "aside"; "header"; "footer"; "nav"].

Definition getNodeType (e : Dom.element) (computed : gmap string string) : nodeType :=
  if String.eqb (Dom.tag_of e) "IMG" then image_t
  else if hasVisibleBoxStyle computed then box_t
  else
    let textContent := JS.trim (Dom.textContent e) in
    let hasNoElementTypeChildren :=
      forallb (fun c => Dom.mem (Dom.tag_of c) ["BR"; "WBR"]) (Dom.children e) in
    let isTextElement := Dom.mem (Dom.tag_of e) textTags in
    if isTextElement && negb (String.eqb textContent "") && hasNoElementTypeChildren
    then text_t
    else
      let hasDirectText := existsb Dom.is_direct_text (Dom.childNodes_of e) in
      if hasDirectText && negb (Dom.has_descendant_tag e blockSelectors)
      then text_t
      else box_t.

(** *** Style extraction *)

Definition rawKeys : list string :=
  ["backgroundColor"; "backgroundImage"; "borderTopWidth"; "borderTopColor";
   "borderTopStyle"; "borderRightWidth"; "borderRightColor";
   "borderBottomWidth"; "borderBottomColor"; "borderLeftWidth";
   "borderLeftColor"; "borderRadius"; "color"; "fontSize"; "fontFamily";
   "fontWeight"; "fontStyle"; "textAlign"; "justifyContent"; "alignItems";
   "lineHeight"; "letterSpacing"; "paddingTop"; "paddingRight";
   "paddingBottom"; "paddingLeft"; "opacity"; "boxShadow"; "transform";
   "zIndex"; "overflow"; "visibility"; "whiteSpace"; "wordBreak"].

(** [extractRawStyles]: the listed properties copied from the computed
    style.  A property the computed style lacks is stored as [undefined],
    which the structured clone keeps; it reads back as [undefined]. *)
Definition extractRawStyles (computed : gmap string string) : gmap string string :=
  filter (fun kv => Dom.mem (fst kv) rawKeys = true) computed.

(** The object literal assigned to [node.styles] by [processBatchLocally]. *)
Definition localLiteral (raw : gmap string string) : gmap string Style.jsval :=
  list_to_map
    [("backgroundColor", Style.of_prop (raw !! "backgroundColor"));
     ("backgroundImage", Style.of_prop (raw !! "backgroundImage"));
     ("borderWidth", StyleWorker.num_or (raw !! "borderTopWidth") JS.zero);
     ("borderRightWidth", StyleWorker.num_or (raw !! "borderRightWidth") JS.zero);
     ("borderBottomWidth", StyleWorker.num_or (raw !! "borderBottomWidth") JS.zero);
     ("borderLeftWidth", StyleWorker.num_or (raw !! "borderLeftWidth") JS.zero);
     ("borderColor", Style.of_prop (raw !! "borderTopColor"));
     ("borderRightColor", Style.of_prop (raw !! "borderRightColor"));
     ("borderBottomColor", Style.of_prop (raw !! "borderBottomColor"));
     ("borderLeftColor", Style.of_prop (raw !! "borderLeftColor"));
     ("borderStyle", Style.of_prop (raw !! "borderTopStyle"));
     ("borderRadius", Style.of_prop (raw !! "borderRadius"));
     ("color", Style.of_prop (raw !! "color"));
     ("display", Style.of_prop (raw !! "display"));
     ("justifyContent", Style.of_prop (raw !! "justifyContent"));
     ("alignItems", Style.of_prop (raw !! "alignItems"));
     ("fontSize", StyleWorker.num_or (raw !! "fontSize") (JS.Fin 12));
     ("fontFamily", Style.of_prop (raw !! "fontFamily"));
     ("fontWeight", Style.of_prop (raw !! "fontWeight"));
     ("fontStyle", Style.of_prop (raw !! "fontStyle"));
     ("textAlign", Style.of_prop (raw !! "textAlign"));
     ("lineHeight", StyleWorker.lineHeight_of raw);
     ("padding", StyleWorker.padding_of raw);
     ("boxShadow", StyleWorker.unless_none (raw !! "boxShadow"));
     ("transform", StyleWorker.unless_none (raw !! "transform"));
     ("letterSpacing", StyleWorker.num_or (raw !! "letterSpacing") JS.zero);
     ("whiteSpace", Style.of_prop (raw !! "whiteSpace"));
     ("wordBreak", Style.of_prop (raw !! "wordBreak"))].

(** The gradient step that ends the body of [processBatchLocally]. *)
Definition localGradient (raw : gmap string string)
    (s : gmap string Style.jsval) : gmap string Style.jsval :=
  if Style.prop_truthy (raw !! "backgroundImage")
     && negb (Style.prop_is (raw !! "backgroundImage") "none")
  then match Gradient.parseGradient (raw !! "backgroundImage") with
       | Some g => <["gradient" := Gradient.to_val g]> s
       | None => s
       end
  else s.

(** What the local path adds to the styles of one node: the fragment that
    the worker path receives from [StyleWorker.processOne]. *)
Definition resolveLocally (raw : gmap string string) : gmap string Style.jsval :=
  localGradient raw (localLiteral raw).

(** One iteration of [processBatchLocally] on the styles of a node. *)
Definition processLocally (raw : gmap string string)
    (s : gmap string Style.jsval) : gmap string Style.jsval :=
  localGradient raw (Style.assign s (localLiteral raw)).

(** *** Worker interface

    [execute] of a [WorkerManager] settles in one of three ways: it
    resolves with a response carrying the expected payload, it resolves
    with [null] or with a response that lacks the payload, or it rejects
    (time-out, worker error). *)

Inductive reply (A : Type) : Type :=
  | Fulfilled (payload : option A)
  | Rejected.
Arguments Fulfilled {A} payload.
Arguments Rejected {A}.

(** What [extractStyles] finds in [this.gradientWorker]: an object with an
    [execute] method, as a [WorkerManager] has; a [Worker] handed over as it
    is, with [postMessage]; or an object with neither.  Of a [Worker] the
    model keeps what it posts first after a request for a given background:
    nothing, or a message whose data holds a gradient or none. *)
Inductive gradientWorkerObject : Type :=
  | Manager (execute : option string -> reply Style.jsval)
  | BareWorker (firstMessage : option string -> option (option Style.jsval))
  | OtherObject.

(** The capturer's options and workers, and the URL the document makes of
    a [src] attribute. *)
Record config := {
  options_useWorkers : bool;
  styleWorker : option (list (gmap string string) -> reply (list (gmap string Style.jsval)));
  gradientWorker : option gradientWorkerObject;
  resolveURL : string -> string }.

(** [this.options.useWorkers && this.styleWorker], as a condition. *)
Definition useWorkers (cfg : config) : bool :=
  options_useWorkers cfg && bool_decide (is_Some (styleWorker cfg)).

(** *** Capture state

    Node objects and batch objects are shared by reference between
    [this.nodes], the batches and the pending tasks, so they live in
    stores addressed by position. *)

Record batch := { batch_nodes : list nat; rawStyles : list (gmap string string) }.

Record state := {
  heap : list nodeData;
  nodes : list nat;
  processedNodes : gset nat;
  batches : list batch;
  stylePromises : list nat;
  gradientPromises : list (nat * option string) }.

Definition initial : state :=
  {| heap := []; nodes := []; processedNodes := ∅; batches := [];
     stylePromises := []; gradientPromises := [] |}.

Definition set_heap (st : state) (h : list nodeData) : state :=
  {| heap := h; nodes := nodes st; processedNodes := processedNodes st;
     batches := batches st; stylePromises := stylePromises st;
     gradientPromises := gradientPromises st |}.

Definition push_node (st : state) (addr : nat) : state :=
  {| heap := heap st; nodes := nodes st ++ [addr];
     processedNodes := processedNodes st; batches := batches st;
     stylePromises := stylePromises st; gradientPromises := gradientPromises st |}.

Definition add_processed (st : state) (ids : list nat) : state :=
  {| heap := heap st; nodes := nodes st;
     processedNodes := list_to_set ids ∪ processedNodes st; batches := batches st;
     stylePromises := stylePromises st; gradientPromises := gradientPromises st |}.

Definition set_batches (st : state) (bs : list batch) : state :=
  {| heap := heap st; nodes := nodes st; processedNodes := processedNodes st;
     batches := bs; stylePromises := stylePromises st;
     gradientPromises := gradientPromises st |}.

Definition push_stylePromise (st : state) (b : nat) : state :=
  {| heap := heap st; nodes := nodes st; processedNodes := processedNodes st;
     batches := batches st; stylePromises := stylePromises st ++ [b];
     gradientPromises := gradientPromises st |}.

Definition push_gradientPromise (st : state) (t : nat * option string) : state :=
  {| heap := heap st; nodes := nodes st; processedNodes := processedNodes st;
     batches := batches st; stylePromises := stylePromises st;
     gradientPromises := gradientPromises st ++ [t] |}.

Definition batch_push (b : batch) (addr : nat) (raw : gmap string string) : batch :=
  {| batch_nodes := batch_nodes b ++ [addr]; rawStyles := rawStyles b ++ [raw] |}.

(** The object literal of the direct branch of [extractStyles]. *)
Definition directLiteral (computed : gmap string string) : gmap string Style.jsval :=
  list_to_map
    [("backgroundColor", Style.of_prop (computed !! "backgroundColor"));
     ("backgroundImage", Style.of_prop (computed !! "backgroundImage"));
     ("borderWidth", StyleWorker.num_or (computed !! "borderTopWidth") JS.zero);
     ("borderRightWidth", StyleWorker.num_or (computed !! "borderRightWidth") JS.zero);
     ("borderBottomWidth", StyleWorker.num_or (computed !! "borderBottomWidth") JS.zero);
     ("borderLeftWidth", StyleWorker.num_or (computed !! "borderLeftWidth") JS.zero);
     ("borderColor",
        StyleWorker.prop_or (computed !! "borderTopColor") (computed !! "borderColor"));
     ("borderRightColor", Style.of_prop (computed !! "borderRightColor"));
     ("borderBottomColor", Style.of_prop (computed !! "borderBottomColor"));
     ("borderLeftColor", Style.of_prop (computed !! "borderLeftColor"));
     ("borderStyle",
        StyleWorker.prop_or (computed !! "borderTopStyle") (computed !! "borderStyle"));
     ("borderRadius", Style.of_prop (computed !! "borderRadius"));
     ("color", Style.of_prop (computed !! "color"));
     ("display", Style.of_prop (computed !! "display"));
     ("justifyContent", Style.of_prop (computed !! "justifyContent"));
     ("alignItems", Style.of_prop (computed !! "alignItems"));
     ("fontSize", StyleWorker.num_or (computed !! "fontSize") (JS.Fin 12));
     ("fontFamily", Style.of_prop (computed !! "fontFamily"));
     ("fontWeight", Style.of_prop (computed !! "fontWeight"));
     ("fontStyle", Style.of_prop (computed !! "fontStyle"));
     ("textAlign", Style.of_prop (computed !! "textAlign"));
     ("lineHeight", StyleWorker.lineHeight_of computed);
     ("padding", StyleWorker.padding_of computed);
     ("boxShadow", StyleWorker.unless_none (computed !! "boxShadow"));
     ("transform", StyleWorker.unless_none (computed !! "transform"));
     ("letterSpacing", StyleWorker.num_or (computed !! "letterSpacing") JS.zero);
     ("whiteSpace", Style.of_prop (computed !! "whiteSpace"));
     ("wordBreak", Style.of_prop (computed !! "wordBreak"));
     ("backgroundClip",
        StyleWorker.prop_or (computed !! "backgroundClip")
                            (computed !! "webkitBackgroundClip"));
     ("webkitTextFillColor", Style.of_prop (computed !! "webkitTextFillColor"));
     ("listStyleType", Style.of_prop (computed !! "listStyleType"))].

(** The three styles every node receives at once. *)
Definition cheapStyles (computed : gmap string string) : gmap string Style.jsval :=
  list_to_map
    [("opacity", StyleWorker.num_or (computed !! "opacity") JS.one);
     ("zIndex", Style.VNum (if Style.prop_is (computed !! "zIndex") "auto"
                            then JS.zero
                            else Style.parseIntO (computed !! "zIndex")));
     ("display", Style.of_prop (computed !! "display"))].

Definition has_backgroundImage (computed : gmap string string) : bool :=
  Style.prop_truthy (computed !! "backgroundImage")
  && negb (Style.prop_is (computed !! "backgroundImage") "none").

(** [extractStyles]: the node object lives at [addr]; its styles so far are
    those of [nd]. *)
Definition extractStyles (cfg : config) (computed : gmap string string)
    (addr : nat) (nd : nodeData) (batchContext : option nat) (st : state)
  : nodeData * state :=
  let s1 := Style.assign (styles nd) (cheapStyles computed) in
  let '(s2, st2) :=
    if has_backgroundImage computed then
      match batchContext, gradientWorker cfg with
      | Some _, _ => (s1, st)
      | None, Some (Manager _) | None, Some (BareWorker _) =>
          (s1, push_gradientPromise st (addr, computed !! "backgroundImage"))
      | None, Some OtherObject | None, None =>
          match Gradient.parseGradient (computed !! "backgroundImage") with
          | Some g => (<["gradient" := Gradient.to_val g]> s1, st)
          | None => (s1, st)
          end
      end
    else (s1, st) in
  match batchContext with
  | Some b =>
      (with_styles nd s2,
       set_batches st2
         (alter (fun bt => batch_push bt addr (extractRawStyles computed)) b
                (batches st2)))
  | None => (with_styles nd (Style.assign s2 (directLiteral computed)), st2)
  end.

(** Text given to a box by its direct text nodes. *)
Fixpoint directTexts (l : list Dom.node) : list string :=
  match l with
  | [] => []
  | Dom.TextNode s :: r =>
      if negb (String.eqb (JS.trim s) "") then s :: directTexts r else directTexts r
  | _ :: r => directTexts r
  end.

Fixpoint join_space (l : list string) : string :=
  match l with
  | [] => EmptyString
  | [s] => s
  | s :: r => s +:+ " " +:+ join_space r
  end.

(** Position and size recorded for an element: whole pixels relative to
    the root rectangle. *)
Definition placed (rootRect : Dom.rect) (e : Dom.element)
  : JS.num * JS.num * JS.num * JS.num :=
  match e with
  | Dom.Element _ _ _ bounds _ _ =>
      (JS.round (JS.sub (Dom.left bounds) (Dom.left rootRect)),
       JS.round (JS.sub (Dom.top bounds) (Dom.top rootRect)),
       JS.round (Dom.width bounds),
       JS.round (Dom.height bounds))
  end.

(** The clip an element hands to its children when it inherited [pc]. *)
Definition handed_down (rootRect : Dom.rect) (e : Dom.element)
    (pc : option clipRegion) : option clipRegion :=
  match e with
  | Dom.Element _ _ _ _ computed _ =>
      let '(x, y, w, h) := placed rootRect e in
      currentClip computed x y w h pc
  end.

(** [inherits rootRect root e pc]: in the tree under [root], the element
    [e] inherits the clip [pc] from its parent's overflow.  The root
    inherits none; a child inherits what its parent hands down. *)
Inductive inherits (rootRect : Dom.rect) (root : Dom.element)
  : Dom.element -> option clipRegion -> Prop :=
  | inherits_root : inherits rootRect root root None
  | inherits_child parent pc child :
      inherits rootRect root parent pc ->
      In (Dom.ElementNode child) (Dom.childNodes_of parent) ->
      inherits rootRect root child (handed_down rootRect parent pc).

(** [nd] is the node object created for the element [e]. *)
Definition recorded_for (rootRect : Dom.rect) (e : Dom.element) (nd : nodeData) : Prop :=
  tagName nd = Dom.tag_of e
  /\ (x nd, y nd, width nd, height nd) = placed rootRect e
  /\ zIndex nd
     = match e with
       | Dom.Element _ _ _ _ computed _ =>
           JS.or_else (Style.parseIntO (computed !! "zIndex")) JS.zero
       end.

(** The node object as [captureNode] creates it, before its styles are
    extracted. *)
Definition newNodeData (rootRect : Dom.rect) (e : Dom.element)
    (parentClip : option clipRegion) : nodeData :=
  match e with
  | Dom.Element _ tag attrs _ computed _ =>
      let '(x, y, width, height) := placed rootRect e in
      {| type := getNodeType e computed;
         x := x; y := y; width := width; height := height;
         styles := ∅;
         zIndex := JS.or_else (Style.parseIntO (computed !! "zIndex")) JS.zero;
         href := if String.eqb tag "A" then attrs !! "href" else None;
         tagName := tag;
         clip := parentClip;
         text := None; src := None |}
  end.

(** What an image or a box receives after its styles: [element.src] for
    the image, the text of the direct text nodes of a box. *)
Definition withContent (resolve : string -> string) (attrs : gmap string string)
    (kids : list Dom.node) (nd : nodeData) : nodeData :=
  let nd2 := match type nd with
             | image_t => with_src nd (Some (Dom.reflected_src resolve attrs))
             | _ => nd
             end in
  match type nd, directTexts kids with
  | box_t, (_ :: _) as ts => with_text nd2 (Some (JS.trim (join_space ts)))
  | _, _ => nd2
  end.

(** The node object is written at the next free address. *)
Definition store (nd : nodeData) (st : state) : state :=
  set_heap st (heap st ++ [nd]).

Definition hidden (computed : gmap string string) : bool :=
  Style.prop_is (computed !! "display") "none"
  || JS.eqb (Style.parseFloatO (computed !! "opacity")) JS.zero.

(** Whether the element opens a batch of its own: workers in use, no
    batch inherited, more than thirty element children. *)
Definition opensBatch (cfg : config) (batchContext : option nat)
    (kids : list Dom.node) : bool :=
  useWorkers cfg && bool_decide (batchContext = None)
  && (30 <? List.length (Dom.elements_of kids))%nat.

Definition newBatch (st : state) : state :=
  set_batches st (batches st ++ [{| batch_nodes := []; rawStyles := [] |}]).

(** The tail of [captureNode] for a node that is not text: a batch of its
    own is opened when [opensBatch] holds, every element child is visited
    with the batch in force, and the batch that was opened is queued for
    the style worker. *)
Definition withChildren (cfg : config)
    (visit : Dom.element -> option nat -> state -> state)
    (batchContext : option nat) (kids : list Dom.node) (st2 : state) : state :=
  let own := opensBatch cfg batchContext kids in
  let st3 := if own then newBatch st2 else st2 in
  let nextBatch := if own then Some (List.length (batches st2))
                   else batchContext in
  let st4 := Dom.for_children (fun child s => visit child nextBatch s) kids st3 in
  if own then push_stylePromise st4 (List.length (batches st2)) else st4.

Section Traversal.

Variable cfg : config.
(** [this.rootRect], set by [capture] before the traversal. *)
Variable rootRect : Dom.rect.

(** [captureNode].  The tests on [element] being an element hold by
    typing.  The node object is created at the next free address; it is
    written there once its synchronous updates are known. *)
Fixpoint captureNode (e : Dom.element) (batchContext : option nat)
    (parentClip : option clipRegion) (st : state) {struct e} : state :=
  match e with
  | Dom.Element uid tag attrs bounds computed kids =>
    if bool_decide (uid ∈ processedNodes st) then st else
    if hidden computed then st else
    let addr := List.length (heap st) in
    let '(nd1, st1) :=
      extractStyles cfg computed addr (newNodeData rootRect e parentClip)
                    batchContext st in
    match getNodeType e computed with
    | text_t =>
        let t := JS.trim (Dom.textContent e) in
        if String.eqb t ""
        then store (with_text nd1 (Some t)) st1
        else push_node
               (add_processed (store (with_text nd1 (Some t)) st1)
                              (Dom.subtree_uids e))
               addr
    | _ =>
        withChildren cfg
          (fun child nextBatch s =>
             captureNode child nextBatch (handed_down rootRect e parentClip) s)
          batchContext kids
          (push_node
             (add_processed
                (store (withContent (resolveURL cfg) attrs kids nd1) st1) [uid])
             addr)
    end
  end.

End Traversal.

(** *** Invariants of the traversal *)

(** The node object [nd] was created for an element of the tree under
    [root] and stores the clip that element inherits. *)
Definition clip_inherited (rootRect : Dom.rect) (root : Dom.element)
    (nd : nodeData) : Prop :=
  exists e pc,
    inherits rootRect root e pc /\ recorded_for rootRect e nd /\ clip nd = pc.

Definition batch_ok (b : batch) : Prop :=
  List.length (batch_nodes b) = List.length (rawStyles b).

Definition wf (rootRect : Dom.rect) (root : Dom.element) (st : state) : Prop :=
  Forall (clip_inherited rootRect root) (heap st)
  /\ Forall batch_ok (batches st)
  /\ Forall (fun b => (b < List.length (batches st))%nat) (stylePromises st)
  /\ Forall (fun a => (a < List.length (heap st))%nat) (nodes st).

(** *** Resolution of the queued work *)

(** How an asynchronous step ends: with a value, with an exception, or
    not at all when a promise it awaits never settles. *)
Inductive exc (A : Type) : Type :=
  | Ok (a : A)
  | Throw
  | Pending.
Arguments Ok {A} a.
Arguments Throw {A}.
Arguments Pending {A}.

Definition update_styles (addr : nat)
    (f : gmap string Style.jsval -> gmap string Style.jsval)
    (h : list nodeData) : list nodeData :=
  alter (fun nd => with_styles nd (f (styles nd))) addr h.

(** The [forEach] over [response.processedBatch]: reading [styles] of a
    node the batch does not have throws; the flag tells whether it did. *)
Fixpoint applyProcessed (processed : list (gmap string Style.jsval)) (i : nat)
    (bnodes : list nat) (h : list nodeData) : list nodeData * bool :=
  match processed with
  | [] => (h, false)
  | style :: rest =>
      match bnodes !! i with
      | None => (h, true)
      | Some addr =>
          applyProcessed rest (S i) bnodes
            (update_styles addr (fun s => Style.assign s style) h)
      end
  end.

(** The [forEach] of [processBatchLocally]: reading a property of a raw
    style the batch does not have throws. *)
Fixpoint processLocally_from (bnodes : list nat) (i : nat)
    (raws : list (gmap string string)) (h : list nodeData) : exc (list nodeData) :=
  match bnodes with
  | [] => Ok h
  | addr :: rest =>
      match raws !! i with
      | None => Throw
      | Some raw =>
          processLocally_from rest (S i) raws
            (update_styles addr (processLocally raw) h)
      end
  end.

Definition processBatchLocally (b : batch) (h : list nodeData) : exc (list nodeData) :=
  processLocally_from (batch_nodes b) 0 (rawStyles b) h.

(** The task queued for a batch: the worker's answer is applied; a missing
    answer, a rejection or an exception while applying it falls back to
    [processBatchLocally]. *)
Definition resolveStyle (cfg : config) (b : batch) (h : list nodeData)
  : exc (list nodeData) :=
  match styleWorker cfg with
  | None => processBatchLocally b h
  | Some execute =>
      match execute (rawStyles b) with
      | Fulfilled (Some processed) =>
          let '(h', threw) := applyProcessed processed 0 (batch_nodes b) h in
          if threw then processBatchLocally b h' else Ok h'
      | Fulfilled None => processBatchLocally b h
      | Rejected => processBatchLocally b h
      end
  end.

Fixpoint resolveStyles (cfg : config) (bs : list batch) (pending : list nat)
    (h : list nodeData) : exc (list nodeData) :=
  match pending with
  | [] => Ok h
  | p :: rest =>
      match bs !! p with
      | None => Throw
      | Some b =>
          match resolveStyle cfg b h with
          | Ok h' => resolveStyles cfg bs rest h'
          | Throw => Throw
          | Pending => Pending
          end
      end
  end.

(** The task queued with a [WorkerManager]: the gradient of the response,
    and the local parser when the response has none or the call fails. *)
Definition resolveGradient (execute : option string -> reply Style.jsval)
    (task : nat * option string) (h : list nodeData) : list nodeData :=
  let '(addr, bg) := task in
  match execute bg with
  | Fulfilled (Some g) => update_styles addr (fun s => <["gradient" := g]> s) h
  | _ =>
      match Gradient.parseGradient bg with
      | Some g => update_styles addr (fun s => <["gradient" := Gradient.to_val g]> s) h
      | None => h
      end
  end.

(** [await Promise.all(this.gradientPromises)].  With a [WorkerManager]
    every task settles.  With a bare [Worker] each task has set
    [onmessage] anew, so the messages of the worker reach the handler of
    the last task only: the promises of the tasks before it never settle,
    and the last one settles with the first message, if there is one.
    Without either no task was queued. *)
Definition resolveGradients (cfg : config) (tasks : list (nat * option string))
    (h : list nodeData) : exc (list nodeData) :=
  match gradientWorker cfg with
  | Some (Manager execute) =>
      Ok (fold_left (fun h t => resolveGradient execute t h) tasks h)
  | Some (BareWorker firstMessage) =>
      match tasks with
      | [] => Ok h
      | [(addr, bg)] =>
          match firstMessage bg with
          | Some (Some g) => Ok (update_styles addr (fun s => <["gradient" := g]> s) h)
          | Some None => Ok h
          | None => Pending
          end
      | _ :: _ :: _ => Pending
      end
  | Some OtherObject | None => Ok h
  end.

(** The gradient worker is not a bare [Worker]. *)
Definition settles (cfg : config) : Prop :=
  match gradientWorker cfg with
  | Some (BareWorker _) => False
  | _ => True
  end.

Record snapshot := {
  snap_nodes : list nodeData;
  snap_width : JS.num;
  snap_height : JS.num;
  nodeCount : nat }.

(** [capture].  The transforms the method neutralises while it measures
    only decide which rectangles the tree reports; the rectangles of the
    model are those measured.  Timing statistics are left out. *)
Definition capture (cfg : config) (element : option Dom.element)
  : exc (option snapshot) :=
  match element with
  | None => Ok None
  | Some e =>
      let rootRect := Dom.bounds_of e in
      let st := captureNode cfg rootRect e None None initial in
      match resolveStyles cfg (batches st) (stylePromises st) (heap st) with
      | Throw => Throw
      | Pending => Pending
      | Ok h1 =>
          match resolveGradients cfg (gradientPromises st) h1 with
          | Throw => Throw
          | Pending => Pending
          | Ok h2 =>
              let ns := omap (fun a => h2 !! a) (nodes st) in
              Ok (Some {| snap_nodes := ns;
                          snap_width := JS.ceil (Dom.width rootRect);
                          snap_height := JS.ceil (Dom.height rootRect);
                          nodeCount := List.length ns |})
          end
      end
  end.


(** The snapshot [capture] resolves with, if it does. *)
Definition capture_result (cfg : config) (root : Dom.element) : option snapshot :=
  match capture cfg (Some root) with
  | Ok r => r
  | _ => None
  end.

End Snapshot.

(** ** A small tree used to exercise the capturer *)

Module Sample.

Definition rect_of (l t w h : Z) : Dom.rect :=
  {| Dom.left := JS.ofZ l; Dom.top := JS.ofZ t;
     Dom.width := JS.ofZ w; Dom.height := JS.ofZ h |}.

(** A label inside a rounded clipping box inside a clipping root. *)
Definition label : Dom.element :=
  Dom.Element 3 "SPAN" ∅ (rect_of 15 15 50 10)
    (list_to_map [("display", "inline"); ("opacity", "1");
                  ("backgroundColor", "transparent")])
    [Dom.TextNode "hello world"].

Definition inner : Dom.element :=
  Dom.Element 2 "DIV" ∅ (rect_of 20 20 200 200)
    (list_to_map [("display", "block"); ("opacity", "1"); ("overflow", "hidden");
                  ("borderRadius", "50%"); ("backgroundColor", "transparent")])
    [Dom.ElementNode label].

Definition root : Dom.element :=
  Dom.Element 1 "DIV" ∅ (rect_of 10 10 100 100)
    (list_to_map [("display", "block"); ("opacity", "1"); ("overflow", "hidden");
                  ("backgroundColor", "rgb(255, 0, 0)");
                  ("backgroundImage", "linear-gradient(45deg, red 0%, blue 100%)")])
    [Dom.ElementNode inner].

(** No worker configured: every style is resolved on the spot. *)
Definition local : Snapshot.config :=
  {| Snapshot.options_useWorkers := false;
     Snapshot.styleWorker := None;
     Snapshot.gradientWorker := None;
     Snapshot.resolveURL := fun v => "https://example.org/" +:+ v |}.

Definition empty_snapshot : Snapshot.snapshot :=
  {| Snapshot.snap_nodes := []; Snapshot.snap_width := JS.zero;
     Snapshot.snap_height := JS.zero; Snapshot.nodeCount := 0 |}.

Definition snapshot : Snapshot.snapshot :=
  match Snapshot.capture local (Some root) with
  | Snapshot.Ok (Some snap) => snap
  | _ => empty_snapshot
  end.

(** The node recorded for [inner]. *)
Definition second : Snapshot.nodeData :=
  nth 1 (Snapshot.snap_nodes snapshot)
      (Snapshot.newNodeData (Dom.bounds_of root) root None).

(** A box that holds a picture. *)
Definition gallery : Dom.element :=
  Dom.Element 1 "DIV" ∅ (rect_of 0 0 100 100)
    (list_to_map [("display", "block"); ("opacity", "1")])
    [Dom.ElementNode
       (Dom.Element 2 "IMG" (list_to_map [("src", "cat.png")]) (rect_of 0 0 50 50)
          (list_to_map [("display", "inline"); ("opacity", "1")]) [])].

Definition gallery_snapshot : Snapshot.snapshot :=
  match Snapshot.capture local (Some gallery) with
  | Snapshot.Ok (Some snap) => snap
  | _ => empty_snapshot
  end.

(** Four boxes with a z-index inside a box without one; the second and
    the third have the same.  The box of identifier [uid] lies [uid]
    units from the left edge. *)
Definition layer (uid : nat) (zIndex : string) : Dom.node :=
  Dom.ElementNode
    (Dom.Element uid "DIV" ∅ (rect_of (Z.of_nat uid) 0 10 10)
       (list_to_map [("display", "block"); ("opacity", "1"); ("zIndex", zIndex);
                     ("backgroundColor", "rgb(0, 0, 255)")]) []).

Definition layers : Dom.element :=
  Dom.Element 1 "DIV" ∅ (rect_of 0 0 100 100)
    (list_to_map [("display", "block"); ("opacity", "1"); ("zIndex", "auto")])
    [layer 2 "2"; layer 3 "1"; layer 4 "1"; layer 5 "-1"].

(** Its snapshot; the nodes are in the order of capture. *)
Definition layered : Snapshot.snapshot :=
  match Snapshot.capture local (Some layers) with
  | Snapshot.Ok (Some snap) => snap
  | _ => empty_snapshot
  end.

(** The node recorded for the picture. *)
Definition picture : Snapshot.nodeData :=
  nth 1 (Snapshot.snap_nodes gallery_snapshot)
      (Snapshot.newNodeData (Dom.bounds_of gallery) gallery None).

End Sample.

(** ** Draw order of the renderers *)

Module Render.

(** [Array.prototype.sort] with a comparator.  The language requires the
    sort to be stable and, for a consistent comparator, ascending; the
    algorithm is left to the engine.  It is modelled by the stable
    insertion sort, which every conforming engine agrees with on a
    consistent comparator.  An element moves past another only when the
    comparator is positive; [NaN] counts as zero. *)
Section Sort.

Context {A : Type}.
Variable compare : A -> A -> JS.num.

Fixpoint insert (a : A) (sorted : list A) : list A :=
  match sorted with
  | [] => [a]
  | b :: rest =>
      if JS.gt (compare a b) JS.zero then b :: insert a rest
      else a :: b :: rest
  end.

Definition sort (l : list A) : list A := foldr insert [] l.

End Sort.

(** The key of [renderToCanvas] and of the canvas layout engine:
    [node.zIndex || 0]. *)
Definition canvasKey (nd : Snapshot.nodeData) : JS.num :=
  JS.or_else (Snapshot.zIndex nd) JS.zero.

(** The key of [PixiRendererEngine.render]: [node.styles?.zIndex || 0].
    A style record holds a number there; the conversion of other truthy
    values to numbers is not modelled and reads as [NaN]. *)
Definition pixiKey (nd : Snapshot.nodeData) : JS.num :=
  match Snapshot.styles nd !! "zIndex" with
  | Some (Style.VNum n) => JS.or_else n JS.zero
  | Some (Style.VStr EmptyString) => JS.zero
  | Some Style.VUndef | Some Style.VNull | None => JS.zero
  | Some _ => JS.NaN
  end.

Definition by_key (key : Snapshot.nodeData -> JS.num)
    (a b : Snapshot.nodeData) : JS.num :=
  JS.sub (key a) (key b).

(** The sequence [renderToCanvas] draws. *)
Definition canvasOrder (nodes : list Snapshot.nodeData) : list Snapshot.nodeData :=
  sort (by_key canvasKey) nodes.

(** The sequence [PixiRendererEngine.render] draws. *)
Definition pixiOrder (nodes : list Snapshot.nodeData) : list Snapshot.nodeData :=
  sort (by_key pixiKey) nodes.

(** [a] is not above [b]. *)
Definition le (a b : JS.num) : Prop := JS.gt a b = false.

(** [a] is at most [b], as numbers: the order of the rationals with the
    two infinities at its ends.  [NaN] is at most nothing. *)
Definition at_most (a b : JS.num) : Prop :=
  match a, b with
  | JS.NaN, _ | _, JS.NaN => False
  | JS.NInf, _ | _, JS.PInf => True
  | JS.Fin x, JS.Fin y => (x <= y)%Q
  | _, _ => False
  end.

(** The z-index of the style record is the one of the node, as
    [extractStyles] leaves it: the same number, or [NaN] or nothing where
    the node has 0. *)
Definition styled_as_captured (nd : Snapshot.nodeData) : Prop :=
  match Snapshot.styles nd !! "zIndex" with
  | Some (Style.VNum n) =>
      n = Snapshot.zIndex nd \/ (n = JS.NaN /\ Snapshot.zIndex nd = JS.zero)
  | None => Snapshot.zIndex nd = JS.zero
  | Some _ => False
  end.

Definition is_number (a : JS.num) : Prop := a <> JS.NaN.

(** The elements of [l] whose key equals [k], in their order. *)
Definition with_key {A : Type} (key : A -> JS.num) (k : JS.num) (l : list A) : list A :=
  List.filter (fun a => JS.eqb (key a) k) l.

End Render.

(** ** Inputs on which the parsers are compared *)

Module Cases.

Definition angle_of (g : Gradient.gradient) : option JS.num :=
  match g with
  | Gradient.Linear a _ => Some a
  | Gradient.Radial _ => None
  end.

Definition worker_angle_of (g : StyleWorker.gradient) : option JS.num :=
  match g with
  | StyleWorker.Linear a _ => Some a
  | StyleWorker.Radial _ => None
  end.

(** The content of [linear-gradient(to bottom right, red, blue)]. *)
Definition diagonal : string := "to bottom right, red, blue".

(** A raw style as [extractRawStyles] builds it for a box with a two-stop
    gradient. *)
Definition gradientBox : gmap string string :=
  Snapshot.extractRawStyles
    (list_to_map
       [("display", "block"); ("opacity", "1"); ("zIndex", "auto");
        ("backgroundColor", "rgba(0, 0, 0, 0)");
        ("backgroundImage", "linear-gradient(red, blue)");
        ("borderTopWidth", "0px"); ("borderTopColor", "rgb(0, 0, 0)");
        ("borderTopStyle", "none"); ("fontSize", "16px");
        ("lineHeight", "normal"); ("boxShadow", "none");
        ("transform", "none"); ("overflow", "visible");
        ("visibility", "visible")]).

(** A [Worker] handed to the capturer as it is.  It answers every request
    with a message that holds no gradient. *)
Definition bare : Snapshot.config :=
  {| Snapshot.options_useWorkers := false;
     Snapshot.styleWorker := None;
     Snapshot.gradientWorker := Some (Snapshot.BareWorker (fun _ => Some None));
     Snapshot.resolveURL := fun v => v |}.

(** A box with a gradient inside a box with a gradient. *)
Definition twoGradients : Dom.element :=
  Dom.Element 1 "DIV" ∅ (Sample.rect_of 0 0 100 100)
    (list_to_map [("display", "block"); ("opacity", "1"); ("zIndex", "auto");
                  ("backgroundImage", "linear-gradient(red, blue)")])
    [Dom.ElementNode
       (Dom.Element 2 "DIV" ∅ (Sample.rect_of 0 0 50 50)
          (list_to_map [("display", "block"); ("opacity", "1"); ("zIndex", "auto");
                        ("backgroundImage", "linear-gradient(blue, red)")])
          [])].

(** A box whose computed style holds empty strings where a style that was
    never computed has them. *)
Definition unreadable : Dom.element :=
  Dom.Element 1 "DIV" ∅ (Sample.rect_of 0 0 100 100)
    (list_to_map [("display", "block"); ("opacity", "1"); ("zIndex", "");
                  ("lineHeight", "normal"); ("fontSize", "")])
    [].

(** The keys both resolutions fill from the same expression. *)
Definition agreedKeys : list string :=
  ["backgroundColor"; "backgroundImage"; "borderWidth"; "borderRightWidth";
   "borderBottomWidth"; "borderLeftWidth"; "borderRightColor";
   "borderBottomColor"; "borderLeftColor"; "borderRadius"; "color";
   "fontSize"; "fontFamily"; "fontWeight"; "fontStyle"; "textAlign";
   "justifyContent"; "alignItems"; "lineHeight"; "letterSpacing"; "padding";
   "boxShadow"; "transform"; "whiteSpace"; "wordBreak"].

End Cases.

(** ** The layout engine: flex and grid sizing ([WebEngine.jsx]) *)

Module Layout.

Record size := { width : JS.num; height : JS.num }.

(** The names ['width'] and ['height'] used to index sizes. *)
Inductive axis : Type := Width | Height.

Definition along (a : axis) (s : size) : JS.num :=
  match a with
  | Width => width s
  | Height => height s
  end.

(** A layout node as its parent reads it: the property bag and the size
    cached by [measure]. *)
Record child := { props : gmap string JS.prim; intrinsicSize : size }.

Definition prop (c : child) (k : string) : JS.prim :=
  default JS.PUndef (props c !! k).

(** [parseSize(value, base)]. *)
Definition parseSize (value : JS.prim) (base : JS.num) : JS.num :=
  match value with
  | JS.PNum n => n
  | JS.PStr s =>
      if String.eqb s "" then JS.zero
      else if JS.endsWith s "px" then JS.parseFloat s
      else if JS.endsWith s "%" then
        JS.mul (JS.div (JS.parseFloat s) (JS.Fin 100)) base
      else if String.eqb s "auto" then JS.zero
      else JS.or_else (JS.parseFloat s) JS.zero
  | _ => JS.zero
  end.

Definition sum (l : list JS.num) : JS.num := fold_left JS.add l JS.zero.

(** [flexBasis && flexBasis !== 'auto']. *)
Definition basis_given (flexBasis : JS.prim) : bool :=
  JS.prim_truthy flexBasis
  && negb (match flexBasis with
           | JS.PStr s => String.eqb s "auto"
           | _ => false
           end).

Definition baseSize (availableSpace : JS.num) (mainAxis : axis) (c : child) : JS.num :=
  if basis_given (prop c "flexBasis")
  then parseSize (prop c "flexBasis") availableSpace
  else along mainAxis (intrinsicSize c).

(** [parseFloat(child.props.flexGrow) || 0]. *)
Definition growWeight (c : child) : JS.num :=
  JS.or_else (JS.parseFloatP (prop c "flexGrow")) JS.zero.

(** [parseFloat(child.props.flexShrink) || 1]: a missing, unparsable or
    zero [flexShrink] weighs one. *)
Definition shrinkWeight (c : child) : JS.num :=
  JS.or_else (JS.parseFloatP (prop c "flexShrink")) JS.one.

Definition total (weight : child -> JS.num) (children : list child) : JS.num :=
  fold_left (fun s c => JS.add s (weight c)) children JS.zero.

Definition grown (remainingSpace totalGrow : JS.num) (sz : JS.num) (c : child) : JS.num :=
  JS.add sz (JS.div (JS.mul remainingSpace (growWeight c)) totalGrow).

Definition shrunk (remainingSpace totalShrink : JS.num) (sz : JS.num) (c : child) : JS.num :=
  JS.max JS.zero
    (JS.sub sz (JS.div (JS.mul (JS.abs remainingSpace) (shrinkWeight c)) totalShrink)).

(** The space left once the gaps and the base sizes are taken. *)
Definition remainingSpace (children : list child) (availableSpace : JS.num)
    (mainAxis : axis) (gap : JS.num) : JS.num :=
  let totalGap := JS.mul gap (JS.sub (JS.ofNat (List.length children)) JS.one) in
  JS.sub (JS.sub availableSpace totalGap)
         (sum (map (baseSize availableSpace mainAxis) children)).

(** [FlexNode.calculateFlexSizes]. *)
Definition calculateFlexSizes (children : list child) (availableSpace : JS.num)
    (mainAxis : axis) (gap : JS.num) : list JS.num :=
  let baseSizes := map (baseSize availableSpace mainAxis) children in
  let remaining := remainingSpace children availableSpace mainAxis gap in
  if JS.gt remaining JS.zero then
    let totalGrow := total growWeight children in
    if JS.gt totalGrow JS.zero
    then zip_with (grown remaining totalGrow) baseSizes children
    else baseSizes
  else if JS.lt remaining JS.zero then
    let totalShrink := total shrinkWeight children in
    if JS.gt totalShrink JS.zero
    then zip_with (shrunk remaining totalShrink) baseSizes children
    else baseSizes
  else baseSizes.

(** [FlexNode.calculateMainAxisPositions]. *)
Section Positions.

Variable justifyContent : string.
Variables availableSpace gap : JS.num.
Variable sizes : list JS.num.

Definition count : JS.num := JS.ofNat (List.length sizes).

Definition freeSpace : JS.num :=
  JS.sub (JS.sub availableSpace (sum sizes)) (JS.mul gap (JS.sub count JS.one)).

Definition startPos : JS.num :=
  if String.eqb justifyContent "flex-start" then JS.zero
  else if String.eqb justifyContent "flex-end" then freeSpace
  else if String.eqb justifyContent "center" then JS.div freeSpace (JS.Fin 2)
  else if String.eqb justifyContent "space-between" then JS.zero
  else if String.eqb justifyContent "space-around"
       then JS.div freeSpace (JS.mul count (JS.Fin 2))
  else if String.eqb justifyContent "space-evenly"
       then JS.div freeSpace (JS.add count JS.one)
  else JS.zero.

(** What is added after an item that is not the last. *)
Definition spacing : JS.num :=
  if String.eqb justifyContent "space-between" && JS.gt count JS.one
  then JS.add gap (JS.div freeSpace (JS.sub count JS.one))
  else if String.eqb justifyContent "space-around"
       then JS.add gap (JS.div freeSpace count)
  else if String.eqb justifyContent "space-evenly"
       then JS.add gap (JS.div freeSpace (JS.add count JS.one))
  else gap.

(** The body of [sizes.forEach]; [i] is the index of the head of [rest]. *)
Fixpoint place (rest : list JS.num) (i : nat) (currentPos : JS.num) : list JS.num :=
  match rest with
  | [] => []
  | sz :: rest' =>
      let after := JS.add currentPos sz in
      currentPos ::
        place rest' (S i)
          (if JS.lt (JS.ofNat i) (JS.sub count JS.one)
           then JS.add after spacing else after)
  end.

Definition calculateMainAxisPositions : list JS.num := place sizes 0 startPos.

End Positions.

(** The main-axis start given to child [i] by [layout]:
    [contentBox.x + positions[i]] in a row. *)
Definition childMainStart (contentStart : JS.num) (positions : list JS.num)
    (i : nat) : option JS.num :=
  JS.add contentStart <$> positions !! i.

(** [GridNode.resolveGridTracks].  A track is first classified. *)
Inductive track : Type :=
  | FrTrack (value : JS.num)
  | SizedTrack (sz : JS.num).

Section Grid.

(** [this.calculateAutoTrackSize(i, axis)] for the axis being resolved: the
    largest intrinsic size among the children placed in track [i], or 50. *)
Variable calculateAutoTrackSize : nat -> JS.num.
Variables availableSpace gap : JS.num.

Definition is_fr (t : JS.prim) : bool :=
  match t with
  | JS.PStr s => JS.endsWith s "fr"
  | _ => false
  end.

(** [track === 'auto']. *)
Definition is_auto (t : JS.prim) : bool :=
  match t with
  | JS.PStr s => String.eqb s "auto"
  | _ => false
  end.

Definition classify (i : nat) (t : JS.prim) : track :=
  if is_fr t then FrTrack (JS.parseFloatP t)
  else if is_auto t then SizedTrack (calculateAutoTrackSize i)
  else SizedTrack (parseSize t availableSpace).

Definition usedSpace (kinds : list track) : JS.num :=
  fold_left (fun u k => match k with
                        | SizedTrack s => JS.add u s
                        | FrTrack _ => u
                        end) kinds JS.zero.

Definition totalFr (kinds : list track) : JS.num :=
  fold_left (fun s k => match k with
                        | FrTrack v => JS.add s v
                        | SizedTrack _ => s
                        end) kinds JS.zero.

Definition resolveGridTracks (tracks : list JS.prim) : list JS.num :=
  let kinds := imap classify tracks in
  let totalGap := JS.mul gap (JS.sub (JS.ofNat (List.length tracks)) JS.one) in
  let remaining := JS.sub (JS.sub availableSpace (usedSpace kinds)) totalGap in
  if JS.gt (totalFr kinds) JS.zero && JS.gt remaining JS.zero then
    let frUnit := JS.div remaining (totalFr kinds) in
    map (fun k => match k with
                  | FrTrack v => JS.mul frUnit v
                  | SizedTrack s => s
                  end) kinds
  else
    map (fun k => match k with
                  | FrTrack _ => JS.zero
                  | SizedTrack s => s
                  end) kinds.

End Grid.

(** Sum of a list of rationals. *)
Fixpoint Qsum (l : list Q) : Q :=
  match l with
  | [] => 0
  | x :: rest => x + Qsum rest
  end%Q.

(** A child of intrinsic width [w] whose only property is [flexGrow]. *)
Definition with_grow (g : Z) (w : Q) : child :=
  {| props := {["flexGrow" := JS.PNum (JS.ofZ g)]};
     intrinsicSize := {| width := JS.Fin w; height := JS.Fin 20 |} |}.

(** A child of intrinsic width [w] whose only property is [flexShrink]. *)
Definition with_shrink (s : Z) (w : Q) : child :=
  {| props := {["flexShrink" := JS.PNum (JS.ofZ s)]};
     intrinsicSize := {| width := JS.Fin w; height := JS.Fin 20 |} |}.

(** A child of intrinsic width [w] whose only property is [flexBasis]. *)
Definition with_basis (b : JS.prim) (w : Q) : child :=
  {| props := {["flexBasis" := b]};
     intrinsicSize := {| width := JS.Fin w; height := JS.Fin 20 |} |}.

(** The positions of [ss] under [space-between], and the free space of
    the line over the rationals. *)
Definition spaceBetween (a g : Q) (ss : list Q) : list JS.num :=
  calculateMainAxisPositions "space-between" (JS.Fin a) (JS.Fin g) (map JS.Fin ss).

(** The number of items as a rational. *)
Definition Qlen {A : Type} (l : list A) : Q := inject_Z (Z.of_nat (List.length l)).

(** Sizes that, with the gaps between them, take up exactly [a]. *)
Definition fills (a g : Q) (sizes : list JS.num) : Prop :=
  exists qs, sizes = map JS.Fin qs
             /\ (Qsum qs + g * (Qlen sizes - 1) == a)%Q.

(** A track given in [fr] units with the finite weight [w]. *)
Definition fr_track (t : JS.prim) (w : Q) : Prop :=
  is_fr t = true /\ JS.parseFloatP t = JS.Fin w.

Definition Qfree (a g : Q) (ss : list Q) : Q :=
  (a - Qsum ss - g * (Qlen ss - 1))%Q.

(** The remaining space of a flex line over the rationals. *)
Definition Qremaining (n : Q) (a g : Q) (bs : list Q) : Q :=
  (a - g * (n - 1) - Qsum bs)%Q.

End Layout.

(** ** The capturer of [CanvasEngine.jsx] *)

Module CanvasEngine.

(** The node object of this capturer: no tag name and no link. *)
Record nodeData := {
  type : Snapshot.nodeType;
  x : JS.num; y : JS.num; width : JS.num; height : JS.num;
  styles : gmap string Style.jsval;
  zIndex : JS.num;
  clip : option Snapshot.clipRegion;
  text : option string;
  src : option string }.

Definition with_styles (nd : nodeData) (s : gmap string Style.jsval) : nodeData :=
  {| type := type nd; x := x nd; y := y nd; width := width nd; height := height nd;
     styles := s; zIndex := zIndex nd; clip := clip nd; text := text nd;
     src := src nd |}.

Definition with_text (nd : nodeData) (t : option string) : nodeData :=
  {| type := type nd; x := x nd; y := y nd; width := width nd; height := height nd;
     styles := styles nd; zIndex := zIndex nd; clip := clip nd; text := t;
     src := src nd |}.

Definition with_src (nd : nodeData) (s : option string) : nodeData :=
  {| type := type nd; x := x nd; y := y nd; width := width nd; height := height nd;
     styles := styles nd; zIndex := zIndex nd; clip := clip nd; text := text nd;
     src := s |}.

(** Position and size: relative to the root rectangle, not rounded. *)
Definition placed (rootRect : Dom.rect) (e : Dom.element)
  : JS.num * JS.num * JS.num * JS.num :=
  match e with
  | Dom.Element _ _ _ bounds _ _ =>
      (JS.sub (Dom.left bounds) (Dom.left rootRect),
       JS.sub (Dom.top bounds) (Dom.top rootRect),
       Dom.width bounds, Dom.height bounds)
  end.

(** The node's own region; the radius is read as a length. *)
Definition myClip (computed : gmap string string) (x y w h : JS.num)
  : Snapshot.clipRegion :=
  {| Snapshot.clip_x := x; Snapshot.clip_y := y;
     Snapshot.clip_width := w; Snapshot.clip_height := h;
     Snapshot.clip_radius :=
       JS.or_else (Style.parseFloatO (computed !! "borderRadius")) JS.zero |}.

(** [currentClip] of this [captureNode]; the intersection is written as in
    [WebEngine.jsx]. *)
Definition currentClip (computed : gmap string string) (x y w h : JS.num)
    (parentClip : option Snapshot.clipRegion) : option Snapshot.clipRegion :=
  if Snapshot.clips_overflow computed then
    let myClip := myClip computed x y w h in
    match parentClip with
    | Some pc => Some (Snapshot.intersect pc myClip)
    | None => Some myClip
    end
  else parentClip.

Definition handed_down (rootRect : Dom.rect) (e : Dom.element)
    (pc : option Snapshot.clipRegion) : option Snapshot.clipRegion :=
  match e with
  | Dom.Element _ _ _ _ computed _ =>
      let '(x, y, w, h) := placed rootRect e in
      currentClip computed x y w h pc
  end.

Definition leafTags : list string :=
  ["BR"; "WBR"; "SPAN"; "STRONG"; "EM"; "B"; "I"].

Definition getNodeType (e : Dom.element) (computed : gmap string string)
  : Snapshot.nodeType :=
  if String.eqb (Dom.tag_of e) "IMG" then Snapshot.image_t
  else if Snapshot.hasVisibleBoxStyle computed then Snapshot.box_t
  else
    let textContent := JS.trim (Dom.textContent e) in
    let isTextElement := Dom.mem (Dom.tag_of e) Snapshot.textTags in
    let hasLeafText :=
      forallb (fun c => Dom.mem (Dom.tag_of c) leafTags) (Dom.children e) in
    if isTextElement && negb (String.eqb textContent "") && hasLeafText
    then Snapshot.text_t
    else Snapshot.box_t.

Definition rawKeys : list string :=
  ["backgroundColor"; "backgroundImage"; "borderTopWidth"; "borderTopColor";
   "borderTopStyle"; "borderRadius"; "color"; "fontSize"; "fontFamily";
   "fontWeight"; "fontStyle"; "textAlign"; "paddingTop"; "paddingRight";
   "paddingBottom"; "paddingLeft"; "boxShadow"; "transform"; "lineHeight";
   "opacity"; "letterSpacing"; "whiteSpace"; "wordBreak"].

Definition extractRawStyles (computed : gmap string string) : gmap string string :=
  filter (fun kv => Dom.mem (fst kv) rawKeys = true) computed.

(** Whether gradients go to the gradient worker,
    [this.gradientWorker && this.options.useWorkers], and the URL the
    document makes of a [src] attribute. *)
Record config := {
  gradient_offloaded : bool;
  resolveURL : string -> string }.

(** Capture state: node objects by address, [this.nodes], the set of
    processed elements, [this.pendingStyles] and the gradient tasks. *)
Record state := {
  heap : list nodeData;
  nodes : list nat;
  processedNodes : gset nat;
  pendingStyles : list (nat * gmap string string);
  gradientPromises : list (nat * option string) }.

Definition initial : state :=
  {| heap := []; nodes := []; processedNodes := ∅; pendingStyles := [];
     gradientPromises := [] |}.

Definition newNodeData (rootRect : Dom.rect) (e : Dom.element)
    (parentClip : option Snapshot.clipRegion) : nodeData :=
  match e with
  | Dom.Element _ _ _ _ computed _ =>
      let '(x, y, width, height) := placed rootRect e in
      {| type := getNodeType e computed;
         x := x; y := y; width := width; height := height;
         styles := ∅;
         zIndex := JS.or_else (Style.parseIntO (computed !! "zIndex")) JS.zero;
         clip := parentClip;
         text := None; src := None |}
  end.

Definition withContent (resolve : string -> string) (attrs : gmap string string)
    (kids : list Dom.node) (nd : nodeData) : nodeData :=
  let nd2 := match type nd with
             | Snapshot.image_t =>
                 with_src nd (Some (Dom.reflected_src resolve attrs))
             | _ => nd
             end in
  match type nd, Snapshot.directTexts kids with
  | Snapshot.box_t, (_ :: _) as ts =>
      with_text nd2 (Some (JS.trim (Snapshot.join_space ts)))
  | _, _ => nd2
  end.

(** The node object is written at the next free address together with its
    pending style entry and, when offloaded, its gradient task. *)
Definition store (cfg : config) (computed : gmap string string)
    (nd : nodeData) (st : state) : state :=
  let addr := List.length (heap st) in
  {| heap := heap st ++ [nd]; nodes := nodes st;
     processedNodes := processedNodes st;
     pendingStyles := pendingStyles st ++ [(addr, extractRawStyles computed)];
     gradientPromises :=
       if Snapshot.has_backgroundImage computed && gradient_offloaded cfg
       then gradientPromises st ++ [(addr, computed !! "backgroundImage")]
       else gradientPromises st |}.

Definition record (st : state) (addr : nat) (ids : list nat) : state :=
  {| heap := heap st; nodes := nodes st ++ [addr];
     processedNodes := list_to_set ids ∪ processedNodes st;
     pendingStyles := pendingStyles st;
     gradientPromises := gradientPromises st |}.

Section Traversal.

Variable cfg : config.
Variable rootRect : Dom.rect.

(** [this.parseGradient] of this file, which splits the background into
    layers before matching; it yields a gradient object or [null], and only
    the [gradient] style depends on it. *)
Variable parseGradient : string -> Style.jsval.

(** The styles set at once: the three cheap ones and, when gradients are
    not offloaded, what [parseGradient] yields. *)
Definition immediateStyles (computed : gmap string string)
  : gmap string Style.jsval :=
  let s := Snapshot.cheapStyles computed in
  if Snapshot.has_backgroundImage computed && negb (gradient_offloaded cfg) then
    <["gradient" := parseGradient (default "" (computed !! "backgroundImage"))]> s
  else s.

(** [captureNode(element, parentClip)]. *)
Fixpoint captureNode (e : Dom.element) (parentClip : option Snapshot.clipRegion)
    (st : state) {struct e} : state :=
  match e with
  | Dom.Element uid tag attrs bounds computed kids =>
    if bool_decide (uid ∈ processedNodes st) then st else
    if Snapshot.hidden computed then st else
    let addr := List.length (heap st) in
    let nd1 := with_styles (newNodeData rootRect e parentClip)
                           (immediateStyles computed) in
    match getNodeType e computed with
    | Snapshot.text_t =>
        let t := JS.trim (Dom.textContent e) in
        if String.eqb t ""
        then store cfg computed (with_text nd1 (Some t)) st
        else record (store cfg computed (with_text nd1 (Some t)) st) addr
                    (Dom.subtree_uids e)
    | _ =>
        Dom.for_children
          (fun child s => captureNode child (handed_down rootRect e parentClip) s)
          kids
          (record (store cfg computed
                         (withContent (resolveURL cfg) attrs kids nd1) st)
                  addr [uid])
    end
  end.

End Traversal.

(** The node objects [captureNode] has pushed to [this.nodes]. *)
Definition recorded (cfg : config) (parseGradient : string -> Style.jsval)
    (root : Dom.element) : list nodeData :=
  let st := captureNode cfg (Dom.bounds_of root) parseGradient root None initial in
  omap (fun a => heap st !! a) (nodes st).

(** As for [WebEngine.jsx]: the clip an element inherits in the tree. *)
Inductive inherits (rootRect : Dom.rect) (root : Dom.element)
  : Dom.element -> option Snapshot.clipRegion -> Prop :=
  | inherits_root : inherits rootRect root root None
  | inherits_child parent pc child :
      inherits rootRect root parent pc ->
      In (Dom.ElementNode child) (Dom.childNodes_of parent) ->
      inherits rootRect root child (handed_down rootRect parent pc).

Definition recorded_for (rootRect : Dom.rect) (e : Dom.element) (nd : nodeData) : Prop :=
  (x nd, y nd, width nd, height nd) = placed rootRect e.

Definition clip_inherited (rootRect : Dom.rect) (root : Dom.element)
    (nd : nodeData) : Prop :=
  exists e pc,
    inherits rootRect root e pc /\ recorded_for rootRect e nd /\ clip nd = pc.

Definition wf (rootRect : Dom.rect) (root : Dom.element) (st : state) : Prop :=
  Forall (clip_inherited rootRect root) (heap st).

End CanvasEngine.

(** ** The sample tree under [CanvasEngine.jsx] *)

Module CanvasSample.

(** Gradients go to the gradient worker, so the local parser is not
    called. *)
Definition offloaded : CanvasEngine.config :=
  {| CanvasEngine.gradient_offloaded := true;
     CanvasEngine.resolveURL := fun v => "https://example.org/" +:+ v |}.

Definition unused : string -> Style.jsval := fun _ => Style.VNull.

Definition nodes : list CanvasEngine.nodeData :=
  CanvasEngine.recorded offloaded unused Sample.root.

(** The node recorded for [Sample.inner]. *)
Definition second : CanvasEngine.nodeData :=
  nth 1 nodes (CanvasEngine.newNodeData (Dom.bounds_of Sample.root) Sample.root None).

End CanvasSample.

(** ** The clip an element inherits, told without the capturers

    The self-clip rule in its own words: the root inherits no clip; below
    an element that does not clip, a child inherits what the element
    inherited; below a clipping element that inherited nothing, a child
    inherits the element's box; below a clipping element that inherited a
    clip, a child inherits what is left of that clip inside the element's
    box.  The overflow of an element never enters the clip the element
    itself inherits. *)

Module SelfClip.

Definition overflow_of (e : Dom.element) : option string :=
  match e with Dom.Element _ _ _ _ computed _ => computed !! "overflow" end.

(** The element clips what lies inside it. *)
Definition clipping (e : Dom.element) : Prop :=
  overflow_of e = Some "hidden" \/ overflow_of e = Some "auto".

Definition rectangle (c : Snapshot.clipRegion) : JS.num * JS.num * JS.num * JS.num :=
  (Snapshot.clip_x c, Snapshot.clip_y c, Snapshot.clip_width c,
   Snapshot.clip_height c).

(** [c] is what is left of the clip [p] inside a box, both with finite
    sides: where the two overlap on both axes, [c] lets through the points
    that [p] lets through and that lie in the box; where they do not, [c]
    is the zero region. *)
Definition cut (p : Snapshot.clipRegion) (box : JS.num * JS.num * JS.num * JS.num)
    (c : Snapshot.clipRegion) : Prop :=
  forall px py pw ph x y w h : Q,
    rectangle p = (JS.Fin px, JS.Fin py, JS.Fin pw, JS.Fin ph) ->
    box = (JS.Fin x, JS.Fin y, JS.Fin w, JS.Fin h) ->
    ((0 < Snapshot.overlap px pw x w)%Q /\ (0 < Snapshot.overlap py ph y h)%Q ->
     forall a b,
       Snapshot.covers c a b
       <-> Snapshot.covers p a b
           /\ ((x <= a)%Q /\ (a < x + w)%Q) /\ ((y <= b)%Q /\ (b < y + h)%Q))
    /\ ((Snapshot.overlap px pw x w <= 0)%Q \/ (Snapshot.overlap py ph y h <= 0)%Q ->
        c = Snapshot.zeroClip).

Section Inherited.

(** The box recorded for an element: its position and its size. *)
Variable box : Dom.element -> JS.num * JS.num * JS.num * JS.num.
Variable root : Dom.element.

Inductive inherited : Dom.element -> option Snapshot.clipRegion -> Prop :=
  | inherited_root : inherited root None
  | inherited_through parent pc child :
      inherited parent pc ->
      In (Dom.ElementNode child) (Dom.childNodes_of parent) ->
      ~ clipping parent ->
      inherited child pc
  | inherited_box parent child c :
      inherited parent None ->
      In (Dom.ElementNode child) (Dom.childNodes_of parent) ->
      clipping parent ->
      rectangle c = box parent ->
      inherited child (Some c)
  | inherited_cut parent p child c :
      inherited parent (Some p) ->
      In (Dom.ElementNode child) (Dom.childNodes_of parent) ->
      clipping parent ->
      cut p (box parent) c ->
      inherited child (Some c).

End Inherited.

End SelfClip.

(** ** Integer arithmetic of JavaScript numbers *)

Module JSMath.

(** [Math.floor]. *)
Definition floor (a : JS.num) : JS.num :=
  match a with
  | JS.Fin q => JS.Fin (inject_Z (Qfloor q))
  | other => other
  end.

(** The integer part of a rational, towards zero. *)
Definition trunc (q : Q) : Z :=
  if Qle_bool 0 q then Qfloor q else Qceiling q.

(** [a % b]: the remainder has the sign of the dividend. *)
Definition rem (a b : JS.num) : JS.num :=
  match a, b with
  | JS.Fin x, JS.Fin y =>
      if Qeq_bool y 0 then JS.NaN
      else JS.Fin (x - y * inject_Z (trunc (x / y)))
  | JS.Fin x, JS.PInf | JS.Fin x, JS.NInf => JS.Fin x
  | _, _ => JS.NaN
  end.

(** [ToInt32] of a number: [NaN] and the infinities give zero. *)
Definition toInt32 (a : JS.num) : Z :=
  match a with
  | JS.Fin q => StyleWorker.to_int32 (trunc q)
  | _ => 0
  end.

End JSMath.

(** ** Grid placement ([GridNode] of [WebEngine.jsx] and [CanvasEngine.jsx]) *)

Module Grid.

(** [parseInt(s)] as a number. *)
Definition parseInt (s : string) : JS.num := StyleWorker.num_of (JS.parseInt s).

(** A grid item as [GridNode] reads it.  The placement properties are
    strings, as everywhere in the repository; [intrinsicSize] is [null]
    until the item is measured. *)
Record item := {
  gridArea : option string;
  gridColumn : option string;
  gridRow : option string;
  intrinsicSize : option Layout.size }.

Record placement := {
  colStart : JS.num; colEnd : JS.num; rowStart : JS.num; rowEnd : JS.num }.

(** [String(v).split('/').map(s => s.trim())]. *)
Definition parts_of (v : string) : list string := map JS.trim (JS.split_on "/" v).

Definition parseGridArea (area : string) : placement :=
  match parts_of area with
  | [p0; p1; p2; p3] =>
      {| rowStart := JS.sub (parseInt p0) JS.one;
         colStart := JS.sub (parseInt p1) JS.one;
         rowEnd := parseInt p2;
         colEnd := parseInt p3 |}
  | [p0; p1] =>
      {| rowStart := JS.sub (parseInt p0) JS.one;
         colStart := JS.sub (parseInt p1) JS.one;
         rowEnd := parseInt p0;
         colEnd := parseInt p1 |}
  | _ => {| colStart := JS.Fin 0; colEnd := JS.Fin 1;
            rowStart := JS.Fin 0; rowEnd := JS.Fin 1 |}
  end.

Definition parseGridLine (value : option string) (isStart : bool) : JS.num :=
  let fallback := if isStart then JS.Fin 1 else JS.Fin 2 in
  match value with
  | Some v =>
      if String.eqb v "" then fallback
      else
        let parts := parts_of v in
        let p0 := hd EmptyString parts in
        let chosen :=
          if isStart then p0
          else match parts !! 1%nat with
               | Some p1 => if String.eqb p1 "" then p0 else p1
               | None => p0
               end in
        JS.or_else (parseInt chosen) fallback
  | None => fallback
  end.

Definition getGridPlacement (child : item) (index colCount : nat) : placement :=
  if Style.prop_truthy (gridArea child) then
    parseGridArea (default EmptyString (gridArea child))
  else if Style.prop_truthy (gridColumn child) || Style.prop_truthy (gridRow child) then
    {| colStart := JS.sub (parseGridLine (gridColumn child) true) JS.one;
       colEnd := parseGridLine (gridColumn child) false;
       rowStart := JS.sub (parseGridLine (gridRow child) true) JS.one;
       rowEnd := parseGridLine (gridRow child) false |}
  else
    let row := JSMath.floor (JS.div (JS.ofNat index) (JS.ofNat colCount)) in
    let col := JSMath.rem (JS.ofNat index) (JS.ofNat colCount) in
    {| colStart := col; colEnd := JS.add col JS.one;
       rowStart := row; rowEnd := JS.add row JS.one |}.

(** The body of [sizes.forEach] in [calculateGridLinePositions]; [i] is the
    index of the head of [rest] and [n] is [sizes.length]. *)
Fixpoint lines_from (gap : JS.num) (n : nat) (rest : list JS.num) (i : nat)
    (current : JS.num) : list JS.num :=
  match rest with
  | [] => []
  | sz :: rest' =>
      let current := JS.add current sz in
      current ::
        lines_from gap n rest' (S i)
          (if JS.lt (JS.ofNat i) (JS.sub (JS.ofNat n) JS.one)
           then JS.add current gap else current)
  end.

Definition calculateGridLinePositions (sizes : list JS.num) (gap : JS.num)
  : list JS.num :=
  JS.Fin 0 :: lines_from gap (List.length sizes) sizes 0 (JS.Fin 0).

(** [this.calculateAutoTrackSize(trackIndex, axis)]: the largest intrinsic
    size among the measured children placed in the track, [50] when that is
    zero. *)
Definition inTrack (axis : Layout.axis) (p : placement) (trackIndex : nat) : bool :=
  match axis with
  | Layout.Width => JS.eqb (colStart p) (JS.ofNat trackIndex)
  | Layout.Height => JS.eqb (rowStart p) (JS.ofNat trackIndex)
  end.

Fixpoint maxSize_from (axis : Layout.axis) (colCount trackIndex : nat)
    (rest : list item) (i : nat) (maxSize : JS.num) : JS.num :=
  match rest with
  | [] => maxSize
  | child :: rest' =>
      let p := getGridPlacement child i colCount in
      maxSize_from axis colCount trackIndex rest' (S i)
        (match intrinsicSize child with
         | Some sz =>
             if inTrack axis p trackIndex
             then JS.max maxSize (Layout.along axis sz) else maxSize
         | None => maxSize
         end)
  end.

Definition calculateAutoTrackSize (children : list item) (colCount : nat)
    (trackIndex : nat) (axis : Layout.axis) : JS.num :=
  JS.or_else (maxSize_from axis colCount trackIndex children 0 JS.zero) (JS.Fin 50).

(** [positions[k]] for a number [k]: [undefined], which arithmetic turns
    into [NaN], unless [k] is the index of an entry. *)
Definition at_index (positions : list JS.num) (k : JS.num) : JS.num :=
  match k with
  | JS.Fin q =>
      if Qeq_bool q (inject_Z (Qfloor q)) && (0 <=? Qfloor q)
      then default JS.NaN (positions !! Z.to_nat (Qfloor q))
      else JS.NaN
  | _ => JS.NaN
  end.

(** The bounds [layout] hands to a child with the placement [p]. *)
Definition childBounds (contentX contentY : JS.num)
    (colPositions rowPositions : list JS.num) (p : placement) : Dom.rect :=
  {| Dom.left := JS.add contentX (at_index colPositions (colStart p));
     Dom.top := JS.add contentY (at_index rowPositions (rowStart p));
     Dom.width := JS.sub (at_index colPositions (colEnd p))
                         (at_index colPositions (colStart p));
     Dom.height := JS.sub (at_index rowPositions (rowEnd p))
                          (at_index rowPositions (rowStart p)) |}.

(** An item placed by its position among the children only. *)
Definition auto_item (sz : option Layout.size) : item :=
  {| gridArea := None; gridColumn := None; gridRow := None; intrinsicSize := sz |}.

End Grid.

(** ** Grid tracks with finite sizes and weights *)

Module GridTracks.

(** What [resolveGridTracks] makes of a track: a weight in [fr] units, or
    a size (a length, a percentage of the available space, or the size
    [calculateAutoTrackSize] finds for an [auto] track). *)
Inductive kind : Type :=
  | Fr (weight : Q)
  | Sized (sz : Q).

Definition track_of (k : kind) : Layout.track :=
  match k with
  | Fr w => Layout.FrTrack (JS.Fin w)
  | Sized s => Layout.SizedTrack (JS.Fin s)
  end.

(** [usedSpace] and [totalFr] over the rationals. *)
Fixpoint sizedSum (ks : list kind) : Q :=
  match ks with
  | [] => 0
  | Sized s :: rest => s + sizedSum rest
  | Fr _ :: rest => sizedSum rest
  end%Q.

Fixpoint frSum (ks : list kind) : Q :=
  match ks with
  | [] => 0
  | Fr w :: rest => w + frSum rest
  | Sized _ :: rest => frSum rest
  end%Q.

(** The space the [fr] tracks share. *)
Definition Qshared (a g : Q) (ks : list kind) : Q :=
  (a - sizedSum ks - g * (Layout.Qlen ks - 1))%Q.

End GridTracks.

(** ** Colours of the Pixi renderer ([PixiRendererEngine.parseColor]) *)

Module Pixi.

Definition namedColors : list (string * Z) :=
  [("black", 0x000000); ("white", 0xffffff); ("red", 0xff0000);
   ("lime", 0x00ff00); ("blue", 0x0000ff); ("yellow", 0xffff00);
   ("cyan", 0x00ffff); ("magenta", 0xff00ff); ("silver", 0xc0c0c0);
   ("gray", 0x808080); ("grey", 0x808080); ("maroon", 0x800000);
   ("olive", 0x808000); ("green", 0x008000); ("purple", 0x800080);
   ("teal", 0x008080); ("navy", 0x000080); ("orange", 0xffa500);
   ("pink", 0xffc0cb); ("gold", 0xffd700); ("brown", 0xa52a2a);
   ("salmon", 0xfa8072); ("skyblue", 0x87ceeb); ("violet", 0xee82ee);
   ("tomato", 0xff6347); ("indigo", 0x4b0082); ("slateblue", 0x6a5acd);
   ("royalblue", 0x4169e1); ("dodgerblue", 0x1e90ff);
   ("lightblue", 0xadd8e6); ("darkblue", 0x00008b);
   ("forestgreen", 0x228b22); ("darkgreen", 0x006400);
   ("seagreen", 0x2e8b57); ("lightgreen", 0x90ee90); ("palegreen", 0x98fb98);
   ("darkorange", 0xff8c00); ("coral", 0xff7f50); ("hotpink", 0xff69b4);
   ("deeppink", 0xff1493); ("fuchsia", 0xff00ff); ("darkgrey", 0xa9a9a9);
   ("darkgray", 0xa9a9a9); ("lightgrey", 0xd3d3d3); ("lightgray", 0xd3d3d3);
   ("gainsboro", 0xdcdcdc); ("whitesmoke", 0xf5f5f5);
   ("aliceblue", 0xf0f8ff); ("azure", 0xf0ffff); ("beige", 0xf5f5dc);
   ("bisque", 0xffe4c4); ("blanchedalmond", 0xffebcd);
   ("cornsilk", 0xfff8dc); ("ivory", 0xfffff0); ("lavender", 0xe6e6fa);
   ("linen", 0xfaf0e6); ("mintcream", 0xf5fffa); ("mistyrose", 0xffe4e1);
   ("oldlace", 0xfdf5e6); ("seashell", 0xfff5ee); ("snow", 0xfffafa);
   ("floralwhite", 0xfffaf0); ("ghostwhite", 0xf8f8ff)].

Definition white (a : JS.num) : StyleWorker.colorData :=
  {| StyleWorker.hex := JS.ofZ 0xffffff; StyleWorker.alpha := a |}.

(** [(r << 16) | (g << 8) | b] on numbers. *)
Definition pack (r g b : JS.num) : JS.num :=
  JS.ofZ (StyleWorker.or32
            (StyleWorker.or32 (StyleWorker.shl32 (JSMath.toInt32 r) 16)
                              (StyleWorker.shl32 (JSMath.toInt32 g) 8))
            (JSMath.toInt32 b)).

(** The fourth number of the match, or one. *)
Definition alpha_of (runs : list string) : JS.num :=
  match runs !! 3%nat with
  | Some v => JS.parseFloat v
  | None => JS.one
  end.

(** The constants [1 / 3], [2 / 3] and [1 / 6] as binary64 numbers. *)
Definition third : JS.num := JS.div64 JS.one (JS.Fin 3).
Definition two_thirds : JS.num := JS.div64 (JS.Fin 2) (JS.Fin 3).
Definition sixth : JS.num := JS.div64 JS.one (JS.Fin 6).

(** [hue2rgb] of the HSL conversion; every operation rounds. *)
Definition hue2rgb (p q t : JS.num) : JS.num :=
  let t := if JS.lt t JS.zero then JS.add64 t JS.one else t in
  let t := if JS.gt t JS.one then JS.sub64 t JS.one else t in
  if JS.lt t sixth then
    JS.add64 p (JS.mul64 (JS.mul64 (JS.sub64 q p) (JS.Fin 6)) t)
  else if JS.lt t (JS.Fin (1 / 2)) then q
  else if JS.lt t two_thirds then
    JS.add64 p (JS.mul64 (JS.mul64 (JS.sub64 q p) (JS.sub64 two_thirds t)) (JS.Fin 6))
  else p.

Definition fromHsl (runs : list string) : StyleWorker.colorData :=
  let nth_float (k : nat) := Style.parseFloatO (runs !! k) in
  let h := JS.div64 (nth_float 0%nat) (JS.Fin 360) in
  let s := JS.div64 (nth_float 1%nat) (JS.Fin 100) in
  let l := JS.div64 (nth_float 2%nat) (JS.Fin 100) in
  let '(r, g, b) :=
    if JS.eqb s JS.zero then (l, l, l)
    else
      let q := if JS.lt l (JS.Fin (1 / 2))
               then JS.mul64 l (JS.add64 JS.one s)
               else JS.sub64 (JS.add64 l s) (JS.mul64 l s) in
      let p := JS.sub64 (JS.mul64 (JS.Fin 2) l) q in
      (hue2rgb p q (JS.add64 h third),
       hue2rgb p q h,
       hue2rgb p q (JS.sub64 h third)) in
  {| StyleWorker.hex :=
       pack (JS.round (JS.mul64 r (JS.Fin 255))) (JS.round (JS.mul64 g (JS.Fin 255)))
            (JS.round (JS.mul64 b (JS.Fin 255)));
     StyleWorker.alpha := alpha_of runs |}.

Definition channel (runs : list string) (k : nat) : JS.num :=
  JS.min (JS.Fin 255) (Style.parseIntO (runs !! k)).

Definition fromRgb (runs : list string) : StyleWorker.colorData :=
  {| StyleWorker.hex := pack (channel runs 0) (channel runs 1) (channel runs 2);
     StyleWorker.alpha := alpha_of runs |}.

(** The tail of [parseColor]: the first word looked up among the named
    colours, white otherwise.  Members inherited from [Object.prototype]
    are not modelled. *)
Definition fromName (cssColor : string) : StyleWorker.colorData :=
  match StyleWorker.lookup_named
          (hd EmptyString (JS.split_on " " (JS.toLowerCase cssColor))) namedColors with
  | Some c => {| StyleWorker.hex := JS.ofZ c; StyleWorker.alpha := JS.one |}
  | None => white JS.one
  end.

(** What follows the hexadecimal branch, which falls through when the
    number of digits is not three, six or eight. *)
Definition afterHex (cssColor : string) : StyleWorker.colorData :=
  let runs := StyleWorker.number_runs cssColor (String.length cssColor) in
  if JS.startsWith cssColor "rgb" && (3 <=? List.length runs)%nat then fromRgb runs
  else if JS.startsWith cssColor "hsl" && (3 <=? List.length runs)%nat then fromHsl runs
  else fromName cssColor.

(** [parseColor(cssColor)]; [None] is a missing colour. *)
Definition parseColor (cssColor : option string) : StyleWorker.colorData :=
  match cssColor with
  | None => white JS.zero
  | Some raw =>
      if String.eqb raw "" then white JS.zero
      else
        let cssColor := JS.toLowerCase (JS.trim raw) in
        if String.eqb cssColor "transparent" then white JS.zero
        else if JS.startsWith cssColor "#" then
          let hex := JS.drop_str 1 cssColor in
          let hex := if (String.length hex =? 3)%nat
                     then StyleWorker.double_chars hex else hex in
          if (String.length hex =? 6)%nat then
            {| StyleWorker.hex := StyleWorker.num_of (StyleWorker.parseInt16 hex);
               StyleWorker.alpha := JS.one |}
          else if (String.length hex =? 8)%nat then
            {| StyleWorker.hex :=
                 StyleWorker.num_of (StyleWorker.parseInt16 (JS.substring 0 6 hex));
               StyleWorker.alpha :=
                 JS.div (StyleWorker.num_of
                           (StyleWorker.parseInt16 (JS.substring 6 8 hex)))
                        (JS.Fin 255) |}
          else afterHex cssColor
        else afterHex cssColor
  end.

(** The channel a run of digits and dots denotes: the integer [parseInt]
    reads from it, 255 at most; a run [parseInt] cannot read, or a missing
    run, denotes 0. *)
Definition denoted (runs : list string) (k : nat) : Z :=
  match runs !! k ≫= JS.parseInt with
  | Some z => Z.min 255 z
  | None => 0
  end.

(** A string of hexadecimal digits and its value. *)
Definition hex_digits (h : string) : Prop :=
  Forall (fun c => JS.is_hex_digit c = true) (list_ascii_of_string h).

Definition hex_value (h : string) : Z :=
  fold_left (fun acc d => 16 * acc + d) (map JS.hex_val (list_ascii_of_string h)) 0.

End Pixi.

(** ** Deciding on a new capture ([GeometrySnapshot.shouldReCapture]) *)

Module Restyle.

(** Style values as the comparison sees them.  An object carries the
    identity [ref] that [===] compares and its own enumerable properties,
    each key once, in the order of [Object.keys]; an array is an object
    whose keys are its indices.  Functions are not modelled. *)
Inductive value : Type :=
  | VUndef
  | VNull
  | VBool (b : bool)
  | VNum (n : JS.num)
  | VStr (s : string)
  | VObj (ref : nat) (fields : list (string * value)).

Definition ignoredProperties : list string :=
  ["x"; "y"; "left"; "top"; "transform"; "opacity"; "zIndex"; "position"].

Definition ignored (key : string) : bool := Dom.mem key ignoredProperties.

(** [a === b]. *)
Definition strict_eq (a b : value) : bool :=
  match a, b with
  | VUndef, VUndef | VNull, VNull => true
  | VBool x, VBool y => Bool.eqb x y
  | VNum x, VNum y => JS.eqb x y
  | VStr x, VStr y => String.eqb x y
  | VObj r _, VObj r' _ => (r =? r')%nat
  | _, _ => false
  end.

(** [o[key]]; a missing property reads as [undefined]. *)
Fixpoint get (key : string) (fields : list (string * value)) : value :=
  match fields with
  | [] => VUndef
  | (k, v) :: rest => if String.eqb k key then v else get key rest
  end.

(** [isDifferent(a, b)]. *)
Fixpoint isDifferent (a b : value) {struct a} : bool :=
  if strict_eq a b then false
  else
    match a, b with
    | VObj _ fa, VObj _ fb =>
        if negb (List.length fa =? List.length fb)%nat then true
        else
          (fix each (entries : list (string * value)) : bool :=
             match entries with
             | [] => false
             | (key, va) :: rest =>
                 if ignored key then each rest
                 else if isDifferent va (get key fb) then true
                 else each rest
             end) fa
    | _, _ => true
    end.

(** The literal that stands for a missing argument.  The two literals of a
    call are distinct objects; comparing two empty objects gives [false]
    whether they are identical or not, so one reference serves for both.
    The objects of the caller have other references. *)
Definition emptyStyle : value := VObj 0 [].

(** A parameter with the default [{}]: the default is taken when the
    argument is missing or [undefined]. *)
Definition or_empty (arg : option value) : value :=
  match arg with
  | None | Some VUndef => emptyStyle
  | Some v => v
  end.

Definition shouldReCapture (oldStyle newStyle : option value) : bool :=
  isDifferent (or_empty oldStyle) (or_empty newStyle).

(** [a] and [b] agree outside the ignored properties: equal primitives, or
    objects with as many properties whose properties of [a], the ignored
    ones apart, agree with those [b] has under the same key. *)
Inductive agree : value -> value -> Prop :=
  | agree_undef : agree VUndef VUndef
  | agree_null : agree VNull VNull
  | agree_bool b : agree (VBool b) (VBool b)
  | agree_num n : n <> JS.NaN -> agree (VNum n) (VNum n)
  | agree_str s : agree (VStr s) (VStr s)
  | agree_obj r r' fa fb :
      List.length fa = List.length fb ->
      Forall (fun entry => ignored (fst entry) = true
                           \/ agree (snd entry) (get (fst entry) fb)) fa ->
      agree (VObj r fa) (VObj r' fb).

End Restyle.

(** ** The worker pool ([engine/workerManager.js]) *)

Module WorkerManager.

Record workerInfo := { busy : bool; ready : bool }.

(** [workerInfo.ready && !workerInfo.busy]. *)
Definition available (w : workerInfo) : bool := ready w && negb (busy w).

(** The [do ... while] loop of [getNextWorker] and what follows it.  [cur]
    is [this.currentWorkerIndex]; the result is the index of the worker
    returned and the new [this.currentWorkerIndex].  Reading a property of
    a worker the pool does not have throws: [None].  The loop body runs at
    most once for each worker, which [fuel] counts. *)
Fixpoint scan (workers : list workerInfo) (startIndex : nat) (fuel : nat) (cur : nat)
  : option (nat * nat) :=
  match fuel with
  | O => None
  | S fuel' =>
      match workers !! cur with
      | None => None
      | Some w =>
          let next := ((cur + 1) mod List.length workers)%nat in
          if available w then Some (cur, next)
          else if (next =? startIndex)%nat
          then Some (next, ((next + 1) mod List.length workers)%nat)
          else scan workers startIndex fuel' next
      end
  end.

Definition getNextWorker (workers : list workerInfo) (currentWorkerIndex : nat)
  : option (nat * nat) :=
  scan workers currentWorkerIndex (List.length workers) currentWorkerIndex.

End WorkerManager.

(** ** What a snapshot node says about its element *)

Module Captured.

Definition computed_of (e : Dom.element) : gmap string string :=
  match e with Dom.Element _ _ _ _ c _ => c end.

Definition attrs_of (e : Dom.element) : gmap string string :=
  match e with Dom.Element _ _ a _ _ _ => a end.

(** The text a box takes from its direct text nodes. *)
Definition boxText (e : Dom.element) : option string :=
  match Snapshot.directTexts (Dom.childNodes_of e) with
  | [] => None
  | ts => Some (JS.trim (Snapshot.join_space ts))
  end.

(** [nd] was created for the displayed element [e]: it has the type
    [getNodeType] gives [e] and the content that goes with the type.
    [resolve] is the URL the document makes of a [src] attribute. *)
Definition describes (resolve : string -> string) (e : Dom.element)
    (nd : Snapshot.nodeData) : Prop :=
  Snapshot.hidden (computed_of e) = false
  /\ Snapshot.type nd = Snapshot.getNodeType e (computed_of e)
  /\ Snapshot.tagName nd = Dom.tag_of e
  /\ match Snapshot.type nd with
     | Snapshot.text_t =>
         Snapshot.text nd = Some (JS.trim (Dom.textContent e))
         /\ JS.trim (Dom.textContent e) <> ""
     | Snapshot.image_t =>
         Snapshot.src nd = Some (Dom.reflected_src resolve (attrs_of e))
         /\ Snapshot.text nd = None
     | Snapshot.box_t =>
         Snapshot.text nd = boxText e /\ Snapshot.src nd = None
     end.

(** [nd] describes an element of the tree under [root]. *)
Definition from_tree (resolve : string -> string) (rootRect : Dom.rect)
    (root : Dom.element) (nd : Snapshot.nodeData) : Prop :=
  exists e pc, Snapshot.inherits rootRect root e pc /\ describes resolve e nd.

(** The number of elements of the tree under an element, itself included. *)
Fixpoint size (e : Dom.element) : nat :=
  match e with
  | Dom.Element _ _ _ _ _ kids =>
      S ((fix go (l : list Dom.node) : nat :=
            match l with
            | [] => O
            | Dom.ElementNode e' :: r => (size e' + go r)%nat
            | _ :: r => go r
            end) kids)
  end.

(** The number of elements under a list of child nodes. *)
Definition sizes (l : list Dom.node) : nat :=
  (fix go (l : list Dom.node) : nat :=
     match l with
     | [] => O
     | Dom.ElementNode e' :: r => (size e' + go r)%nat
     | _ :: r => go r
     end) l.

End Captured.

(** ** Blocks ([BlockNode] of [WebEngine.jsx] and [CanvasEngine.jsx]) *)

Module Block.

(** A [padding] or [margin] property.  The sides of an object are numbers
    or missing, as where the repository builds one; a string or a boolean
    is [SidesOther]. *)
Inductive sidesProp : Type :=
  | SidesNum (n : JS.num)
  | SidesObj (top right bottom left : option JS.num)
  | SidesNull
  | SidesOther.

Record sides := { top : JS.num; right : JS.num; bottom : JS.num; left : JS.num }.

(** [side || 0] for a side of an object. *)
Definition side_or_zero (v : option JS.num) : JS.num :=
  match v with
  | Some n => JS.or_else n JS.zero
  | None => JS.zero
  end.

(** [parsePadding(padding)].  [typeof null] is ['object'], and reading a
    property of [null] throws: [None]. *)
Definition parsePadding (padding : sidesProp) : option sides :=
  match padding with
  | SidesNum n => Some {| top := n; right := n; bottom := n; left := n |}
  | SidesObj t r b l =>
      Some {| top := side_or_zero t; right := side_or_zero r;
              bottom := side_or_zero b; left := side_or_zero l |}
  | SidesNull => None
  | SidesOther =>
      Some {| top := JS.zero; right := JS.zero; bottom := JS.zero; left := JS.zero |}
  end.

Definition parseMargin (margin : sidesProp) : option sides := parsePadding margin.

(** The properties [BlockNode] reads.  [padding] and [margin] are [None]
    when the property is missing, which the destructuring replaces by 0. *)
Record props := {
  width : JS.prim;
  height : JS.prim;
  padding : option sidesProp;
  margin : option sidesProp;
  position : JS.prim;
  topProp : JS.prim;
  leftProp : JS.prim }.

Definition or_zero (v : option sidesProp) : sidesProp := default (SidesNum JS.zero) v.

Record constraints := { maxWidth : JS.num; maxHeight : JS.num }.

(** A child as the block uses it: its [measure] method and the
    [intrinsicSize] it holds, [None] for [null]. *)
Record child := {
  measure_of : constraints -> Layout.size;
  intrinsicSize : option Layout.size }.

(** [getContentBox(bounds, padding)]. *)
Definition getContentBox (bounds : Dom.rect) (padding : sidesProp) : option Dom.rect :=
  p ← parsePadding padding;
  Some {| Dom.left := JS.add (Dom.left bounds) (left p);
          Dom.top := JS.add (Dom.top bounds) (top p);
          Dom.width := JS.sub (JS.sub (Dom.width bounds) (left p)) (right p);
          Dom.height := JS.sub (JS.sub (Dom.height bounds) (top p)) (bottom p) |}.

(** [a + b + c + d + e], from the left. *)
Definition add5 (a b c d e : JS.num) : JS.num :=
  JS.add (JS.add (JS.add (JS.add a b) c) d) e.

(** [measure(constraints)]: the size returned and the children, which hold
    their measured size when the block has measured them.  The block keeps
    the returned size as its own [intrinsicSize] in the last case only. *)
Definition measure (pr : props) (children : list child) (cs : constraints)
  : option (Layout.size * list child) :=
  p ← parsePadding (or_zero (padding pr));
  m ← parseMargin (or_zero (margin pr));
  let w := Layout.parseSize (width pr) (maxWidth cs) in
  let h := Layout.parseSize (height pr) (maxHeight cs) in
  if JS.prim_truthy (width pr) && JS.prim_truthy (height pr) then
    Some ({| Layout.width := JS.add (JS.add w (left m)) (right m);
             Layout.height := JS.add (JS.add h (top m)) (bottom m) |},
          children)
  else
    let childConstraints :=
      {| maxWidth :=
           if JS.prim_truthy (width pr)
           then JS.sub (JS.sub w (left p)) (right p)
           else JS.sub (JS.sub (JS.sub (JS.sub (maxWidth cs) (left p)) (right p))
                               (left m)) (right m);
         maxHeight :=
           if JS.prim_truthy (height pr)
           then JS.sub (JS.sub h (top p)) (bottom p)
           else JS.sub (JS.sub (JS.sub (JS.sub (maxHeight cs) (top p)) (bottom p))
                               (top m)) (bottom m) |} in
    match children with
    | [] =>
        Some ({| Layout.width :=
                   add5 (if JS.prim_truthy (width pr) then w else JS.zero)
                        (left p) (right p) (left m) (right m);
                 Layout.height :=
                   add5 (if JS.prim_truthy (height pr) then h else JS.zero)
                        (top p) (bottom p) (top m) (bottom m) |},
              [])
    | _ =>
        let childSizes := map (fun c => measure_of c childConstraints) children in
        let contentWidth := fold_left JS.max (map Layout.width childSizes) JS.NInf in
        let contentHeight := fold_left JS.add (map Layout.height childSizes) JS.zero in
        Some ({| Layout.width :=
                   add5 (if JS.prim_truthy (width pr) then w else contentWidth)
                        (left p) (right p) (left m) (right m);
                 Layout.height :=
                   add5 (if JS.prim_truthy (height pr) then h else contentHeight)
                        (top p) (bottom p) (top m) (bottom m) |},
              map (fun c => {| measure_of := measure_of c;
                               intrinsicSize := Some (measure_of c childConstraints) |})
                  children)
    end.

(** [child.intrinsicSize?.height || 0]. *)
Definition childHeight (c : child) : JS.num :=
  match intrinsicSize c with
  | Some sz => JS.or_else (Layout.height sz) JS.zero
  | None => JS.zero
  end.

(** The loop of [layout]: the bounds handed to the children, one under
    the other from [currentY] on. *)
Fixpoint stack (contentBox : Dom.rect) (children : list child) (currentY : JS.num)
  : list Dom.rect :=
  match children with
  | [] => []
  | c :: rest =>
      {| Dom.left := Dom.left contentBox; Dom.top := currentY;
         Dom.width := Dom.width contentBox; Dom.height := childHeight c |}
      :: stack contentBox rest (JS.add currentY (childHeight c))
  end.

Definition is_absolute (position : JS.prim) : bool :=
  match position with
  | JS.PStr s => String.eqb s "absolute"
  | _ => false
  end.

Definition is_undefined (v : JS.prim) : bool :=
  match v with
  | JS.PUndef => true
  | _ => false
  end.

(** [layout(bounds)]: [this.bounds] and the bounds handed to the
    children. *)
Definition layout (pr : props) (children : list child) (bounds : Dom.rect)
  : option (Dom.rect * list Dom.rect) :=
  m ← parseMargin (or_zero (margin pr));
  let own :=
    {| Dom.left := JS.add (Dom.left bounds) (left m);
       Dom.top := JS.add (Dom.top bounds) (top m);
       Dom.width := JS.sub (JS.sub (Dom.width bounds) (left m)) (right m);
       Dom.height := JS.sub (JS.sub (Dom.height bounds) (top m)) (bottom m) |} in
  let own :=
    if is_absolute (position pr) then
      {| Dom.left :=
           if is_undefined (leftProp pr) then Dom.left own
           else JS.add (Dom.left bounds)
                       (Layout.parseSize (leftProp pr) (Dom.width bounds));
         Dom.top :=
           if is_undefined (topProp pr) then Dom.top own
           else JS.add (Dom.top bounds)
                       (Layout.parseSize (topProp pr) (Dom.height bounds));
         Dom.width := Dom.width own; Dom.height := Dom.height own |}
    else own in
  contentBox ← getContentBox own (or_zero (padding pr));
  Some (own, stack contentBox children (Dom.top contentBox)).

(** The child holds a measured size of the finite height [h]. *)
Definition measured_height (c : child) (h : Q) : Prop :=
  exists s, intrinsicSize c = Some s /\ Layout.height s = JS.Fin h.

End Block.

(** ** Flex containers ([FlexNode.layout] of [WebEngine.jsx] and
    [CanvasEngine.jsx]) *)

Module Flex.

(** The properties [layout] reads.  [justifyContent] and [alignItems] are
    strings and [gap] is a number when they are present; [None] is a
    missing property, which the destructuring replaces by its default. *)
Record props := {
  flexDirection : JS.prim;
  justifyContent : option string;
  alignItems : option string;
  gap : option JS.num;
  padding : option Block.sidesProp }.

(** [v === s] for a string [s]. *)
Definition is_str (v : JS.prim) (s : string) : bool :=
  match v with
  | JS.PStr x => String.eqb x s
  | _ => false
  end.

(** [flexDirection === 'row' || flexDirection === 'row-reverse'] on the
    property as it is stored. *)
Definition isRow_stored (pr : props) : bool :=
  is_str (flexDirection pr) "row" || is_str (flexDirection pr) "row-reverse".

(** The same test in [layout], where a missing [flexDirection] has become
    ['row']. *)
Definition isRow (pr : props) : bool :=
  match flexDirection pr with
  | JS.PUndef => true
  | _ => isRow_stored pr
  end.

(** [child.props.alignSelf || alignItems]. *)
Definition alignSelf (child : Layout.child) (alignItems : string) : JS.prim :=
  if JS.prim_truthy (Layout.prop child "alignSelf")
  then Layout.prop child "alignSelf" else JS.PStr alignItems.

(** The axis [calculateCrossSize] reads the intrinsic size on: it tests
    [this.props.flexDirection], without the default. *)
Definition crossAxis_read (pr : props) : Layout.axis :=
  if isRow_stored pr then Layout.Height else Layout.Width.

Definition calculateCrossSize (pr : props) (child : Layout.child)
    (alignItems : string) (availableCrossSize : JS.num) : JS.num :=
  if is_str (alignSelf child alignItems) "stretch"
     && negb (JS.prim_truthy (Layout.prop child "height"))
     && negb (JS.prim_truthy (Layout.prop child "width"))
  then availableCrossSize
  else Layout.along (crossAxis_read pr) (Layout.intrinsicSize child).

Definition calculateCrossPosition (child : Layout.child) (alignItems : string)
    (availableCrossSize crossSize : JS.num) : JS.num :=
  let a := alignSelf child alignItems in
  if is_str a "flex-start" || is_str a "stretch" then JS.zero
  else if is_str a "flex-end" then JS.sub availableCrossSize crossSize
  else if is_str a "center"
       then JS.div (JS.sub availableCrossSize crossSize) (JS.Fin 2)
  else JS.zero.

(** [layout(bounds)]: the bounds handed to the children.  [sizes] and
    [positions] hold one entry for each child. *)
Definition layout (pr : props) (children : list Layout.child) (bounds : Dom.rect)
  : option (list Dom.rect) :=
  match children with
  | [] => Some []
  | _ =>
      contentBox ← Block.getContentBox bounds (Block.or_zero (padding pr));
      let justify := default "flex-start" (justifyContent pr) in
      let align := default "stretch" (alignItems pr) in
      let g := default JS.zero (gap pr) in
      let mainAxis := if isRow pr then Layout.Width else Layout.Height in
      let mainSpace :=
        if isRow pr then Dom.width contentBox else Dom.height contentBox in
      let crossSpace :=
        if isRow pr then Dom.height contentBox else Dom.width contentBox in
      let sizes := Layout.calculateFlexSizes children mainSpace mainAxis g in
      let positions := Layout.calculateMainAxisPositions justify mainSpace g sizes in
      Some (imap (fun i child =>
                    let mainSize := default JS.NaN (sizes !! i) in
                    let position := default JS.NaN (positions !! i) in
                    let crossSize := calculateCrossSize pr child align crossSpace in
                    let crossPos :=
                      calculateCrossPosition child align crossSpace crossSize in
                    if isRow pr then
                      {| Dom.left := JS.add (Dom.left contentBox) position;
                         Dom.top := JS.add (Dom.top contentBox) crossPos;
                         Dom.width := mainSize; Dom.height := crossSize |}
                    else
                      {| Dom.left := JS.add (Dom.left contentBox) crossPos;
                         Dom.top := JS.add (Dom.top contentBox) position;
                         Dom.width := crossSize; Dom.height := mainSize |})
                 children)
  end.

(** The rectangle [inner] with finite sides lies inside [outer]. *)
Definition inside (outer inner : Dom.rect) : Prop :=
  exists ox oy ow oh ix iy iw ih,
    outer = {| Dom.left := JS.Fin ox; Dom.top := JS.Fin oy;
               Dom.width := JS.Fin ow; Dom.height := JS.Fin oh |}
    /\ inner = {| Dom.left := JS.Fin ix; Dom.top := JS.Fin iy;
                  Dom.width := JS.Fin iw; Dom.height := JS.Fin ih |}
    /\ (0 <= iw /\ 0 <= ih /\ ox <= ix /\ ix + iw <= ox + ow
        /\ oy <= iy /\ iy + ih <= oy + oh)%Q.

End Flex.

(** * Properties *)

(** ** Sanity checks of the built-ins *)

Example parseFloat_45deg : JS.parseFloat "45deg" = JS.Fin (inject_Z 45).
Proof. reflexivity. Qed.

Example parseFloat_frac : JS.num_eq (JS.parseFloat " -1.5e1px") (JS.Fin (-15)).
Proof. vm_compute. reflexivity. Qed.

Example parseFloat_word : JS.parseFloat "normal" = JS.NaN.
Proof. reflexivity. Qed.

Example trim_both : JS.trim "  to top " = "to top".
Proof. reflexivity. Qed.

Example split_spaces : JS.split_on " " "a  b" = ["a"; ""; "b"].
Proof. reflexivity. Qed.

Example wrapText_two_lines :
  Text.wrapText (fun s => inject_Z (Z.of_nat (String.length s))) (JS.Fin 7)
    "aaa bbb  cc dddddddddd e"
  = ["aaa bbb"; "cc"; "dddddddddd"; "e"].
Proof. reflexivity. Qed.

(** ** Word wrap *)

Lemma split_on_not_nil sep s : JS.split_on sep s <> [].
Proof.
  destruct s as [|c r]; simpl; [discriminate|].
  destruct (Ascii.eqb c sep); [discriminate|].
  destruct (JS.split_on sep r); discriminate.
Qed.

Lemma split_on_app sep a b :
  JS.split_on sep (a +:+ String sep b) = JS.split_on sep a ++ JS.split_on sep b.
Proof.
  induction a as [|c a IH]; simpl.
  - now rewrite Ascii.eqb_refl.
  - destruct (Ascii.eqb c sep); rewrite IH; [reflexivity|].
    pose proof (split_on_not_nil sep a) as Hne.
    destruct (JS.split_on sep a); [congruence|reflexivity].
Qed.

Lemma split_on_pieces sep s :
  Forall (fun w => JS.split_on sep w = [w]) (JS.split_on sep s).
Proof.
  induction s as [|c r IH]; simpl.
  - repeat constructor.
  - destruct (Ascii.eqb c sep) eqn:Hc.
    + constructor; [reflexivity|exact IH].
    + destruct (JS.split_on sep r) as [|w ws]; inversion IH; subst.
      * repeat constructor. simpl. now rewrite Hc.
      * constructor; [|assumption].
        simpl. rewrite Hc. now rewrite H1.
Qed.

Lemma words_empty : Text.words "" = [].
Proof. reflexivity. Qed.

Lemma words_piece w :
  Text.single_word w -> Text.words w = List.filter Text.nonempty [w].
Proof. unfold Text.words, Text.single_word. now intros ->. Qed.

Lemma words_join a w :
  Text.words (a +:+ " " +:+ w) = Text.words a ++ Text.words w.
Proof.
  unfold Text.words. change (" " +:+ w) with (String " " w).
  now rewrite split_on_app, List.filter_app.
Qed.

Lemma nonempty_false s : Text.nonempty s = false -> s = "".
Proof.
  unfold Text.nonempty. destruct (String.eqb_spec s ""); [auto|discriminate].
Qed.

Section WrapTextProps.

Variable measureText : string -> Q.
Variable maxWidth : JS.num.

Local Abbreviation step := (Text.wrap_step measureText maxWidth).
Local Abbreviation fits := (Text.fits measureText maxWidth).

Lemma wrap_step_words st w :
  Text.single_word w ->
  Text.state_words (step st w) = Text.state_words st ++ List.filter Text.nonempty [w].
Proof.
  intros Hw. destruct st as [lines cur]. unfold Text.wrap_step, Text.state_words.
  destruct (Text.nonempty cur) eqn:Hcur.
  - destruct (Text.too_wide _ _ _); cbn [andb fst snd].
    + rewrite flat_map_app. cbn [flat_map]. rewrite app_nil_r.
      now rewrite (words_piece w Hw).
    + rewrite words_join, (words_piece w Hw). now rewrite app_assoc.
  - rewrite andb_false_r. cbn [fst snd].
    apply nonempty_false in Hcur. subst cur.
    rewrite words_empty, app_nil_r. now rewrite (words_piece w Hw).
Qed.

Lemma fold_wrap_words ws : forall st,
  Forall Text.single_word ws ->
  Text.state_words (fold_left step ws st)
  = Text.state_words st ++ List.filter Text.nonempty ws.
Proof.
  induction ws as [|w ws IH]; intros st Hws.
  - simpl. now rewrite app_nil_r.
  - inversion Hws; subst. cbn [fold_left].
    rewrite IH by assumption. rewrite wrap_step_words by assumption.
    rewrite <- app_assoc. f_equal. cbn. now destruct (Text.nonempty w).
Qed.

Lemma wrap_step_ok st w :
  Text.single_word w -> Text.state_ok measureText maxWidth st -> Text.state_ok measureText maxWidth (step st w).
Proof.
  intros Hw [Hl Hc]. destruct st as [lines cur]. cbn [fst snd] in *.
  unfold Text.wrap_step.
  destruct (Text.too_wide _ _ _) eqn:Hwide; cbn [andb].
  - destruct (Text.nonempty cur) eqn:Hcur.
    + split; cbn [fst snd].
      * apply Forall_app; split; [assumption|]. constructor; auto.
      * intros _. now right.
    + split; cbn [fst snd]; [assumption|]. intros _. now right.
  - split; cbn [fst snd]; [assumption|]. intros _. now left.
Qed.

Lemma fold_wrap_ok ws : forall st,
  Forall Text.single_word ws -> Text.state_ok measureText maxWidth st -> Text.state_ok measureText maxWidth (fold_left step ws st).
Proof.
  induction ws as [|w ws IH]; intros st Hws Hst; [exact Hst|].
  inversion Hws; subst. cbn [fold_left]. apply IH; [assumption|].
  now apply wrap_step_ok.
Qed.

(** The words of the lines are those of the text, and the loop left no
    line of several words that its own test found too wide. *)
Lemma wrapText_words_and_test (text : string) :
  flat_map Text.words (Text.wrapText measureText maxWidth text)
    = Text.words text
  /\ (forall l, In l (Text.wrapText measureText maxWidth text) ->
        ~ Text.single_word l -> fits l).
Proof.
  pose proof (split_on_pieces " " text) as Hp.
  pose proof (fold_wrap_words _ ([], "") Hp) as Hw.
  assert (Hok0 : Text.state_ok measureText maxWidth ([], "")).
  { split; [constructor|]. cbn. discriminate. }
  pose proof (fold_wrap_ok _ _ Hp Hok0) as [Hl Hc].
  unfold Text.wrapText.
  destruct (fold_left step (JS.split_on " " text) ([], "")) as [lines cur].
  unfold Text.state_words in Hw. cbn [fst snd flat_map app] in *.
  rewrite words_empty in Hw. cbn [app] in Hw.
  destruct (Text.nonempty cur) eqn:Hcur.
  - split.
    + rewrite flat_map_app. cbn [flat_map]. now rewrite app_nil_r.
    + intros l Hin Hns. apply in_app_or in Hin as [Hin|[<-|[]]].
      * rewrite List.Forall_forall in Hl. destruct (Hl l Hin); tauto.
      * destruct (Hc eq_refl); tauto.
  - split.
    + apply nonempty_false in Hcur. subst cur.
      rewrite words_empty, app_nil_r in Hw. exact Hw.
    + intros l Hin Hns. rewrite List.Forall_forall in Hl.
      destruct (Hl l Hin); tauto.
Qed.

End WrapTextProps.

(** ** Numbers *)

Lemma gt_Fin a b : JS.gt (JS.Fin a) (JS.Fin b) = true <-> (b < a)%Q.
Proof.
  unfold JS.gt. destruct (a ?= b)%Q eqn:H.
  - apply Qeq_alt in H. split; [discriminate|]. intros Hlt. rewrite H in Hlt.
    now apply Qlt_irrefl in Hlt.
  - apply Qlt_alt in H. split; [discriminate|]. intros Hlt.
    exfalso. apply (Qlt_irrefl a). now apply Qlt_trans with b.
  - apply Qgt_alt in H. split; [intros _; exact H|reflexivity].
Qed.

Lemma gt_Fin_false a b : JS.gt (JS.Fin a) (JS.Fin b) = false <-> (a <= b)%Q.
Proof.
  rewrite <- not_true_iff_false, gt_Fin. split; [apply Qnot_lt_le|apply Qle_not_lt].
Qed.

(** *** Rounding to binary64 *)

Lemma pow2_pos e : (0 < JS.pow2 e)%Q.
Proof. unfold JS.pow2. apply Qpower_0_lt. reflexivity. Qed.

Lemma pow2_nat e : 0 <= e -> (JS.pow2 e == inject_Z (2 ^ e))%Q.
Proof. intros He. unfold JS.pow2. rewrite Zpower_Qpower by exact He. reflexivity. Qed.

Lemma pow2_add a b : (JS.pow2 (a + b) == JS.pow2 a * JS.pow2 b)%Q.
Proof. unfold JS.pow2. apply Qpower_plus. discriminate. Qed.

Lemma Qred_int z : Qred (inject_Z z) = inject_Z z.
Proof. apply Qcanon.Qred_identity. cbn. apply Z.gcd_1_r. Qed.

Lemma round_even_int q k : (q == inject_Z k)%Q -> JS.round_even q = k.
Proof.
  intros Hq. unfold JS.round_even.
  assert (Hf : Qfloor q = k) by (rewrite Hq; apply Qfloor_Z).
  rewrite Hf.
  assert (Hc : (q - inject_Z k ?= 1 # 2)%Q = Lt).
  { apply Qlt_alt. rewrite Hq. unfold Qminus. rewrite Qplus_opp_r. reflexivity. }
  now rewrite Hc.
Qed.

Lemma round64_int z : 0 <= z < 2 ^ 53 -> JS.round64 (inject_Z z) = JS.Fin (inject_Z z).
Proof.
  intros [Hz0 Hz]. unfold JS.round64.
  destruct (Z.eq_dec z 0) as [->|Hnz]; [reflexivity|].
  assert (Hpos : 0 < z) by lia.
  assert (Hc : (0 ?= inject_Z z)%Q = Lt).
  { assert (Hlt : (0 < inject_Z z)%Q) by (unfold Qlt; cbn; lia).
    now apply Qlt_alt in Hlt. }
  rewrite Hc. unfold JS.round64_pos.
  pose proof (Z.log2_spec z Hpos) as [Hlo Hhi].
  assert (He0 : 0 <= Z.log2 z) by apply Z.log2_nonneg.
  assert (He52 : Z.log2 z <= 52).
  { assert (Z.log2 z < 53); [|lia]. apply Z.log2_lt_pow2; lia. }
  assert (Hexp : JS.exponent (inject_Z z) = Z.log2 z).
  { unfold JS.exponent. cbn [Qnum Qden inject_Z]. change (Z.log2 1) with 0.
    rewrite Z.sub_0_r.
    assert (Hb : Qle_bool (JS.pow2 (Z.log2 z)) (inject_Z z) = true).
    { apply Qle_bool_iff. rewrite pow2_nat by exact He0. now rewrite <- Zle_Qle. }
    fold (inject_Z z). now rewrite Hb. }
  rewrite Hexp. rewrite Z.max_l by lia.
  set (e := Z.log2 z) in *.
  assert (Hm : JS.round_even (inject_Z z * JS.pow2 (52 - e)) = z * 2 ^ (52 - e)).
  { apply round_even_int. rewrite pow2_nat by lia. now rewrite inject_Z_mult. }
  rewrite Hm.
  assert (Hv : (inject_Z (z * 2 ^ (52 - e)) * JS.pow2 (e - 52) == inject_Z z)%Q).
  { rewrite inject_Z_mult, <- (pow2_nat (52 - e)) by lia.
    rewrite <- Qmult_assoc, <- pow2_add.
    replace (52 - e + (e - 52)) with 0 by lia. change (JS.pow2 0) with 1%Q. ring. }
  assert (Hb : Qle_bool (JS.pow2 1024) (inject_Z (z * 2 ^ (52 - e)) * JS.pow2 (e - 52)) = false).
  { apply not_true_iff_false. intros Hb. apply Qle_bool_iff in Hb. rewrite Hv in Hb.
    rewrite pow2_nat in Hb by lia. rewrite <- Zle_Qle in Hb.
    assert (2 ^ 53 < 2 ^ 1024) by (apply Z.pow_lt_mono_r; lia). lia. }
  rewrite Hb. f_equal. rewrite (Qred_complete _ _ Hv). apply Qred_int.
Qed.

Lemma exponent_int z : 0 < z -> JS.exponent (inject_Z z) = Z.log2 z.
Proof.
  intros Hpos. pose proof (Z.log2_spec z Hpos) as [Hlo Hhi].
  unfold JS.exponent. cbn [Qnum Qden inject_Z]. change (Z.log2 1) with 0.
  rewrite Z.sub_0_r.
  assert (Hb : Qle_bool (JS.pow2 (Z.log2 z)) (inject_Z z) = true).
  { apply Qle_bool_iff. rewrite pow2_nat by apply Z.log2_nonneg. now rewrite <- Zle_Qle. }
  fold (inject_Z z). now rewrite Hb.
Qed.

Lemma round_even_floor q : Qfloor q <= JS.round_even q.
Proof.
  unfold JS.round_even. destruct (_ ?= _)%Q; [destruct (Z.even _)|..]; lia.
Qed.

Lemma round64_big z :
  2 ^ 53 <= z ->
  JS.round64 (inject_Z z) = JS.PInf
  \/ exists q, JS.round64 (inject_Z z) = JS.Fin q /\ (inject_Z (2 ^ 53) <= q)%Q.
Proof.
  intros Hz. assert (Hpos : 0 < z) by lia. unfold JS.round64.
  assert (Hc : (0 ?= inject_Z z)%Q = Lt).
  { assert (Hlt : (0 < inject_Z z)%Q) by (unfold Qlt; cbn; lia).
    now apply Qlt_alt in Hlt. }
  rewrite Hc. unfold JS.round64_pos. rewrite (exponent_int z Hpos).
  pose proof (Z.log2_spec z Hpos) as [Hlo Hhi].
  assert (He : 53 <= Z.log2 z) by (apply Z.log2_le_pow2; lia).
  rewrite Z.max_l by lia. set (e := Z.log2 z) in *.
  set (m := JS.round_even (inject_Z z * JS.pow2 (52 - e))).
  assert (Hm : 2 ^ 52 <= m).
  { etransitivity; [|apply round_even_floor].
    rewrite <- (Qfloor_Z (2 ^ 52)). apply Qfloor_resp_le.
    rewrite <- (pow2_nat 52) by lia.
    replace 52 with (e + (52 - e)) at 1 by lia. rewrite pow2_add.
    apply Qmult_le_compat_r; [|apply Qlt_le_weak, pow2_pos].
    rewrite pow2_nat by lia. now rewrite <- Zle_Qle. }
  destruct (Qle_bool _ _); [now left|right].
  eexists. split; [reflexivity|]. rewrite Qred_correct.
  rewrite <- (pow2_nat 53) by lia.
  replace 53 with (52 + 1) by lia. rewrite pow2_add.
  apply Qmult_le_compat_nonneg.
  - split; [apply Qlt_le_weak, pow2_pos|].
    rewrite pow2_nat by lia. now rewrite <- Zle_Qle.
  - split; [apply Qlt_le_weak, pow2_pos|].
    unfold JS.pow2. apply Qpower_le_compat_l; [lia|]. unfold Qle; cbn; lia.
Qed.

(** C10. The words of the lines returned by [wrapText], read line after
    line, are the words of the input text in their order, whatever
    [maxWidth] is; and when [maxWidth] is a number, a returned line that is
    not a single word measures at most [maxWidth]. *)
Theorem wrapText_keeps_words_and_fits (measureText : string -> Q)
    (maxWidth : JS.num) (text : string) :
  flat_map Text.words (Text.wrapText measureText maxWidth text)
    = Text.words text
  /\ (maxWidth <> JS.NaN ->
      forall l, In l (Text.wrapText measureText maxWidth text) ->
        ~ Text.single_word l -> Text.within (measureText l) maxWidth).
Proof.
  destruct (wrapText_words_and_test measureText maxWidth text) as [Hw Hfit].
  split; [exact Hw|]. intros Hn l Hin Hs.
  specialize (Hfit l Hin Hs). unfold Text.fits, Text.too_wide in Hfit.
  destruct maxWidth as [| | |w]; cbn [Text.within].
  - now apply Hn.
  - exact I.
  - discriminate Hfit.
  - now apply gt_Fin_false.
Qed.

Lemma wrapText_keeps_words_and_fits_witness :
  Text.wrapText Text.monospace (JS.Fin 5) "aa bb cc" = ["aa bb"; "cc"]
  /\ flat_map Text.words (Text.wrapText Text.monospace (JS.Fin 5) "aa bb cc")
     = Text.words "aa bb cc"
  /\ Text.within (Text.monospace "aa bb") (JS.Fin 5).
Proof.
  destruct (wrapText_keeps_words_and_fits Text.monospace (JS.Fin 5) "aa bb cc")
    as [Hw Hfit].
  split; [reflexivity|]. split; [exact Hw|].
  apply Hfit.
  - discriminate.
  - left. reflexivity.
  - unfold Text.single_word. cbn. discriminate.
Defined.

(** With [maxWidth] [NaN] no line is ever broken. *)
Example wrapText_NaN :
  Text.wrapText Text.monospace JS.NaN "aa bb cc" = ["aa bb cc"].
Proof. reflexivity. Qed.

Lemma max_Fin_cases a b :
  (JS.max (JS.Fin a) (JS.Fin b) = JS.Fin a /\ (b <= a)%Q)
  \/ (JS.max (JS.Fin a) (JS.Fin b) = JS.Fin b /\ (a < b)%Q).
Proof.
  unfold JS.max. destruct (JS.gt (JS.Fin b) (JS.Fin a)) eqn:H.
  - right. split; [reflexivity|now apply gt_Fin].
  - left. split; [reflexivity|now apply gt_Fin_false].
Qed.

Lemma min_Fin_cases a b :
  (JS.min (JS.Fin a) (JS.Fin b) = JS.Fin a /\ (a <= b)%Q)
  \/ (JS.min (JS.Fin a) (JS.Fin b) = JS.Fin b /\ (b < a)%Q).
Proof.
  unfold JS.min, JS.lt. destruct (JS.gt (JS.Fin a) (JS.Fin b)) eqn:H.
  - right. split; [reflexivity|now apply gt_Fin].
  - left. split; [reflexivity|now apply gt_Fin_false].
Qed.

(** ** Clip regions *)

Lemma overlap_cases a la b lb :
  let lo := Qmax a b in
  let hi := Qmin (a + la) (b + lb) in
  (Snapshot.overlap a la b lb == hi - lo
   /\ a <= lo /\ b <= lo /\ (lo == a \/ lo == b)
   /\ hi <= a + la /\ hi <= b + lb /\ (hi == a + la \/ hi == b + lb))%Q.
Proof.
  intros lo hi. unfold Snapshot.overlap. fold lo hi.
  destruct (Q.max_spec a b) as [[? Hm]|[? Hm]];
  destruct (Q.min_spec (a + la) (b + lb)) as [[? Hn]|[? Hn]];
  fold lo in Hm; fold hi in Hn; repeat split; try lra; auto.
Qed.

Section ClipComposition.

Variables px py pw ph pr mx my mw mh : Q.
Variable mr : JS.num.

Let p := Snapshot.region px py pw ph pr.
Let m := {| Snapshot.clip_x := JS.Fin mx; Snapshot.clip_y := JS.Fin my;
            Snapshot.clip_width := JS.Fin mw; Snapshot.clip_height := JS.Fin mh;
            Snapshot.clip_radius := mr |}.

Lemma intersect_overlapping :
  (0 < Snapshot.overlap px pw mx mw)%Q ->
  (0 < Snapshot.overlap py ph my mh)%Q ->
  (forall a b, Snapshot.covers (Snapshot.intersect p m) a b
               <-> Snapshot.covers p a b /\ Snapshot.covers m a b)
  /\ Snapshot.clip_radius (Snapshot.intersect p m) = mr.
Proof.
  intros Hx Hy.
  pose proof (overlap_cases px pw mx mw) as (Ex & ? & ? & ? & ? & ? & ?).
  pose proof (overlap_cases py ph my mh) as (Ey & ? & ? & ? & ? & ? & ?).
  unfold Snapshot.intersect, p, m, Snapshot.region; cbn [Snapshot.clip_x
    Snapshot.clip_y Snapshot.clip_width Snapshot.clip_height
    Snapshot.clip_radius JS.add].
  destruct (max_Fin_cases px mx) as [[-> ?]|[-> ?]];
  destruct (max_Fin_cases py my) as [[-> ?]|[-> ?]];
  destruct (min_Fin_cases (px + pw) (mx + mw)) as [[-> ?]|[-> ?]];
  destruct (min_Fin_cases (py + ph) (my + mh)) as [[-> ?]|[-> ?]];
  match goal with
  | |- context [JS.gt (JS.Fin ?a) (JS.Fin ?b) && JS.gt (JS.Fin ?c) (JS.Fin ?d)] =>
      assert (Hg1 : JS.gt (JS.Fin a) (JS.Fin b) = true) by (apply gt_Fin; lra);
      assert (Hg2 : JS.gt (JS.Fin c) (JS.Fin d) = true) by (apply gt_Fin; lra);
      rewrite Hg1, Hg2
  end;
  cbn [andb]; (split; [|reflexivity]);
  intros a b; unfold Snapshot.covers; cbn; lra.
Qed.

Lemma intersect_degenerate :
  (Snapshot.overlap px pw mx mw <= 0)%Q \/ (Snapshot.overlap py ph my mh <= 0)%Q ->
  Snapshot.intersect p m = Snapshot.zeroClip.
Proof.
  intros Hd.
  pose proof (overlap_cases px pw mx mw) as (Ex & ? & ? & ? & ? & ? & ?).
  pose proof (overlap_cases py ph my mh) as (Ey & ? & ? & ? & ? & ? & ?).
  unfold Snapshot.intersect, p, m, Snapshot.region; cbn [Snapshot.clip_x
    Snapshot.clip_y Snapshot.clip_width Snapshot.clip_height
    Snapshot.clip_radius JS.add].
  destruct (max_Fin_cases px mx) as [[-> ?]|[-> ?]];
  destruct (max_Fin_cases py my) as [[-> ?]|[-> ?]];
  destruct (min_Fin_cases (px + pw) (mx + mw)) as [[-> ?]|[-> ?]];
  destruct (min_Fin_cases (py + ph) (my + mh)) as [[-> ?]|[-> ?]];
  match goal with
  | |- context [JS.gt (JS.Fin ?a) (JS.Fin ?b) && JS.gt (JS.Fin ?c) (JS.Fin ?d)] =>
      destruct Hd;
      [ assert (Hg : JS.gt (JS.Fin a) (JS.Fin b) = false)
          by (apply gt_Fin_false; lra); rewrite Hg; reflexivity
      | assert (Hg : JS.gt (JS.Fin c) (JS.Fin d) = false)
          by (apply gt_Fin_false; lra); rewrite Hg, andb_false_r; reflexivity ]
  end.
Qed.

End ClipComposition.



Example clip_composition_overlapping :
  Snapshot.currentClip {["overflow" := "hidden"]}
    (JS.Fin 5) (JS.Fin 5) (JS.Fin 10) (JS.Fin 10)
    (Some (Snapshot.region 0 0 10 10 0))
  = Some (Snapshot.region 5 5 5 5 0)
  /\ CanvasEngine.currentClip {["overflow" := "hidden"]}
       (JS.Fin 5) (JS.Fin 5) (JS.Fin 10) (JS.Fin 10)
       (Some (Snapshot.region 0 0 10 10 0))
     = Some (Snapshot.region 5 5 5 5 0).
Proof. split; vm_compute; reflexivity. Qed.

(** ** The capture traversal *)

Lemma element_rect (P : Dom.element -> Prop) :
  (forall uid tag attrs bounds computed kids,
      (forall child, In (Dom.ElementNode child) kids -> P child) ->
      P (Dom.Element uid tag attrs bounds computed kids)) ->
  forall e, P e.
Proof.
  intros step. fix IH 1. intros [uid tag attrs bounds computed kids].
  apply step. induction kids as [|n kids IHk]; intros child Hin.
  - destruct Hin.
  - destruct Hin as [Hn|Hin]; [|now apply IHk].
    destruct n as [e| |]; try discriminate.
    injection Hn as <-. apply IH.
Qed.

Lemma for_children_invariant {S : Type} (I : S -> Prop) (body : Dom.element -> S -> S)
    (kids : list Dom.node) :
  (forall child s, In (Dom.ElementNode child) kids -> I s -> I (body child s)) ->
  forall s, I s -> I (Dom.for_children body kids s).
Proof.
  induction kids as [|n kids IH]; intros Hbody s Hs; [exact Hs|].
  destruct n as [e| |]; cbn.
  - apply IH; [intros; apply Hbody; [now right|assumption]|].
    apply Hbody; [now left|assumption].
  - apply IH; [intros; apply Hbody; [now right|assumption]|assumption].
  - apply IH; [intros; apply Hbody; [now right|assumption]|assumption].
Qed.

Lemma Forall_alter_batch (bs : list Snapshot.batch) b addr raw :
  Forall Snapshot.batch_ok bs ->
  Forall Snapshot.batch_ok
    (alter (fun bt => Snapshot.batch_push bt addr raw) b bs).
Proof.
  intros H. revert b. induction H as [|bt bs Hb Hbs IH]; intros [|b]; cbn.
  - constructor.
  - constructor.
  - constructor; [|assumption]. unfold Snapshot.batch_ok, Snapshot.batch_push in *.
    cbn. rewrite !length_app. cbn. lia.
  - constructor; [assumption|apply IH].
Qed.

Lemma extractStyles_spec cfg computed addr nd bc st :
  let r := Snapshot.extractStyles cfg computed addr nd bc st in
  Snapshot.heap (snd r) = Snapshot.heap st
  /\ Snapshot.nodes (snd r) = Snapshot.nodes st
  /\ Snapshot.stylePromises (snd r) = Snapshot.stylePromises st
  /\ List.length (Snapshot.batches (snd r)) = List.length (Snapshot.batches st)
  /\ (Forall Snapshot.batch_ok (Snapshot.batches st) ->
      Forall Snapshot.batch_ok (Snapshot.batches (snd r)))
  /\ exists s, fst r = Snapshot.with_styles nd s.
Proof.
  unfold Snapshot.extractStyles.
  destruct (Snapshot.has_backgroundImage computed);
    destruct bc as [b|]; destruct (Snapshot.gradientWorker cfg) as [[ex|fm|]|];
    try destruct (Gradient.parseGradient _); cbn;
    rewrite ?length_alter;
    (repeat split; [try (intros; now apply Forall_alter_batch); auto | eauto]).
Qed.

Lemma clip_inherited_ext rootRect root (nd nd' : Snapshot.nodeData) :
  Snapshot.tagName nd' = Snapshot.tagName nd ->
  Snapshot.x nd' = Snapshot.x nd -> Snapshot.y nd' = Snapshot.y nd ->
  Snapshot.width nd' = Snapshot.width nd ->
  Snapshot.height nd' = Snapshot.height nd ->
  Snapshot.zIndex nd' = Snapshot.zIndex nd ->
  Snapshot.clip nd' = Snapshot.clip nd ->
  Snapshot.clip_inherited rootRect root nd ->
  Snapshot.clip_inherited rootRect root nd'.
Proof.
  intros Ht Hx Hy Hw Hh Hz Hc (e & pc & Hin & (Hr1 & Hr2 & Hr3) & Hcl).
  exists e, pc. unfold Snapshot.recorded_for.
  rewrite Ht, Hx, Hy, Hw, Hh, Hz, Hc. auto.
Qed.

Lemma clip_inherited_withContent rootRect root resolve attrs kids nd :
  Snapshot.clip_inherited rootRect root nd ->
  Snapshot.clip_inherited rootRect root
    (Snapshot.withContent resolve attrs kids nd).
Proof.
  apply clip_inherited_ext; unfold Snapshot.withContent;
    destruct (Snapshot.type nd), (Snapshot.directTexts kids); reflexivity.
Qed.

Lemma clip_inherited_new rootRect root e pc :
  Snapshot.inherits rootRect root e pc ->
  Snapshot.clip_inherited rootRect root (Snapshot.newNodeData rootRect e pc).
Proof.
  intros Hin. exists e, pc. split; [assumption|].
  destruct e as [uid tag attrs bounds computed kids].
  unfold Snapshot.recorded_for. cbn. auto.
Qed.

Section TraversalProps.

Variable cfg : Snapshot.config.
Variable rootRect : Dom.rect.
Variable root : Dom.element.

Local Abbreviation wf := (Snapshot.wf rootRect root).

Lemma wf_store st nd :
  wf st -> Snapshot.clip_inherited rootRect root nd ->
  wf (Snapshot.store nd st).
Proof.
  intros (Hh & Hb & Hp & Hn) Hnd. unfold Snapshot.wf; cbn. repeat split; auto.
  - apply Forall_app; split; [assumption|]. now constructor.
  - eapply Forall_impl; [exact Hn|]. cbn. intros a Ha. rewrite length_app. cbn. lia.
Qed.

Lemma wf_add_processed st ids : wf st -> wf (Snapshot.add_processed st ids).
Proof. intros H. exact H. Qed.

Lemma wf_push_node st addr :
  wf st -> (addr < List.length (Snapshot.heap st))%nat ->
  wf (Snapshot.push_node st addr).
Proof.
  intros (Hh & Hb & Hp & Hn) Ha. unfold Snapshot.wf; cbn. repeat split; auto.
  apply Forall_app; split; [assumption|]. now constructor.
Qed.

Lemma wf_newBatch st : wf st -> wf (Snapshot.newBatch st).
Proof.
  intros (Hh & Hb & Hp & Hn). unfold Snapshot.wf; cbn. repeat split; auto.
  - apply Forall_app; split; [assumption|]. now repeat constructor.
  - eapply Forall_impl; [exact Hp|]. cbn. intros a Ha. rewrite length_app. cbn. lia.
Qed.

Lemma wf_push_stylePromise st b :
  wf st -> (b < List.length (Snapshot.batches st))%nat ->
  wf (Snapshot.push_stylePromise st b).
Proof.
  intros (Hh & Hb & Hp & Hn) Ha. unfold Snapshot.wf; cbn. repeat split; auto.
  apply Forall_app; split; [assumption|]. now constructor.
Qed.

Lemma wf_extractStyles computed addr nd bc st :
  wf st -> wf (snd (Snapshot.extractStyles cfg computed addr nd bc st)).
Proof.
  intros (Hh & Hb & Hp & Hn).
  destruct (extractStyles_spec cfg computed addr nd bc st)
    as (E1 & E2 & E3 & E4 & E5 & _).
  unfold Snapshot.wf. rewrite E1, E2, E3, E4. auto.
Qed.

Lemma withChildren_wf visit bc kids st2 :
  (forall child nb s, In (Dom.ElementNode child) kids -> wf s ->
     wf (visit child nb s)
     /\ (List.length (Snapshot.batches s)
         <= List.length (Snapshot.batches (visit child nb s)))%nat) ->
  wf st2 ->
  wf (Snapshot.withChildren cfg visit bc kids st2)
  /\ (List.length (Snapshot.batches st2)
      <= List.length (Snapshot.batches (Snapshot.withChildren cfg visit bc kids st2)))%nat.
Proof.
  intros Hv Hwf. unfold Snapshot.withChildren.
  set (own := Snapshot.opensBatch cfg bc kids).
  set (st3 := if own then Snapshot.newBatch st2 else st2).
  assert (H3 : wf st3 /\ (List.length (Snapshot.batches st2)
                          + (if own then 1 else 0)
                          <= List.length (Snapshot.batches st3))%nat).
  { unfold st3. destruct own; [|split; [assumption|lia]].
    split; [now apply wf_newBatch|]. cbn. rewrite length_app. cbn. lia. }
  set (I := fun s => wf s /\ (List.length (Snapshot.batches st2)
                              + (if own then 1 else 0)
                              <= List.length (Snapshot.batches s))%nat).
  assert (H4 : I (Dom.for_children
                    (fun child s =>
                       visit child
                         (if own then Some (List.length (Snapshot.batches st2)) else bc)
                         s) kids st3)).
  { apply for_children_invariant; [|exact H3].
    intros child s Hc [Hs Hl].
    destruct (Hv child (if own then Some (List.length (Snapshot.batches st2)) else bc)
                 s Hc Hs) as [Hs' Hl'].
    split; [assumption|lia]. }
  destruct H4 as [H4 H4l]. destruct own.
  - split; [apply wf_push_stylePromise; [assumption|lia]|cbn; lia].
  - split; [assumption|lia].
Qed.

Lemma captureNode_wf e : forall bc pc st,
  Snapshot.inherits rootRect root e pc ->
  wf st ->
  wf (Snapshot.captureNode cfg rootRect e bc pc st)
  /\ (List.length (Snapshot.batches st)
      <= List.length (Snapshot.batches (Snapshot.captureNode cfg rootRect e bc pc st)))%nat.
Proof.
  induction e as [uid tag attrs bounds computed kids IH] using element_rect.
  intros bc pc st Hin Hwf.
  cbn [Snapshot.captureNode].
  destruct (bool_decide _); [split; [assumption|lia]|].
  destruct (Snapshot.hidden _); [split; [assumption|lia]|].
  set (e := Dom.Element uid tag attrs bounds computed kids) in *.
  pose proof (wf_extractStyles computed (List.length (Snapshot.heap st))
                (Snapshot.newNodeData rootRect e pc) bc st Hwf) as Hwf1.
  destruct (extractStyles_spec cfg computed (List.length (Snapshot.heap st))
              (Snapshot.newNodeData rootRect e pc) bc st)
    as (E1 & _ & _ & E4 & _ & (s & Es)).
  destruct (Snapshot.extractStyles _ _ _ _ _ _) as [nd1 st1].
  cbn [fst snd] in *. subst nd1.
  assert (Hnd : Snapshot.clip_inherited rootRect root
                  (Snapshot.with_styles (Snapshot.newNodeData rootRect e pc) s)).
  { eapply clip_inherited_ext; [..|apply (clip_inherited_new _ _ _ _ Hin)];
      reflexivity. }
  assert (Haddr : forall nd, (List.length (Snapshot.heap st)
            < List.length (Snapshot.heap (Snapshot.store nd st1)))%nat).
  { intros nd. cbn. rewrite E1, length_app. cbn. lia. }
  assert (Hnode : forall nd ids, Snapshot.clip_inherited rootRect root nd ->
            wf (Snapshot.push_node
                  (Snapshot.add_processed (Snapshot.store nd st1) ids)
                  (List.length (Snapshot.heap st)))).
  { intros nd ids Hg. apply wf_push_node; [|apply Haddr].
    apply wf_add_processed. now apply wf_store. }
  assert (Hrest : forall nd, Snapshot.clip_inherited rootRect root nd ->
    let r := Snapshot.withChildren cfg
               (fun child nextBatch s0 =>
                  Snapshot.captureNode cfg rootRect child nextBatch
                    (Snapshot.handed_down rootRect e pc) s0)
               bc kids
               (Snapshot.push_node
                  (Snapshot.add_processed (Snapshot.store nd st1) [uid])
                  (List.length (Snapshot.heap st))) in
    wf r /\ (List.length (Snapshot.batches st) <= List.length (Snapshot.batches r))%nat).
  { intros nd Hg r.
    destruct (withChildren_wf
                (fun child nextBatch s0 =>
                  Snapshot.captureNode cfg rootRect child nextBatch
                    (Snapshot.handed_down rootRect e pc) s0)
                bc kids
                (Snapshot.push_node
                  (Snapshot.add_processed (Snapshot.store nd st1) [uid])
                  (List.length (Snapshot.heap st)))) as [Hr Hl].
    - intros child nb s0 Hc Hs0. apply IH; [assumption| |assumption].
      now apply Snapshot.inherits_child.
    - now apply Hnode.
    - split; [exact Hr|]. fold r in Hl. cbn in Hl. lia. }
  assert (Htext : forall nd, Snapshot.clip_inherited rootRect root nd ->
            Snapshot.clip_inherited rootRect root
              (Snapshot.with_text nd (Some (JS.trim (Dom.textContent e))))).
  { intros nd. apply clip_inherited_ext; reflexivity. }
  destruct (Snapshot.getNodeType e computed).
  - destruct (String.eqb _ _).
    + split; [apply wf_store; auto|cbn; lia].
    + split; [apply Hnode; auto|cbn; lia].
  - apply Hrest. now apply clip_inherited_withContent.
  - apply Hrest. now apply clip_inherited_withContent.
Qed.

End TraversalProps.

(** ** Resolution of the queued work *)

Section ResolutionProps.

(** A property of node objects that their styles do not affect. *)
Variable P : Snapshot.nodeData -> Prop.
Hypothesis P_styles : forall nd s, P nd -> P (Snapshot.with_styles nd s).

Lemma update_styles_keeps addr f h :
  Forall P h -> Forall P (Snapshot.update_styles addr f h).
Proof.
  intros H. unfold Snapshot.update_styles. apply Forall_alter; [assumption|].
  intros nd _ Hnd. now apply P_styles.
Qed.

Lemma applyProcessed_keeps processed : forall i bnodes h,
  Forall P h -> Forall P (fst (Snapshot.applyProcessed processed i bnodes h)).
Proof.
  induction processed as [|style rest IH]; intros i bnodes h Hh; cbn; [assumption|].
  destruct (bnodes !! i); cbn; [|assumption].
  apply IH. now apply update_styles_keeps.
Qed.

Lemma processLocally_from_ok bnodes : forall i raws h,
  (i + List.length bnodes <= List.length raws)%nat ->
  Forall P h ->
  exists h', Snapshot.processLocally_from bnodes i raws h = Snapshot.Ok h'
             /\ Forall P h'.
Proof.
  induction bnodes as [|addr rest IH]; intros i raws h Hlen Hh; cbn.
  - eauto.
  - cbn in Hlen. destruct (lookup_lt_is_Some_2 raws i) as [raw ->]; [lia|].
    apply IH; [lia|]. now apply update_styles_keeps.
Qed.

Lemma processBatchLocally_ok b h :
  Snapshot.batch_ok b -> Forall P h ->
  exists h', Snapshot.processBatchLocally b h = Snapshot.Ok h' /\ Forall P h'.
Proof.
  intros Hb Hh. unfold Snapshot.processBatchLocally.
  apply processLocally_from_ok; [|assumption]. unfold Snapshot.batch_ok in Hb. lia.
Qed.

Lemma resolveStyle_ok cfg b h :
  Snapshot.batch_ok b -> Forall P h ->
  exists h', Snapshot.resolveStyle cfg b h = Snapshot.Ok h' /\ Forall P h'.
Proof.
  intros Hb Hh. unfold Snapshot.resolveStyle.
  destruct (Snapshot.styleWorker cfg) as [execute|];
    [|now apply processBatchLocally_ok].
  destruct (execute _) as [[processed|]|]; try now apply processBatchLocally_ok.
  pose proof (applyProcessed_keeps processed 0 (Snapshot.batch_nodes b) h Hh) as Hk.
  destruct (Snapshot.applyProcessed _ _ _ _) as [h' threw]. cbn [fst] in Hk.
  destruct threw; [now apply processBatchLocally_ok|eauto].
Qed.

Lemma resolveStyles_ok cfg bs pending : forall h,
  Forall Snapshot.batch_ok bs ->
  Forall (fun p => (p < List.length bs)%nat) pending ->
  Forall P h ->
  exists h', Snapshot.resolveStyles cfg bs pending h = Snapshot.Ok h' /\ Forall P h'.
Proof.
  induction pending as [|p rest IH]; intros h Hbs Hp Hh; cbn; [eauto|].
  inversion Hp as [|? ? Hlt Hrest]; subst.
  destruct (lookup_lt_is_Some_2 bs p Hlt) as [b Hb]. rewrite Hb.
  assert (Hok : Snapshot.batch_ok b).
  { rewrite Forall_lookup in Hbs. eapply Hbs, Hb. }
  destruct (resolveStyle_ok cfg b h Hok Hh) as (h1 & -> & Hh1).
  now apply IH.
Qed.

Lemma resolveGradient_keeps execute task h :
  Forall P h -> Forall P (Snapshot.resolveGradient execute task h).
Proof.
  intros Hh. destruct task as [addr bg]. unfold Snapshot.resolveGradient.
  destruct (execute bg) as [[g|]|];
    try destruct (Gradient.parseGradient bg);
    auto using update_styles_keeps.
Qed.

Lemma managed_gradients_keep execute tasks : forall h,
  Forall P h ->
  Forall P (fold_left (fun h t => Snapshot.resolveGradient execute t h) tasks h).
Proof.
  induction tasks as [|t rest IH]; intros h Hh; cbn; [assumption|].
  apply IH. now apply resolveGradient_keeps.
Qed.

Lemma resolveGradients_keeps cfg tasks h h' :
  Forall P h ->
  Snapshot.resolveGradients cfg tasks h = Snapshot.Ok h' -> Forall P h'.
Proof.
  intros Hh. unfold Snapshot.resolveGradients.
  destruct (Snapshot.gradientWorker cfg) as [[execute|firstMessage|]|].
  - intros [= <-]. now apply managed_gradients_keep.
  - destruct tasks as [|[addr bg] [|t2 rest]]; try discriminate.
    + now intros [= <-].
    + destruct (firstMessage bg) as [[g|]|]; try discriminate; intros [= <-];
        auto using update_styles_keeps.
  - now intros [= <-].
  - now intros [= <-].
Qed.

Lemma resolveGradients_settle cfg tasks h :
  Snapshot.settles cfg -> exists h', Snapshot.resolveGradients cfg tasks h = Snapshot.Ok h'.
Proof.
  unfold Snapshot.settles, Snapshot.resolveGradients.
  destruct (Snapshot.gradientWorker cfg) as [[execute|firstMessage|]|];
    intros H; try contradiction; eauto.
Qed.

End ResolutionProps.

Lemma wf_initial rootRect root : Snapshot.wf rootRect root Snapshot.initial.
Proof. repeat split; constructor. Qed.

(** Every node of a snapshot satisfies what the traversal established for
    the node objects, as long as styles do not affect it. *)
Lemma capture_nodes cfg (root : Dom.element) snap :
  Snapshot.capture cfg (Some root) = Snapshot.Ok (Some snap) ->
  Forall (Snapshot.clip_inherited (Dom.bounds_of root) root)
         (Snapshot.snap_nodes snap).
Proof.
  unfold Snapshot.capture.
  set (rootRect := Dom.bounds_of root).
  destruct (captureNode_wf cfg rootRect root root None None Snapshot.initial
              (Snapshot.inherits_root _ _) (wf_initial _ _))
    as [(Hh & Hb & Hp & Hn) _].
  set (st := Snapshot.captureNode cfg rootRect root None None Snapshot.initial) in *.
  assert (HP : forall nd s, Snapshot.clip_inherited rootRect root nd ->
                 Snapshot.clip_inherited rootRect root (Snapshot.with_styles nd s)).
  { intros nd s. apply clip_inherited_ext; reflexivity. }
  destruct (resolveStyles_ok _ HP cfg (Snapshot.batches st)
              (Snapshot.stylePromises st) (Snapshot.heap st) Hb Hp Hh)
    as (h1 & -> & Hh1).
  destruct (Snapshot.resolveGradients cfg (Snapshot.gradientPromises st) h1)
    as [h2| |] eqn:Hg; try discriminate.
  intros [= <-]. cbn [Snapshot.snap_nodes].
  pose proof (resolveGradients_keeps _ HP cfg _ h1 h2 Hh1 Hg) as Hh2.
  apply Forall_forall. intros nd Hnd.
  apply list_elem_of_omap in Hnd as (a & _ & Ha).
  rewrite Forall_lookup in Hh2. eapply Hh2, Ha.
Qed.

(** With any gradient worker but a bare [Worker], a present root gives a
    snapshot. *)
Lemma capture_settles cfg (root : Dom.element) :
  Snapshot.settles cfg ->
  exists snap, Snapshot.capture cfg (Some root) = Snapshot.Ok (Some snap).
Proof.
  intros Hs. unfold Snapshot.capture.
  set (rootRect := Dom.bounds_of root).
  destruct (captureNode_wf cfg rootRect root root None None Snapshot.initial
              (Snapshot.inherits_root _ _) (wf_initial _ _))
    as [(Hh & Hb & Hp & Hn) _].
  set (st := Snapshot.captureNode cfg rootRect root None None Snapshot.initial) in *.
  destruct (resolveStyles_ok (fun _ => True) (fun _ _ _ => I) cfg (Snapshot.batches st)
              (Snapshot.stylePromises st) (Snapshot.heap st) Hb Hp)
    as (h1 & -> & _).
  { apply Forall_forall. auto. }
  destruct (resolveGradients_settle cfg (Snapshot.gradientPromises st) h1 Hs)
    as (h2 & ->).
  eauto.
Qed.

(** ** The traversal of [CanvasEngine.jsx] *)

Lemma canvas_clip_inherited_ext rootRect root (nd nd' : CanvasEngine.nodeData) :
  CanvasEngine.x nd' = CanvasEngine.x nd -> CanvasEngine.y nd' = CanvasEngine.y nd ->
  CanvasEngine.width nd' = CanvasEngine.width nd ->
  CanvasEngine.height nd' = CanvasEngine.height nd ->
  CanvasEngine.clip nd' = CanvasEngine.clip nd ->
  CanvasEngine.clip_inherited rootRect root nd ->
  CanvasEngine.clip_inherited rootRect root nd'.
Proof.
  intros Hx Hy Hw Hh Hc (e & pc & Hin & Hr & Hcl).
  exists e, pc. unfold CanvasEngine.recorded_for in *.
  rewrite Hx, Hy, Hw, Hh, Hc. auto.
Qed.

Lemma canvas_clip_inherited_new rootRect root e pc :
  CanvasEngine.inherits rootRect root e pc ->
  CanvasEngine.clip_inherited rootRect root (CanvasEngine.newNodeData rootRect e pc).
Proof.
  intros Hin. exists e, pc. split; [assumption|].
  destruct e as [uid tag attrs bounds computed kids].
  unfold CanvasEngine.recorded_for. cbn. auto.
Qed.

Lemma canvas_clip_inherited_withContent rootRect root resolve attrs kids nd :
  CanvasEngine.clip_inherited rootRect root nd ->
  CanvasEngine.clip_inherited rootRect root
    (CanvasEngine.withContent resolve attrs kids nd).
Proof.
  apply canvas_clip_inherited_ext; unfold CanvasEngine.withContent;
    destruct (CanvasEngine.type nd), (Snapshot.directTexts kids); reflexivity.
Qed.

Lemma canvas_captureNode_wf cfg pg rootRect root e : forall pc st,
  CanvasEngine.inherits rootRect root e pc ->
  CanvasEngine.wf rootRect root st ->
  CanvasEngine.wf rootRect root (CanvasEngine.captureNode cfg rootRect pg e pc st).
Proof.
  induction e as [uid tag attrs bounds computed kids IH] using element_rect.
  intros pc st Hin Hwf. cbn [CanvasEngine.captureNode].
  destruct (bool_decide _); [assumption|].
  destruct (Snapshot.hidden _); [assumption|].
  set (e := Dom.Element uid tag attrs bounds computed kids) in *.
  assert (Hnd : CanvasEngine.clip_inherited rootRect root
                  (CanvasEngine.with_styles (CanvasEngine.newNodeData rootRect e pc)
                     (CanvasEngine.immediateStyles cfg pg computed))).
  { eapply canvas_clip_inherited_ext;
      [..|apply (canvas_clip_inherited_new _ _ _ _ Hin)]; reflexivity. }
  assert (Hstore : forall nd, CanvasEngine.clip_inherited rootRect root nd ->
            CanvasEngine.wf rootRect root (CanvasEngine.store cfg computed nd st)).
  { intros nd Hg. unfold CanvasEngine.wf, CanvasEngine.store. cbn.
    apply Forall_app; split; [exact Hwf|]. now constructor. }
  destruct (CanvasEngine.getNodeType e computed).
  - destruct (String.eqb _ _); apply Hstore;
      (eapply canvas_clip_inherited_ext; [..|exact Hnd]; reflexivity).
  - apply (for_children_invariant (CanvasEngine.wf rootRect root)).
    + intros child s Hc Hs. apply IH; [assumption| |assumption].
      now apply CanvasEngine.inherits_child.
    + apply Hstore. now apply canvas_clip_inherited_withContent.
  - apply (for_children_invariant (CanvasEngine.wf rootRect root)).
    + intros child s Hc Hs. apply IH; [assumption| |assumption].
      now apply CanvasEngine.inherits_child.
    + apply Hstore. now apply canvas_clip_inherited_withContent.
Qed.

Lemma canvas_recorded_inherited cfg pg root :
  Forall (CanvasEngine.clip_inherited (Dom.bounds_of root) root)
         (CanvasEngine.recorded cfg pg root).
Proof.
  unfold CanvasEngine.recorded.
  pose proof (canvas_captureNode_wf cfg pg (Dom.bounds_of root) root root None
                CanvasEngine.initial (CanvasEngine.inherits_root _ _)) as H.
  specialize (H ltac:(constructor)). unfold CanvasEngine.wf in H.
  apply Forall_forall. intros nd Hnd.
  apply list_elem_of_omap in Hnd as (a & _ & Ha).
  rewrite Forall_lookup in H. eapply H, Ha.
Qed.

Lemma clips_overflow_clipping uid tag attrs bounds computed kids :
  Snapshot.clips_overflow computed = true
  <-> SelfClip.clipping (Dom.Element uid tag attrs bounds computed kids).
Proof.
  unfold Snapshot.clips_overflow, SelfClip.clipping, SelfClip.overflow_of, Style.prop_is.
  destruct (computed !! "overflow") as [v|]; cbn.
  - rewrite orb_true_iff, !String.eqb_eq. split; intros [H|H]; [left|right|left|right];
      congruence.
  - split; [discriminate|]. intros [H|H]; discriminate.
Qed.

(** The intersection the capturers compute is what is left of the parent
    clip inside the box, whatever the radii. *)
Lemma intersect_cut p x y w h r :
  SelfClip.cut p (x, y, w, h)
    (Snapshot.intersect p
       {| Snapshot.clip_x := x; Snapshot.clip_y := y; Snapshot.clip_width := w;
          Snapshot.clip_height := h; Snapshot.clip_radius := r |}).
Proof.
  intros px py pw ph x' y' w' h' Hp Hb.
  injection Hb as -> -> -> ->.
  destruct p as [cx cy cw ch cr]. unfold SelfClip.rectangle in Hp. cbn in Hp.
  injection Hp as -> -> -> ->.
  split.
  - intros [Hx Hy] a b.
    destruct (intersect_overlapping px py pw ph 0 x' y' w' h' r Hx Hy) as [Hc _].
    specialize (Hc a b). exact Hc.
  - intros Hd. exact (intersect_degenerate px py pw ph 0 x' y' w' h' r Hd).
Qed.

(** What [captureNode] of [WebEngine.jsx] passes down the tree is the
    inherited clip of the rule. *)
Lemma inherits_by_rule rootRect root e pc :
  Snapshot.inherits rootRect root e pc ->
  SelfClip.inherited (Snapshot.placed rootRect) root e pc.
Proof.
  induction 1 as [|parent pc child Hin IH Hchild]; [constructor|].
  destruct parent as [uid tag attrs bounds computed kids] eqn:Ep.
  unfold Snapshot.handed_down.
  destruct (Snapshot.placed rootRect (Dom.Element uid tag attrs bounds computed kids))
    as [[[x y] w] h] eqn:Hbox.
  unfold Snapshot.currentClip.
  destruct (Snapshot.clips_overflow computed) eqn:Hc.
  - apply (clips_overflow_clipping uid tag attrs bounds) with (kids := kids) in Hc.
    destruct pc as [p|].
    + eapply SelfClip.inherited_cut; [exact IH|exact Hchild|exact Hc|].
      rewrite Hbox. apply intersect_cut.
    + eapply SelfClip.inherited_box; [exact IH|exact Hchild|exact Hc|].
      rewrite Hbox. reflexivity.
  - eapply SelfClip.inherited_through; [exact IH|exact Hchild|].
    intros Hcl. apply clips_overflow_clipping in Hcl. congruence.
Qed.

(** The same for [captureNode] of [CanvasEngine.jsx]. *)
Lemma canvas_inherits_by_rule rootRect root e pc :
  CanvasEngine.inherits rootRect root e pc ->
  SelfClip.inherited (CanvasEngine.placed rootRect) root e pc.
Proof.
  induction 1 as [|parent pc child Hin IH Hchild]; [constructor|].
  destruct parent as [uid tag attrs bounds computed kids] eqn:Ep.
  unfold CanvasEngine.handed_down.
  destruct (CanvasEngine.placed rootRect (Dom.Element uid tag attrs bounds computed kids))
    as [[[x y] w] h] eqn:Hbox.
  unfold CanvasEngine.currentClip.
  destruct (Snapshot.clips_overflow computed) eqn:Hc.
  - apply (clips_overflow_clipping uid tag attrs bounds) with (kids := kids) in Hc.
    destruct pc as [p|].
    + eapply SelfClip.inherited_cut; [exact IH|exact Hchild|exact Hc|].
      rewrite Hbox. apply intersect_cut.
    + eapply SelfClip.inherited_box; [exact IH|exact Hchild|exact Hc|].
      rewrite Hbox. reflexivity.
  - eapply SelfClip.inherited_through; [exact IH|exact Hchild|].
    intros Hcl. apply clips_overflow_clipping in Hcl. congruence.
Qed.


(** What [capture] does for every configuration: [null] exactly for an
    absent root, and no exception.  With a gradient worker that is not a
    bare [Worker] a present root gives a snapshot. *)
Lemma capture_null_and_never_throws cfg :
  Snapshot.capture cfg None = Snapshot.Ok None
  /\ (forall element, Snapshot.capture cfg element = Snapshot.Ok None
                      <-> element = None)
  /\ (forall element, Snapshot.capture cfg element <> Snapshot.Throw)
  /\ (Snapshot.settles cfg ->
      forall root, exists snap,
        Snapshot.capture cfg (Some root) = Snapshot.Ok (Some snap)).
Proof.
  assert (Hsome : forall root,
            Snapshot.capture cfg (Some root) = Snapshot.Pending
            \/ exists snap, Snapshot.capture cfg (Some root) = Snapshot.Ok (Some snap)).
  { intros root. unfold Snapshot.capture.
    set (rootRect := Dom.bounds_of root).
    destruct (captureNode_wf cfg rootRect root root None None Snapshot.initial
                (Snapshot.inherits_root _ _) (wf_initial _ _))
      as [(Hh & Hb & Hp & Hn) _].
    set (st := Snapshot.captureNode cfg rootRect root None None Snapshot.initial) in *.
    destruct (resolveStyles_ok (fun _ => True) (fun _ _ _ => I) cfg (Snapshot.batches st)
                (Snapshot.stylePromises st) (Snapshot.heap st) Hb Hp)
      as (h1 & -> & _).
    { apply Forall_forall. auto. }
    assert (Hg : Snapshot.resolveGradients cfg (Snapshot.gradientPromises st) h1
                 <> Snapshot.Throw).
    { unfold Snapshot.resolveGradients.
      destruct (Snapshot.gradientWorker cfg) as [[execute|firstMessage|]|];
        try discriminate.
      destruct (Snapshot.gradientPromises st) as [|[addr bg] [|t2 rest]];
        try discriminate.
      destruct (firstMessage bg) as [[g|]|]; discriminate. }
    destruct (Snapshot.resolveGradients cfg (Snapshot.gradientPromises st) h1);
      [right; eauto|contradiction|now left]. }
  split; [reflexivity|]. split; [|split].
  - intros [root|]; split; try reflexivity; try discriminate.
    destruct (Hsome root) as [->|(snap & ->)]; discriminate.
  - intros [root|]; [|discriminate].
    destruct (Hsome root) as [->|(snap & ->)]; discriminate.
  - intros Hs root. now apply capture_settles.
Qed.

(** C7. Two inputs on which [capture] does not do what is claimed.  With a
    bare [Worker] as gradient worker and two elements that have a
    background image, every queued task sets [onmessage] anew, the promise
    of the first task never settles and [capture] never returns, although
    the worker answers every request.  And for an element whose computed
    [zIndex], [lineHeight] and [fontSize] do not parse, the style record
    keeps [NaN] as [zIndex] and as [lineHeight], where the node's own
    [zIndex] and the [fontSize] of the record take their defaults. *)
Theorem capture_pending_and_NaN_styles :
  Snapshot.capture Cases.bare (Some Cases.twoGradients) = Snapshot.Pending
  /\ exists nd,
       Snapshot.snap_nodes <$> Snapshot.capture_result Sample.local Cases.unreadable
       = Some [nd]
       /\ Snapshot.styles nd !! "zIndex" = Some (Style.VNum JS.NaN)
       /\ Snapshot.styles nd !! "lineHeight" = Some (Style.VNum JS.NaN)
       /\ Snapshot.zIndex nd = JS.Fin 0
       /\ Snapshot.styles nd !! "fontSize" = Some (Style.VNum (JS.Fin 12)).
Proof.
  split; [vm_compute; reflexivity|].
  eexists. split; [vm_compute; reflexivity|].
  repeat split; vm_compute; reflexivity.
Qed.


(** The label of the sample lies below two clipping boxes: it inherits
    what is left of the clip of the root inside the inner box. *)
Example sample_label_clip :
  (Snapshot.clip <$> Snapshot.snap_nodes Sample.snapshot !! 2%nat)
  = Some (Some {| Snapshot.clip_x := JS.Fin 10; Snapshot.clip_y := JS.Fin 10;
                  Snapshot.clip_width := JS.Fin 90; Snapshot.clip_height := JS.Fin 90;
                  Snapshot.clip_radius := JS.Fin (10000 # 100) |}).
Proof. vm_compute. reflexivity. Qed.

Example sample_second_clip :
  Snapshot.clip Sample.second = Some (Snapshot.region 0 0 100 100 0).
Proof. vm_compute. reflexivity. Qed.

Example sample_root_unclipped :
  Snapshot.clips_overflow (list_to_map [("overflow", "hidden")]) = true
  /\ (Snapshot.clip <$> Snapshot.snap_nodes Sample.snapshot !! 0%nat) = Some None.
Proof. split; vm_compute; reflexivity. Qed.

Example canvas_second_clip :
  CanvasEngine.clip CanvasSample.second
  = Some {| Snapshot.clip_x := JS.Fin 0; Snapshot.clip_y := JS.Fin 0;
            Snapshot.clip_width := JS.Fin 100; Snapshot.clip_height := JS.Fin 100;
            Snapshot.clip_radius := JS.Fin 0 |}.
Proof. vm_compute. reflexivity. Qed.

(** ** Draw order *)

Lemma gt_irrefl a : JS.gt a a = false.
Proof.
  destruct a as [| | |q]; try reflexivity.
  apply gt_Fin_false. apply Qle_refl.
Qed.

Lemma gt_asym a b : JS.gt a b = true -> JS.gt b a = false.
Proof.
  destruct a as [| | |x], b as [| | |y]; cbn; try congruence.
  intros H. change (JS.gt (JS.Fin x) (JS.Fin y) = true) in H.
  change (JS.gt (JS.Fin y) (JS.Fin x) = false).
  apply gt_Fin in H. apply gt_Fin_false. lra.
Qed.

Lemma le_trans a b c :
  Render.is_number b -> Render.le a b -> Render.le b c -> Render.le a c.
Proof.
  unfold Render.le, Render.is_number.
  destruct a as [| | |x], b as [| | |y], c as [| | |z]; cbn; try congruence.
  intros _ H1 H2.
  change (JS.gt (JS.Fin x) (JS.Fin y) = false) in H1.
  change (JS.gt (JS.Fin y) (JS.Fin z) = false) in H2.
  change (JS.gt (JS.Fin x) (JS.Fin z) = false).
  apply gt_Fin_false in H1, H2. apply gt_Fin_false. lra.
Qed.

Lemma gt_sub a b :
  Render.is_number a -> Render.is_number b ->
  JS.gt (JS.sub a b) JS.zero = JS.gt a b.
Proof.
  unfold Render.is_number.
  destruct a as [| | |x], b as [| | |y]; cbn; try congruence.
  intros _ _.
  change (JS.gt (JS.Fin (x + - y)) (JS.Fin 0) = JS.gt (JS.Fin x) (JS.Fin y)).
  destruct (JS.gt (JS.Fin x) (JS.Fin y)) eqn:H.
  - apply gt_Fin in H. apply gt_Fin. lra.
  - apply gt_Fin_false in H. apply gt_Fin_false. lra.
Qed.

Lemma eqb_gt a b : JS.eqb a b = true -> JS.gt a b = false.
Proof.
  destruct a as [| | |x], b as [| | |y]; cbn; try congruence.
  intros H. apply Qeq_bool_iff in H.
  change (JS.gt (JS.Fin x) (JS.Fin y) = false). apply gt_Fin_false. lra.
Qed.

Lemma eqb_trans_l a b k :
  JS.eqb a k = true -> JS.eqb b k = true -> JS.eqb a b = true.
Proof.
  destruct a as [| | |x], b as [| | |y], k as [| | |z]; cbn; try congruence.
  rewrite !Qeq_bool_iff. intros -> ->. reflexivity.
Qed.

Section SortProps.

Context {A : Type}.
Variable key : A -> JS.num.

Local Abbreviation cmp := (fun a b : A => JS.sub (key a) (key b)).
Local Abbreviation keyed := (Forall (fun a => Render.is_number (key a))).
Local Abbreviation ascending :=
  (StronglySorted (fun a b => Render.le (key a) (key b))).

Lemma insert_perm a l : Permutation (Render.insert cmp a l) (a :: l).
Proof.
  induction l as [|b l IH]; cbn; [reflexivity|].
  destruct (JS.gt _ _); [|reflexivity].
  rewrite IH. apply perm_swap.
Qed.

Lemma sort_perm l : Permutation (Render.sort cmp l) l.
Proof.
  induction l as [|a l IH]; cbn; [reflexivity|].
  unfold Render.sort in IH. rewrite insert_perm. now constructor.
Qed.

Lemma insert_keyed a l :
  Render.is_number (key a) -> keyed l -> keyed (Render.insert cmp a l).
Proof.
  intros Ha Hl. pose proof (insert_perm a l) as Hp.
  eapply Permutation_Forall; [symmetry; exact Hp|]. now constructor.
Qed.

Lemma sort_keyed l : keyed l -> keyed (Render.sort cmp l).
Proof.
  intros Hl. eapply Permutation_Forall; [symmetry; apply sort_perm|exact Hl].
Qed.

Lemma insert_ascending a l :
  Render.is_number (key a) -> keyed l -> ascending l ->
  ascending (Render.insert cmp a l).
Proof.
  intros Ha Hl Hs. induction Hs as [|b l Hs IH Hb]; cbn.
  - repeat constructor.
  - inversion Hl as [|? ? Hkb Hl']; subst.
    rewrite gt_sub by assumption.
    destruct (JS.gt (key a) (key b)) eqn:Hab.
    + constructor; [now apply IH|].
      eapply Permutation_Forall; [symmetry; apply insert_perm|].
      constructor; [|assumption]. now apply gt_asym.
    + constructor; [now constructor|].
      constructor; [exact Hab|].
      eapply Forall_impl; [exact Hb|]. cbn. intros c Hc.
      now apply le_trans with (key b).
Qed.

Lemma sort_ascending l : keyed l -> ascending (Render.sort cmp l).
Proof.
  induction l as [|a l IH]; intros Hl; cbn; [constructor|].
  inversion Hl; subst.
  apply insert_ascending; [assumption|now apply sort_keyed|now apply IH].
Qed.

Lemma insert_stable k a l :
  keyed (a :: l) ->
  Render.with_key key k (Render.insert cmp a l) = Render.with_key key k (a :: l).
Proof.
  intros Hl. inversion Hl as [|? ? Ha Hl']; subst. clear Hl.
  induction l as [|b l IH]; [reflexivity|].
  inversion Hl' as [|? ? Hb Hl'']; subst.
  cbn [Render.insert]. rewrite gt_sub by assumption.
  destruct (JS.gt (key a) (key b)) eqn:Hab; [|reflexivity].
  unfold Render.with_key in *. cbn [List.filter] in *.
  rewrite IH by assumption.
  destruct (JS.eqb (key b) k) eqn:Hbk, (JS.eqb (key a) k) eqn:Hak; try reflexivity.
  pose proof (eqb_gt _ _ (eqb_trans_l _ _ _ Hak Hbk)). congruence.
Qed.

Lemma sort_stable k l :
  keyed l -> Render.with_key key k (Render.sort cmp l) = Render.with_key key k l.
Proof.
  induction l as [|a l IH]; intros Hl; [reflexivity|].
  inversion Hl; subst. cbn [Render.sort foldr].
  rewrite insert_stable by (constructor; [assumption|now apply sort_keyed]).
  unfold Render.with_key in *. cbn [List.filter].
  unfold Render.sort in IH. now rewrite IH.
Qed.

End SortProps.

Section SortAgreement.

Context {A : Type}.
Variables compare compare' : A -> A -> JS.num.

Lemma insert_In a l b : In b (Render.insert compare a l) -> b = a \/ In b l.
Proof.
  induction l as [|c l IH]; cbn.
  - intros [<-|[]]. now left.
  - destruct (JS.gt _ _); cbn; intros [<-|H]; auto.
    destruct (IH H); auto.
Qed.

Lemma sort_In l b : In b (Render.sort compare l) -> In b l.
Proof.
  revert b. induction l as [|a l IH]; intros b; cbn; [auto|].
  intros H. apply insert_In in H as [->|H]; [now left|right; now apply IH].
Qed.

Lemma insert_agree a l :
  (forall b, In b l ->
     JS.gt (compare a b) JS.zero = JS.gt (compare' a b) JS.zero) ->
  Render.insert compare a l = Render.insert compare' a l.
Proof.
  induction l as [|b l IH]; intros H; cbn; [reflexivity|].
  rewrite (H b (or_introl eq_refl)).
  destruct (JS.gt _ _); [|reflexivity].
  f_equal. apply IH. intros c Hc. apply H. now right.
Qed.

(** Two comparators that are positive on the same pairs of a list sort it
    alike. *)
Lemma sort_agree l :
  (forall a b, In a l -> In b l ->
     JS.gt (compare a b) JS.zero = JS.gt (compare' a b) JS.zero) ->
  Render.sort compare l = Render.sort compare' l.
Proof.
  induction l as [|a l IH]; intros H; [reflexivity|].
  cbn [Render.sort foldr]. fold (Render.sort compare l) (Render.sort compare' l).
  rewrite <- IH by (intros; apply H; now right).
  apply insert_agree. intros b Hb. apply H; [now left|right; now apply sort_In in Hb].
Qed.

End SortAgreement.

Lemma le_at_most a b :
  Render.is_number a -> Render.is_number b -> Render.le a b -> Render.at_most a b.
Proof.
  unfold Render.is_number, Render.le.
  destruct a as [| | |x], b as [| | |y]; cbn; try congruence; try tauto.
  intros _ _ H. change (JS.gt (JS.Fin x) (JS.Fin y) = false) in H.
  now apply gt_Fin_false.
Qed.

Lemma canvasKey_number nd : Render.is_number (Render.canvasKey nd).
Proof.
  unfold Render.canvasKey, JS.or_else, Render.is_number.
  destruct (Snapshot.zIndex nd); cbn; try discriminate.
  destruct (negb _); discriminate.
Qed.

(** [z || 0] compares as [z] does when [z] is a number. *)
Lemma or_zero_gt a b :
  Render.is_number a -> Render.is_number b ->
  JS.gt (JS.or_else a JS.zero) (JS.or_else b JS.zero) = JS.gt a b.
Proof.
  assert (Hz : forall q, Qeq_bool q 0 = true -> (q == 0)%Q)
    by (intros q; apply Qeq_bool_iff).
  unfold Render.is_number, JS.or_else, JS.truthy, JS.zero.
  destruct a as [| | |x], b as [| | |y]; try congruence; intros _ _;
    repeat match goal with
           | |- context [Qeq_bool ?q 0] =>
               let E := fresh "E" in
               destruct (Qeq_bool q 0) eqn:E; [apply Hz in E|]; cbn [negb]
           end;
    try reflexivity;
    match goal with
    | |- JS.gt (JS.Fin ?u) (JS.Fin ?v) = JS.gt (JS.Fin ?u') (JS.Fin ?v') =>
        destruct (JS.gt (JS.Fin u') (JS.Fin v')) eqn:H;
        [apply gt_Fin in H; apply gt_Fin; lra
        |apply gt_Fin_false in H; apply gt_Fin_false; lra]
    end.
Qed.

(** On nodes whose z-index is a number [renderToCanvas] sorts by the
    z-index itself. *)
Lemma canvasOrder_by_zIndex nodes :
  Forall (fun nd => Render.is_number (Snapshot.zIndex nd)) nodes ->
  Render.canvasOrder nodes = Render.sort (Render.by_key Snapshot.zIndex) nodes.
Proof.
  intros Hn. rewrite List.Forall_forall in Hn.
  apply sort_agree. intros a b Ha Hb. unfold Render.by_key.
  rewrite !gt_sub by auto using canvasKey_number.
  apply or_zero_gt; auto.
Qed.

Lemma pixiKey_as_captured nd :
  Render.styled_as_captured nd -> Render.pixiKey nd = Render.canvasKey nd.
Proof.
  unfold Render.styled_as_captured, Render.pixiKey, Render.canvasKey.
  destruct (Snapshot.styles nd !! "zIndex") as [[| |n|t|fs|items]|]; try contradiction.
  - intros [->|[-> ->]]; reflexivity.
  - intros ->. reflexivity.
Qed.

Lemma pixiOrder_as_canvas nodes :
  Forall Render.styled_as_captured nodes ->
  Render.pixiOrder nodes = Render.canvasOrder nodes.
Proof.
  intros Hs. rewrite List.Forall_forall in Hs.
  apply sort_agree. intros a b Ha Hb. unfold Render.by_key.
  now rewrite !pixiKey_as_captured by auto.
Qed.

Lemma sorted_at_most (l : list Snapshot.nodeData) :
  Forall (fun nd => Render.is_number (Snapshot.zIndex nd)) l ->
  StronglySorted (fun a b => Render.le (Snapshot.zIndex a) (Snapshot.zIndex b)) l ->
  StronglySorted
    (fun a b => Render.at_most (Snapshot.zIndex a) (Snapshot.zIndex b)) l.
Proof.
  intros Hn Hs. induction Hs as [|a l Hs IH Ha]; [constructor|].
  inversion Hn as [|? ? Hna Hnl]; subst.
  constructor; [now apply IH|].
  rewrite List.Forall_forall in *. intros b Hb.
  apply le_at_most; auto.
Qed.

(** The z-index of a node of a snapshot is a number: [parseInt(..) || 0]. *)
Lemma snapshot_zIndex_number cfg (root : Dom.element) snap :
  Snapshot.capture cfg (Some root) = Snapshot.Ok (Some snap) ->
  Forall (fun nd => Render.is_number (Snapshot.zIndex nd)) (Snapshot.snap_nodes snap).
Proof.
  intros Hcap. pose proof (capture_nodes cfg root snap Hcap) as Hall.
  eapply Forall_impl; [exact Hall|].
  intros nd (e & pc & _ & (_ & _ & Hz) & _). rewrite Hz.
  destruct e as [uid tag attrs bounds computed kids].
  unfold JS.or_else, Render.is_number.
  destruct (Style.parseIntO (computed !! "zIndex")); cbn; try discriminate.
  destruct (negb _); discriminate.
Qed.

(** The order of drawing on nodes whose z-index is a number. *)
Lemma draw_order_of_numbers (nodes : list Snapshot.nodeData) :
  Forall (fun nd => Render.is_number (Snapshot.zIndex nd)) nodes ->
  (Permutation (Render.canvasOrder nodes) nodes
   /\ StronglySorted
        (fun a b => Render.at_most (Snapshot.zIndex a) (Snapshot.zIndex b))
        (Render.canvasOrder nodes)
   /\ forall k, Render.with_key Snapshot.zIndex k (Render.canvasOrder nodes)
                = Render.with_key Snapshot.zIndex k nodes)
  /\ (Forall Render.styled_as_captured nodes ->
      Render.pixiOrder nodes = Render.canvasOrder nodes).
Proof.
  intros Hn. split; [|apply pixiOrder_as_canvas].
  rewrite canvasOrder_by_zIndex by exact Hn. unfold Render.by_key.
  split; [apply sort_perm|]. split; [|intros k; now apply sort_stable].
  apply sorted_at_most; [now apply sort_keyed|now apply sort_ascending].
Qed.

(** C9. [renderToCanvas] draws the nodes of a snapshot in an order that is
    a permutation of the nodes in which no node comes before a node of
    smaller z-index, and in which the nodes of one z-index keep the order
    of capture.  [PixiRendererEngine.render] reads the z-index from the
    style record; when every record holds the z-index [extractStyles] gave
    it, it draws the nodes in an order with the same three properties. *)
Theorem draw_order_ascending_stable cfg (root : Dom.element) snap :
  Snapshot.capture cfg (Some root) = Snapshot.Ok (Some snap) ->
  let nodes := Snapshot.snap_nodes snap in
  (Permutation (Render.canvasOrder nodes) nodes
   /\ StronglySorted
        (fun a b => Render.at_most (Snapshot.zIndex a) (Snapshot.zIndex b))
        (Render.canvasOrder nodes)
   /\ forall k, Render.with_key Snapshot.zIndex k (Render.canvasOrder nodes)
                = Render.with_key Snapshot.zIndex k nodes)
  /\ (Forall Render.styled_as_captured nodes ->
      Permutation (Render.pixiOrder nodes) nodes
      /\ StronglySorted
           (fun a b => Render.at_most (Snapshot.zIndex a) (Snapshot.zIndex b))
           (Render.pixiOrder nodes)
      /\ forall k, Render.with_key Snapshot.zIndex k (Render.pixiOrder nodes)
                   = Render.with_key Snapshot.zIndex k nodes).
Proof.
  intros Hcap nodes.
  destruct (draw_order_of_numbers nodes (snapshot_zIndex_number cfg root snap Hcap))
    as [Hcanvas Hpixi].
  split; [exact Hcanvas|].
  intros Hs. now rewrite (Hpixi Hs).
Qed.

Lemma draw_order_ascending_stable_witness :
  StronglySorted
    (fun a b => Render.at_most (Snapshot.zIndex a) (Snapshot.zIndex b))
    (Render.canvasOrder (Snapshot.snap_nodes Sample.layered))
  /\ StronglySorted
       (fun a b => Render.at_most (Snapshot.zIndex a) (Snapshot.zIndex b))
       (Render.pixiOrder (Snapshot.snap_nodes Sample.layered))
  /\ Render.with_key Snapshot.zIndex (JS.Fin 1)
       (Render.pixiOrder (Snapshot.snap_nodes Sample.layered))
     = Render.with_key Snapshot.zIndex (JS.Fin 1) (Snapshot.snap_nodes Sample.layered).
Proof.
  destruct (draw_order_ascending_stable Sample.local Sample.layers Sample.layered)
    as [Hcanvas Hpixi].
  - vm_compute. reflexivity.
  - destruct Hpixi as (_ & Hsorted & Hstable).
    + vm_compute. repeat constructor; left; reflexivity.
    + split; [apply Hcanvas|]. split; [exact Hsorted|apply Hstable].
Defined.

(** The sample is captured with the z-indices 0, 2, 1, 1 and -1; both
    renderers draw the box at 5 first, then the root, the boxes at 3 and
    at 4 in this order, and the box at 2 last. *)
Example layered_order :
  map Snapshot.zIndex (Snapshot.snap_nodes Sample.layered)
  = [JS.Fin 0; JS.Fin 2; JS.Fin 1; JS.Fin 1; JS.Fin (-1)]
  /\ map Snapshot.x (Render.canvasOrder (Snapshot.snap_nodes Sample.layered))
     = map JS.ofNat [5; 0; 3; 4; 2]%nat
  /\ map Snapshot.x (Render.pixiOrder (Snapshot.snap_nodes Sample.layered))
     = map JS.ofNat [5; 0; 3; 4; 2]%nat.
Proof. repeat split; vm_compute; reflexivity. Qed.

(** ** Linear gradient angles *)

(** No angle and no direction: 180 degrees, in each of the three parsers. *)
Lemma default_angle_web content :
  JS.includes (hd "" (Scan.split_top content)) "deg" = false ->
  JS.includes (hd "" (Scan.split_top content)) "to " = false ->
  Cases.angle_of (Gradient.parseLinearGradient content) = Some (JS.Fin 180).
Proof. intros H1 H2. unfold Gradient.parseLinearGradient. now rewrite H1, H2. Qed.

Lemma default_angle_worker content :
  JS.includes (hd "" (Scan.split_top content)) "deg" = false ->
  JS.includes (hd "" (Scan.split_top content)) "to " = false ->
  Cases.worker_angle_of (StyleWorker.parseLinearGradient content) = Some (JS.Fin 180).
Proof. intros H1 H2. unfold StyleWorker.parseLinearGradient. now rewrite H1, H2. Qed.

Example explicit_angle_web :
  Cases.angle_of (Gradient.parseLinearGradient "45deg, red 0%, blue 100%")
  = Some (JS.Fin 45).
Proof. reflexivity. Qed.

Example side_angles_web :
  map (fun c => Cases.angle_of (Gradient.parseLinearGradient c))
      ["to top, red, blue"; "to right, red, blue"; "to bottom, red, blue";
       "to left, red, blue"]
  = [Some (JS.Fin 0); Some (JS.Fin 90); Some (JS.Fin 180); Some (JS.Fin 270)].
Proof. reflexivity. Qed.

Example side_angles_worker :
  map (fun c => Cases.worker_angle_of (StyleWorker.parseLinearGradient c))
      ["to top, red, blue"; "to right, red, blue"; "to bottom, red, blue";
       "to left, red, blue"]
  = [Some (JS.Fin 0); Some (JS.Fin 90); Some (JS.Fin 180); Some (JS.Fin 270)].
Proof. reflexivity. Qed.

(** In the style worker a zero angle is taken for a missing one. *)
Example zero_angle_worker :
  Cases.worker_angle_of (StyleWorker.parseLinearGradient "0deg, red, blue")
  = Some (JS.Fin 180).
Proof. reflexivity. Qed.

(** In the legacy worker the table entry zero of "top" is taken for a
    missing one. *)
Example top_angle_legacy :
  Cases.angle_of (LegacyGradientWorker.parseLinearGradient "to top, red, blue")
  = Some (JS.Fin 180).
Proof. reflexivity. Qed.

(** C3. On "to bottom right" the parser of [GeometrySnapshot] answers 180
    and the parser of the style worker answers 90: each tests the four
    side names one after the other and the last that occurs wins.  The
    legacy gradient worker looks the direction up in a table and answers
    135. *)
Theorem diagonal_angle_by_parser :
  Cases.angle_of (Gradient.parseLinearGradient Cases.diagonal) = Some (JS.Fin 180)
  /\ Cases.worker_angle_of (StyleWorker.parseLinearGradient Cases.diagonal)
     = Some (JS.Fin 90)
  /\ Cases.angle_of (LegacyGradientWorker.parseLinearGradient Cases.diagonal)
     = Some (JS.Fin 135).
Proof. repeat split; reflexivity. Qed.

(** ** Worker and local resolution of raw styles *)

Lemma processBatch_length batch :
  List.length (StyleWorker.processBatch batch) = List.length batch.
Proof. apply length_map. Qed.

Lemma localGradient_other raw s k :
  k <> "gradient" -> Snapshot.localGradient raw s !! k = s !! k.
Proof.
  intros Hk. unfold Snapshot.localGradient.
  destruct (_ && _); [|reflexivity].
  destruct (Gradient.parseGradient _); [|reflexivity].
  now rewrite lookup_insert_ne.
Qed.

(** On the keys of [Cases.agreedKeys] the two resolutions agree for every
    raw style. *)
Lemma resolutions_agree raw k :
  In k Cases.agreedKeys ->
  StyleWorker.processOne raw !! k = Snapshot.resolveLocally raw !! k.
Proof.
  intros Hk. unfold Snapshot.resolveLocally.
  rewrite localGradient_other.
  - cbn in Hk. repeat (destruct Hk as [<-|Hk]; [reflexivity|]). destruct Hk.
  - cbn in Hk. repeat (destruct Hk as [<-|Hk]; [discriminate|]). destruct Hk.
Qed.

(** C8. For the raw style of a box with a two-stop gradient the batch that
    the worker returns has the length of the request, but its fragment is
    not the local one: the worker's gradient stops hold a packed colour, an
    alpha and an [offset] where the local stops hold the colour text and a
    [position], and the worker adds [opacity] where the local path adds
    [display]. *)
Theorem worker_and_local_fragments_differ :
  List.length (StyleWorker.processBatch [Cases.gradientBox]) = 1%nat
  /\ StyleWorker.processOne Cases.gradientBox
     <> Snapshot.resolveLocally Cases.gradientBox
  /\ StyleWorker.processOne Cases.gradientBox !! "gradient"
     = Some (Style.VObj
               [("type", Style.VStr "linear"); ("angle", Style.VNum (JS.Fin 180));
                ("stops",
                 Style.VArr
                   [Style.VObj [("color", Style.VNum (JS.ofZ 0xff0000));
                                ("alpha", Style.VNum JS.one);
                                ("offset", Style.VNum (JS.Fin (0 / 1)))];
                    Style.VObj [("color", Style.VNum (JS.ofZ 0x0000ff));
                                ("alpha", Style.VNum JS.one);
                                ("offset", Style.VNum (JS.Fin (1 / 1)))]])])
  /\ Snapshot.resolveLocally Cases.gradientBox !! "gradient"
     = Some (Style.VObj
               [("type", Style.VStr "linear"); ("angle", Style.VNum (JS.Fin 180));
                ("stops",
                 Style.VArr
                   [Style.VObj [("color", Style.VStr "red");
                                ("position", Style.VNum (JS.Fin (0 / 1)))];
                    Style.VObj [("color", Style.VStr "blue");
                                ("position", Style.VNum (JS.Fin (1 / 1)))]])])
  /\ is_Some (StyleWorker.processOne Cases.gradientBox !! "opacity")
  /\ Snapshot.resolveLocally Cases.gradientBox !! "opacity" = None
  /\ StyleWorker.processOne Cases.gradientBox !! "display" = None
  /\ is_Some (Snapshot.resolveLocally Cases.gradientBox !! "display").
Proof.
  split; [reflexivity|].
  assert (Hop : Snapshot.resolveLocally Cases.gradientBox !! "opacity" = None)
    by (vm_compute; reflexivity).
  assert (Hw : is_Some (StyleWorker.processOne Cases.gradientBox !! "opacity"))
    by (vm_compute; eauto).
  assert (Hd : StyleWorker.processOne Cases.gradientBox !! "display" = None)
    by (vm_compute; reflexivity).
  assert (Hl : is_Some (Snapshot.resolveLocally Cases.gradientBox !! "display"))
    by (vm_compute; eauto).
  split; [|split; [vm_compute; reflexivity|split; [vm_compute; reflexivity|auto]]].
  revert Hop Hw. clear.
  generalize (StyleWorker.processOne Cases.gradientBox) as w.
  generalize (Snapshot.resolveLocally Cases.gradientBox) as l.
  intros l w Hop [v Hv] ->. congruence.
Qed.
(** ** Flex sizing *)

Lemma fold_Qplus_sum l : forall acc, (fold_left Qplus l acc == acc + Layout.Qsum l)%Q.
Proof.
  induction l as [|x l IH]; intros acc; cbn.
  - lra.
  - rewrite IH. lra.
Qed.

Lemma sum_from_Fin l : forall acc,
  fold_left JS.add (map JS.Fin l) (JS.Fin acc) = JS.Fin (fold_left Qplus l acc).
Proof. induction l as [|x l IH]; intros acc; cbn; [reflexivity|apply IH]. Qed.

Lemma sum_Fin l :
  exists q, Layout.sum (map JS.Fin l) = JS.Fin q /\ (q == Layout.Qsum l)%Q.
Proof.
  exists (fold_left Qplus l 0%Q). split; [apply sum_from_Fin|].
  rewrite fold_Qplus_sum. lra.
Qed.

Lemma total_from_Fin (weight : Layout.child -> JS.num) cs : forall ws acc,
  map weight cs = map JS.Fin ws ->
  fold_left (fun s c => JS.add s (weight c)) cs (JS.Fin acc)
  = JS.Fin (fold_left Qplus ws acc).
Proof.
  induction cs as [|c cs IH]; intros [|w ws] acc H; try discriminate; cbn.
  - reflexivity.
  - injection H as Hc Hcs. rewrite Hc. cbn. now apply IH.
Qed.

Lemma total_Fin (weight : Layout.child -> JS.num) cs ws :
  map weight cs = map JS.Fin ws ->
  exists q, Layout.total weight cs = JS.Fin q /\ (q == Layout.Qsum ws)%Q.
Proof.
  intros H. exists (fold_left Qplus ws 0%Q). split.
  - now apply total_from_Fin.
  - rewrite fold_Qplus_sum. lra.
Qed.

Lemma gt_zero_Fin q : JS.gt (JS.Fin q) JS.zero = true <-> (0 < q)%Q.
Proof. apply gt_Fin. Qed.

Lemma gt_zero_Fin_false q : JS.gt (JS.Fin q) JS.zero = false <-> (q <= 0)%Q.
Proof. apply gt_Fin_false. Qed.

Lemma lt_zero_Fin q : JS.lt (JS.Fin q) JS.zero = true <-> (q < 0)%Q.
Proof. apply gt_Fin. Qed.

Lemma div_Fin x y : ~ (y == 0)%Q -> JS.div (JS.Fin x) (JS.Fin y) = JS.Fin (x / y).
Proof.
  intros Hy. unfold JS.div, JS.qsign.
  destruct (0 ?= y)%Q eqn:H; try reflexivity.
  apply Qeq_alt in H. exfalso. apply Hy. now symmetry.
Qed.

Lemma max_zero_Fin x :
  exists q, JS.max JS.zero (JS.Fin x) = JS.Fin q /\ (q == Qmax 0 x)%Q.
Proof.
  unfold JS.zero. destruct (max_Fin_cases 0 x) as [[-> H]|[-> H]]; eexists;
    (split; [reflexivity|]).
  - rewrite Q.max_l; [reflexivity|assumption].
  - rewrite Q.max_r; [reflexivity|]. now apply Qlt_le_weak.
Qed.

Lemma remainingSpace_Fin cs a g axis bs :
  map (Layout.baseSize (JS.Fin a) axis) cs = map JS.Fin bs ->
  exists r, Layout.remainingSpace cs (JS.Fin a) axis (JS.Fin g) = JS.Fin r
            /\ (r == Layout.Qremaining (Layout.Qlen cs) a g bs)%Q.
Proof.
  intros Hb. unfold Layout.remainingSpace. rewrite Hb.
  destruct (sum_Fin bs) as (q & -> & Hq). cbn.
  eexists. split; [reflexivity|].
  unfold Layout.Qremaining, Layout.Qlen. rewrite Hq. lra.
Qed.

Section FlexShares.

Variables r W R Wq : Q.
Hypothesis Hr : (r == R)%Q.
Hypothesis HW : (W == Wq)%Q.
Hypothesis HW0 : ~ (W == 0)%Q.

Lemma grown_shares cs : forall bs ws,
  map Layout.growWeight cs = map JS.Fin ws ->
  List.length bs = List.length cs ->
  Forall2 JS.num_eq
    (zip_with (Layout.grown (JS.Fin r) (JS.Fin W)) (map JS.Fin bs) cs)
    (map JS.Fin (zip_with (fun b w => b + R * w / Wq)%Q bs ws)).
Proof.
  induction cs as [|c cs IH]; intros [|b bs] [|w ws] Hw Hl; try discriminate;
    cbn [zip_with map]; try constructor.
  - injection Hw as Hc Hcs. unfold Layout.grown. rewrite Hc. unfold JS.mul.
    rewrite div_Fin by assumption. unfold JS.add, JS.num_eq. now rewrite Hr, HW.
  - injection Hw as Hc Hcs. apply IH; [assumption|]. cbn in Hl. lia.
Qed.

Lemma shrunk_shares cs : forall bs ss,
  map Layout.shrinkWeight cs = map JS.Fin ss ->
  List.length bs = List.length cs ->
  Forall2 JS.num_eq
    (zip_with (Layout.shrunk (JS.Fin r) (JS.Fin W)) (map JS.Fin bs) cs)
    (map JS.Fin (zip_with (fun b s => Qmax 0 (b - Qabs R * s / Wq))%Q bs ss)).
Proof.
  induction cs as [|c cs IH]; intros [|b bs] [|s ss] Hs Hl; try discriminate;
    cbn [zip_with map]; try constructor.
  - injection Hs as Hc Hcs. unfold Layout.shrunk. rewrite Hc.
    unfold JS.abs, JS.mul. rewrite div_Fin by assumption.
    unfold JS.sub, JS.neg, JS.add.
    destruct (max_zero_Fin (b + - (Qabs r * s / W))) as (q & -> & Hq).
    unfold JS.num_eq. rewrite Hq, Hr, HW. reflexivity.
  - injection Hs as Hc Hcs. apply IH; [assumption|]. cbn in Hl. lia.
Qed.

End FlexShares.

Lemma shares_sum R W ws :
  ~ (W == 0)%Q -> (W == Layout.Qsum ws)%Q ->
  (Layout.Qsum (map (fun w => R * w / W) ws) == R)%Q.
Proof.
  intros HW0 HW.
  assert (H : (Layout.Qsum (map (fun w => R * w / W) ws)
               == R * Layout.Qsum ws / W)%Q).
  { clear HW. induction ws as [|w ws IH]; cbn [map Layout.Qsum].
    - field. assumption.
    - rewrite IH. field. assumption. }
  rewrite H, <- HW. field. assumption.
Qed.

Lemma length_of_map_eq {A B C : Type} (f : A -> C) (g : B -> C) l l' :
  map f l = map g l' -> List.length l = List.length l'.
Proof. intros H. apply (f_equal (@List.length C)) in H. now rewrite !length_map in H. Qed.

Lemma flex_grow cs axis a g bs ws :
  map (Layout.baseSize (JS.Fin a) axis) cs = map JS.Fin bs ->
  map Layout.growWeight cs = map JS.Fin ws ->
  (0 < Layout.Qremaining (Layout.Qlen cs) a g bs)%Q ->
  (0 < Layout.Qsum ws)%Q ->
  Forall2 JS.num_eq
    (Layout.calculateFlexSizes cs (JS.Fin a) axis (JS.Fin g))
    (map JS.Fin
       (zip_with (fun b w => b + Layout.Qremaining (Layout.Qlen cs) a g bs * w
                                 / Layout.Qsum ws)%Q bs ws)).
Proof.
  intros Hb Hw HR HW. unfold Layout.calculateFlexSizes.
  destruct (remainingSpace_Fin cs a g axis bs Hb) as (r & -> & Hr).
  destruct (total_Fin Layout.growWeight cs ws Hw) as (W & -> & HWq).
  rewrite (proj2 (gt_zero_Fin r)) by (rewrite Hr; exact HR).
  rewrite (proj2 (gt_zero_Fin W)) by (rewrite HWq; exact HW).
  rewrite Hb. apply grown_shares; try assumption.
  - rewrite HWq. intros H0. rewrite H0 in HW. now apply Qlt_irrefl in HW.
  - symmetry. eapply length_of_map_eq, Hb.
Qed.

Lemma flex_shrink cs axis a g bs ss :
  map (Layout.baseSize (JS.Fin a) axis) cs = map JS.Fin bs ->
  map Layout.shrinkWeight cs = map JS.Fin ss ->
  (Layout.Qremaining (Layout.Qlen cs) a g bs < 0)%Q ->
  (0 < Layout.Qsum ss)%Q ->
  Forall2 JS.num_eq
    (Layout.calculateFlexSizes cs (JS.Fin a) axis (JS.Fin g))
    (map JS.Fin
       (zip_with (fun b s => Qmax 0 (b - Qabs (Layout.Qremaining (Layout.Qlen cs) a g bs) * s
                                        / Layout.Qsum ss))%Q bs ss)).
Proof.
  intros Hb Hs HR HS. unfold Layout.calculateFlexSizes.
  destruct (remainingSpace_Fin cs a g axis bs Hb) as (r & -> & Hr).
  destruct (total_Fin Layout.shrinkWeight cs ss Hs) as (S & -> & HSq).
  assert (Hneg : (r < 0)%Q) by (rewrite Hr; exact HR).
  rewrite (proj2 (gt_zero_Fin_false r)) by (now apply Qlt_le_weak).
  rewrite (proj2 (lt_zero_Fin r) Hneg).
  rewrite (proj2 (gt_zero_Fin S)) by (rewrite HSq; exact HS).
  rewrite Hb. apply shrunk_shares; try assumption.
  - rewrite HSq. intros H0. rewrite H0 in HS. now apply Qlt_irrefl in HS.
  - symmetry. eapply length_of_map_eq, Hb.
Qed.

Lemma Forall2_num_eq_trans l : forall qs qs',
  Forall2 JS.num_eq l (map JS.Fin qs) ->
  Forall2 Qeq qs qs' ->
  Forall2 JS.num_eq l (map JS.Fin qs').
Proof.
  induction l as [|x l IH]; intros [|q qs] [|q' qs'] H1 H2;
    inversion H1; inversion H2; subst; cbn; constructor.
  - destruct x; cbn in *; try contradiction. etransitivity; eassumption.
  - now apply IH with qs.
Qed.

(** The scenario of three children growing by the weights 0, 2 and 1 into
    90 units of free space. *)
Lemma flex_grow_scenario (w1 w2 w3 g : Q) :
  Forall2 JS.num_eq
    (Layout.calculateFlexSizes
       [Layout.with_grow 0 w1; Layout.with_grow 2 w2; Layout.with_grow 1 w3]
       (JS.Fin (w1 + w2 + w3 + 2 * g + 90)) Layout.Width (JS.Fin g))
    (map JS.Fin [w1 + 0; w2 + 60; w3 + 30]%Q).
Proof.
  pose proof (flex_grow
    [Layout.with_grow 0 w1; Layout.with_grow 2 w2; Layout.with_grow 1 w3]
    Layout.Width (w1 + w2 + w3 + 2 * g + 90) g [w1; w2; w3]
    [inject_Z 0; inject_Z 2; inject_Z 1] eq_refl eq_refl) as H.
  assert (HR : (Layout.Qremaining
                  (Layout.Qlen [Layout.with_grow 0 w1; Layout.with_grow 2 w2;
                                Layout.with_grow 1 w3])
                  (w1 + w2 + w3 + 2 * g + 90) g [w1; w2; w3] == 90)%Q).
  { unfold Layout.Qremaining, Layout.Qlen. cbn [List.length Layout.Qsum].
    change (inject_Z (Z.of_nat 3)) with 3%Q. lra. }
  assert (HW : (Layout.Qsum [inject_Z 0; inject_Z 2; inject_Z 1] == 3)%Q)
    by (cbn; reflexivity).
  specialize (H ltac:(rewrite HR; reflexivity) ltac:(rewrite HW; reflexivity)).
  eapply Forall2_num_eq_trans; [exact H|].
  cbn [zip_with]. repeat constructor; rewrite HR, HW.
  - change (inject_Z 0) with 0%Q. field.
  - change (inject_Z 2) with 2%Q. field.
  - change (inject_Z 1) with 1%Q. field.
Qed.

(** What [calculateFlexSizes] does with the base sizes and the weights it
    reads, [flexShrink || 1] among them: with finite inputs, positive
    remaining space is added to the children in proportion to their grow
    weights, the additions summing to the remaining space; negative
    remaining space is taken from the children in proportion to the shrink
    weights read, no size falling below zero. *)
Lemma flex_sizes_by_read_weights cs axis (a g : Q) (bs ws ss : list Q) :
  map (Layout.baseSize (JS.Fin a) axis) cs = map JS.Fin bs ->
  map Layout.growWeight cs = map JS.Fin ws ->
  map Layout.shrinkWeight cs = map JS.Fin ss ->
  (forall c,
     Layout.baseSize (JS.Fin a) axis c
     = if Layout.basis_given (Layout.prop c "flexBasis")
       then Layout.parseSize (Layout.prop c "flexBasis") (JS.Fin a)
       else Layout.along axis (Layout.intrinsicSize c))
  /\ ((0 < Layout.Qremaining (Layout.Qlen cs) a g bs)%Q ->
      (0 < Layout.Qsum ws)%Q ->
      Forall2 JS.num_eq
        (Layout.calculateFlexSizes cs (JS.Fin a) axis (JS.Fin g))
        (map JS.Fin
           (zip_with
              (fun b w => b + Layout.Qremaining (Layout.Qlen cs) a g bs * w
                              / Layout.Qsum ws)%Q bs ws))
      /\ (Layout.Qsum
            (map (fun w => Layout.Qremaining (Layout.Qlen cs) a g bs * w
                           / Layout.Qsum ws) ws)
          == Layout.Qremaining (Layout.Qlen cs) a g bs)%Q)
  /\ ((Layout.Qremaining (Layout.Qlen cs) a g bs < 0)%Q ->
      (0 < Layout.Qsum ss)%Q ->
      Forall2 JS.num_eq
        (Layout.calculateFlexSizes cs (JS.Fin a) axis (JS.Fin g))
        (map JS.Fin
           (zip_with
              (fun b s => Qmax 0 (b - Qabs (Layout.Qremaining (Layout.Qlen cs) a g bs) * s
                                      / Layout.Qsum ss))%Q bs ss)))
  /\ (forall w1 w2 w3 gap : Q,
        Forall2 JS.num_eq
          (Layout.calculateFlexSizes
             [Layout.with_grow 0 w1; Layout.with_grow 2 w2; Layout.with_grow 1 w3]
             (JS.Fin (w1 + w2 + w3 + 2 * gap + 90)) Layout.Width (JS.Fin gap))
          (map JS.Fin [w1 + 0; w2 + 60; w3 + 30]%Q)).
Proof.
  intros Hb Hw Hs. split; [reflexivity|]. split; [|split].
  - intros HR HW. split; [now apply flex_grow|].
    apply shares_sum; [|reflexivity].
    intros H0. rewrite H0 in HW. now apply Qlt_irrefl in HW.
  - intros HR HS. now apply flex_shrink.
  - intros. apply flex_grow_scenario.
Qed.

(** C4. Where [calculateFlexSizes] departs from the claim.  A child with
    [flexShrink] 0 weighs 1: of two children 100 wide in a line of 150,
    the first with [flexShrink] 0 and the second with 1, each ends 75
    wide, where shrinking in proportion to the weights leaves 100 and 50.
    A [flexBasis] of 0 counts as not given: the base size is the intrinsic
    size, 100 here.  The growth of the scenario is as claimed: with 90
    units free, children of [flexGrow] 0, 2 and 1 receive 0, 60 and 30. *)
Theorem flex_shrink_zero_weighs_one :
  Forall2 JS.num_eq
    (Layout.calculateFlexSizes
       [Layout.with_shrink 0 100; Layout.with_shrink 1 100]
       (JS.Fin 150) Layout.Width (JS.Fin 0))
    [JS.Fin 75; JS.Fin 75]
  /\ Layout.shrinkWeight (Layout.with_shrink 0 100) = JS.Fin 1
  /\ Layout.baseSize (JS.Fin 150) Layout.Width
       (Layout.with_basis (JS.PNum (JS.Fin 0)) 100) = JS.Fin 100
  /\ Forall2 JS.num_eq
       (Layout.calculateFlexSizes
          [Layout.with_grow 0 10; Layout.with_grow 2 20; Layout.with_grow 1 30]
          (JS.Fin 150) Layout.Width (JS.Fin 0))
       [JS.Fin (10 + 0); JS.Fin (20 + 60); JS.Fin (30 + 30)].
Proof.
  split; [|split; [|split]]; try (vm_compute; reflexivity);
    match goal with
    | |- Forall2 _ ?l _ => let l' := eval vm_compute in l in change l with l'
    end;
    repeat (constructor; [vm_compute; reflexivity|]); constructor.
Qed.

(** ** Main-axis placement *)

Lemma lt_pred_count i n :
  JS.lt (JS.ofNat i) (JS.sub (JS.ofNat n) JS.one) = true <-> (S i < n)%nat.
Proof.
  unfold JS.lt, JS.sub, JS.ofNat, JS.ofZ, JS.one, JS.neg, JS.add.
  rewrite gt_Fin. unfold Qlt. cbn. lia.
Qed.

Lemma count_pred_nonzero n :
  (2 <= n)%nat -> ~ (inject_Z (Z.of_nat n) + - (1) == 0)%Q.
Proof. intros Hn. unfold Qeq. cbn. lia. Qed.

Section SpaceBetween.

Variables a g : Q.
Variable ss : list Q.
Hypothesis two : (2 <= List.length ss)%nat.

Local Abbreviation sizes := (map JS.Fin ss).
Local Abbreviation n := (Layout.Qlen ss).

(** The free space over the rationals. *)
Local Abbreviation free := (Layout.Qfree a g ss).

Lemma freeSpace_Fin :
  exists f, Layout.freeSpace (JS.Fin a) (JS.Fin g) sizes = JS.Fin f /\ (f == free)%Q.
Proof.
  unfold Layout.freeSpace, Layout.count. rewrite length_map.
  destruct (sum_Fin ss) as (q & -> & Hq). cbn.
  eexists. split; [reflexivity|]. unfold Layout.Qfree, Layout.Qlen. rewrite Hq. lra.
Qed.

Lemma spacing_Fin :
  exists st, Layout.spacing "space-between" (JS.Fin a) (JS.Fin g) sizes = JS.Fin st
             /\ (st == g + free / (n - 1))%Q.
Proof.
  unfold Layout.spacing. cbn [String.eqb Ascii.eqb Bool.eqb andb].
  destruct freeSpace_Fin as (f & -> & Hf).
  unfold Layout.count. rewrite length_map.
  assert (Hgt : JS.gt (JS.ofNat (List.length ss)) JS.one = true).
  { unfold JS.ofNat, JS.ofZ, JS.one. apply gt_Fin. unfold Qlt. cbn. lia. }
  rewrite Hgt. cbn [JS.sub JS.ofNat JS.ofZ JS.one JS.neg JS.add].
  rewrite div_Fin by (now apply count_pred_nonzero).
  eexists. split; [reflexivity|]. unfold Layout.Qlen. rewrite Hf. reflexivity.
Qed.

Lemma place_length jc av gp szs rest : forall i c,
  List.length (Layout.place jc av gp szs rest i c) = List.length rest.
Proof. induction rest as [|s rest IH]; intros i c; cbn; [reflexivity|]. now rewrite IH. Qed.

Lemma place_positions (st : Q) : forall rest i c k p,
  Layout.spacing "space-between" (JS.Fin a) (JS.Fin g) sizes = JS.Fin st ->
  (i + List.length rest = List.length ss)%nat ->
  Layout.place "space-between" (JS.Fin a) (JS.Fin g) sizes (map JS.Fin rest) i (JS.Fin c)
     !! k = Some p ->
  exists q, p = JS.Fin q
            /\ (q == c + Layout.Qsum (take k rest) + inject_Z (Z.of_nat k) * st)%Q.
Proof.
  induction rest as [|s rest IH]; intros i c k p Hst Hlen Hp; [destruct k; discriminate|].
  cbn [map Layout.place] in Hp. destruct k as [|k].
  - injection Hp as <-. eexists. split; [reflexivity|].
    cbn [take firstn Layout.Qsum]. change (inject_Z (Z.of_nat 0)) with 0%Q. lra.
  - cbn [lookup list_lookup] in Hp.
    assert (Hk : (k < List.length rest)%nat).
    { apply lookup_lt_Some in Hp. now rewrite place_length, length_map in Hp. }
    cbn [List.length] in Hlen.
    assert (Hlt : JS.lt (JS.ofNat i) (JS.sub (Layout.count sizes) JS.one) = true).
    { unfold Layout.count. rewrite length_map. apply lt_pred_count. lia. }
    rewrite Hlt, Hst in Hp. cbn [JS.add] in Hp.
    destruct (IH (S i) (c + s + st)%Q k p Hst ltac:(lia) Hp) as (q & -> & Hq).
    eexists. split; [reflexivity|]. rewrite Hq.
    cbn [take Layout.Qsum]. rewrite Nat2Z.inj_succ, <- Z.add_1_r, inject_Z_plus.
    change (inject_Z 1) with 1%Q. lra.
Qed.

End SpaceBetween.

Lemma Qsum_take_all l : Layout.Qsum (take (List.length l) l) = Layout.Qsum l.
Proof. now rewrite firstn_all. Qed.

Lemma Qsum_take_S l k s :
  l !! k = Some s ->
  (Layout.Qsum (take (S k) l) == Layout.Qsum (take k l) + s)%Q.
Proof.
  revert k. induction l as [|x l IH]; intros [|k] H; try discriminate.
  - injection H as ->. cbn [take firstn Layout.Qsum]. rewrite take_0. cbn [Layout.Qsum]. lra.
  - cbn [lookup list_lookup] in H.
    change (take (S (S k)) (x :: l)) with (x :: take (S k) l).
    change (take (S k) (x :: l)) with (x :: take k l).
    cbn [Layout.Qsum]. rewrite (IH k H). lra.
Qed.



(** ** Grid tracks *)

Section GridProps.

Variable calculateAutoTrackSize : nat -> JS.num.
Variables a g : Q.

Local Abbreviation classify := (Layout.classify calculateAutoTrackSize (JS.Fin a)).
Local Abbreviation resolve :=
  (Layout.resolveGridTracks calculateAutoTrackSize (JS.Fin a) (JS.Fin g)).

Lemma classify_fr tracks ws : forall (h : nat -> nat),
  Forall2 Layout.fr_track tracks ws ->
  imap (fun i => classify (h i)) tracks
  = map (fun w => Layout.FrTrack (JS.Fin w)) ws.
Proof.
  intros h H. revert h. induction H as [|t w tracks ws [Hfr Hw] _ IH]; intros h.
  - reflexivity.
  - cbn [imap map]. f_equal.
    + unfold Layout.classify. now rewrite Hfr, Hw.
    + apply (IH (fun i => h (S i))).
Qed.

Lemma usedSpace_fr ws : forall acc,
  fold_left (fun u k => match k with
                        | Layout.SizedTrack s => JS.add u s
                        | Layout.FrTrack _ => u
                        end)
            (map (fun w => Layout.FrTrack (JS.Fin w)) ws) acc = acc.
Proof. induction ws as [|w ws IH]; intros acc; cbn; [reflexivity|apply IH]. Qed.

Lemma totalFr_fr ws : forall acc,
  fold_left (fun s k => match k with
                        | Layout.FrTrack v => JS.add s v
                        | Layout.SizedTrack _ => s
                        end)
            (map (fun w => Layout.FrTrack (JS.Fin w)) ws) (JS.Fin acc)
  = JS.Fin (fold_left Qplus ws acc).
Proof. induction ws as [|w ws IH]; intros acc; cbn; [reflexivity|apply IH]. Qed.

(** The tracks all in [fr] units: the sizes by cases on the guard. *)
Lemma resolve_fr tracks ws :
  Forall2 Layout.fr_track tracks ws ->
  exists W r,
    (W == Layout.Qsum ws)%Q /\ (r == a - g * (Layout.Qlen tracks - 1))%Q
    /\ resolve tracks
       = if JS.gt (JS.Fin W) JS.zero && JS.gt (JS.Fin r) JS.zero
         then map (fun w => JS.mul (JS.div (JS.Fin r) (JS.Fin W)) (JS.Fin w)) ws
         else map (fun _ => JS.zero) ws.
Proof.
  intros H. unfold Layout.resolveGridTracks.
  assert (Hc : imap classify tracks = map (fun w => Layout.FrTrack (JS.Fin w)) ws)
    by exact (classify_fr tracks ws (fun i => i) H).
  rewrite Hc.
  unfold Layout.usedSpace, Layout.totalFr.
  rewrite usedSpace_fr. change JS.zero with (JS.Fin 0%Q). rewrite totalFr_fr.
  cbn [JS.sub JS.neg JS.add JS.mul JS.ofNat JS.ofZ JS.one].
  eexists _, _. split; [|split; [|rewrite !map_map; reflexivity]].
  - rewrite fold_Qplus_sum. lra.
  - unfold Layout.Qlen. lra.
Qed.

End GridProps.

Lemma Qsum_scaled u ws :
  (Layout.Qsum (map (fun w => u * w) ws) == u * Layout.Qsum ws)%Q.
Proof.
  induction ws as [|w ws IH]; cbn [map Layout.Qsum]; [ring|]. rewrite IH. ring.
Qed.

Lemma Forall2_Fin_refl qs : Forall2 JS.num_eq (map JS.Fin qs) (map JS.Fin qs).
Proof. induction qs; cbn; constructor; [reflexivity|assumption]. Qed.

Lemma Forall2_Qeq_map (f f' : Q -> Q) ws :
  (forall w, f w == f' w)%Q -> Forall2 Qeq (map f ws) (map f' ws).
Proof. intros H. induction ws; cbn; constructor; auto. Qed.

(** C6, as the code has it.  For tracks all in [fr] units with finite
    weights: when the weights sum to a positive number and the space left
    after the gaps is positive, each track gets that space times its
    weight over the sum of the weights, and the sizes with the gaps take
    up exactly the available space; otherwise every track gets zero. *)
Theorem fr_tracks_fill (calculateAutoTrackSize : nat -> JS.num) (a g : Q)
    (tracks : list JS.prim) (ws : list Q) :
  Forall2 Layout.fr_track tracks ws ->
  ((0 < Layout.Qsum ws)%Q ->
   (0 < a - g * (Layout.Qlen tracks - 1))%Q ->
   Forall2 JS.num_eq
     (Layout.resolveGridTracks calculateAutoTrackSize (JS.Fin a) (JS.Fin g) tracks)
     (map JS.Fin
        (map (fun w => (a - g * (Layout.Qlen tracks - 1)) / Layout.Qsum ws * w)%Q ws))
   /\ Layout.fills a g
        (Layout.resolveGridTracks calculateAutoTrackSize (JS.Fin a) (JS.Fin g) tracks))
  /\ ((Layout.Qsum ws <= 0)%Q \/ (a - g * (Layout.Qlen tracks - 1) <= 0)%Q ->
      Layout.resolveGridTracks calculateAutoTrackSize (JS.Fin a) (JS.Fin g) tracks
      = map (fun _ => JS.zero) ws).
Proof.
  intros H.
  destruct (resolve_fr calculateAutoTrackSize a g tracks ws H) as (W & r & HW & Hr & ->).
  assert (Hlen : List.length tracks = List.length ws) by (eapply Forall2_length, H).
  split.
  - intros HWpos Hrpos.
    assert (HW0 : ~ (W == 0)%Q).
    { rewrite HW. intros H0. rewrite H0 in HWpos. now apply Qlt_irrefl in HWpos. }
    rewrite (proj2 (gt_zero_Fin W)) by (rewrite HW; exact HWpos).
    rewrite (proj2 (gt_zero_Fin r)) by (rewrite Hr; exact Hrpos).
    cbn [andb]. rewrite div_Fin by assumption. cbn [JS.mul].
    rewrite <- (map_map (fun w => (r / W * w)%Q) JS.Fin).
    split.
    + eapply Forall2_num_eq_trans; [apply Forall2_Fin_refl|].
      apply Forall2_Qeq_map. intros w. now rewrite Hr, HW.
    + exists (map (fun w => (r / W * w)%Q) ws). split; [reflexivity|].
      unfold Layout.Qlen. rewrite !length_map, <- Hlen.
      rewrite Qsum_scaled, <- HW. unfold Layout.Qlen in Hr. rewrite Hr. field.
      exact HW0.
  - intros [Hle|Hle].
    + rewrite (proj2 (gt_zero_Fin_false W)) by (rewrite HW; exact Hle). reflexivity.
    + rewrite (proj2 (gt_zero_Fin_false r)) by (rewrite Hr; exact Hle).
      now rewrite andb_false_r.
Qed.

Lemma fr_tracks_fill_witness :
  Layout.fills 100 10
    (Layout.resolveGridTracks (fun _ => JS.Fin 50) (JS.Fin 100) (JS.Fin 10)
       [JS.PStr "1fr"; JS.PStr "2fr"]).
Proof.
  destruct (fr_tracks_fill (fun _ => JS.Fin 50) 100 10
              [JS.PStr "1fr"; JS.PStr "2fr"] [1%Q; 2%Q]) as [Hfill _].
  - repeat constructor.
  - apply Hfill; reflexivity.
Defined.

(** Two [fr] tracks, 10 units available, a gap of 20: both tracks get
    zero and the gap alone exceeds the available space. *)
Lemma fr_tracks_overfull :
  Forall2 Layout.fr_track [JS.PStr "1fr"; JS.PStr "1fr"] [1%Q; 1%Q]
  /\ Layout.resolveGridTracks (fun _ => JS.Fin 50) (JS.Fin 10) (JS.Fin 20)
       [JS.PStr "1fr"; JS.PStr "1fr"] = [JS.Fin 0; JS.Fin 0]
  /\ ~ Layout.fills 10 20
         (Layout.resolveGridTracks (fun _ => JS.Fin 50) (JS.Fin 10) (JS.Fin 20)
            [JS.PStr "1fr"; JS.PStr "1fr"]).
Proof.
  split; [repeat constructor|]. split; [reflexivity|].
  intros (qs & Heq & Hsum).
  change (Layout.resolveGridTracks (fun _ => JS.Fin 50) (JS.Fin 10) (JS.Fin 20)
            [JS.PStr "1fr"; JS.PStr "1fr"]) with [JS.Fin 0; JS.Fin 0] in *.
  destruct qs as [|q1 [|q2 [|q3 qs]]]; try discriminate.
  injection Heq as <- <-. vm_compute in Hsum. discriminate.
Qed.

(** * Further properties of the layout, colour and capture code *)

(** ** Main-axis placement under every [justifyContent] *)

Lemma place_at jc av gp szs (st : Q) : forall rest i c k p,
  Layout.spacing jc av gp szs = JS.Fin st ->
  (i + List.length rest = List.length szs)%nat ->
  Layout.place jc av gp szs (map JS.Fin rest) i (JS.Fin c) !! k = Some p ->
  exists q, p = JS.Fin q
            /\ (q == c + Layout.Qsum (take k rest) + inject_Z (Z.of_nat k) * st)%Q.
Proof.
  induction rest as [|s rest IH]; intros i c k p Hst Hlen Hp; [destruct k; discriminate|].
  cbn [map Layout.place] in Hp. destruct k as [|k].
  - injection Hp as <-. eexists. split; [reflexivity|].
    cbn [take firstn Layout.Qsum]. change (inject_Z (Z.of_nat 0)) with 0%Q. lra.
  - cbn [lookup list_lookup] in Hp.
    assert (Hk : (k < List.length rest)%nat).
    { apply lookup_lt_Some in Hp. now rewrite place_length, length_map in Hp. }
    cbn [List.length] in Hlen.
    assert (Hlt : JS.lt (JS.ofNat i) (JS.sub (Layout.count szs) JS.one) = true).
    { unfold Layout.count. apply lt_pred_count. lia. }
    rewrite Hlt, Hst in Hp. cbn [JS.add] in Hp.
    destruct (IH (S i) (c + s + st)%Q k p Hst ltac:(lia) Hp) as (q & -> & Hq).
    eexists. split; [reflexivity|]. rewrite Hq.
    cbn [take Layout.Qsum]. rewrite Nat2Z.inj_succ, <- Z.add_1_r, inject_Z_plus.
    change (inject_Z 1) with 1%Q. lra.
Qed.

Lemma freeSpace_any a g ss :
  exists f, Layout.freeSpace (JS.Fin a) (JS.Fin g) (map JS.Fin ss) = JS.Fin f
            /\ (f == Layout.Qfree a g ss)%Q.
Proof.
  unfold Layout.freeSpace, Layout.count. rewrite length_map.
  destruct (sum_Fin ss) as (q & -> & Hq). cbn.
  eexists. split; [reflexivity|]. unfold Layout.Qfree, Layout.Qlen. rewrite Hq. lra.
Qed.

Lemma Qlen_pos {A : Type} (l : list A) : l <> [] -> (1 <= Layout.Qlen l)%Q.
Proof.
  intros H. destruct l as [|x l]; [contradiction|].
  unfold Layout.Qlen, Qle. cbn [List.length]. cbn. lia.
Qed.

(** The start position and the spacing of every mode: a share [u] of the
    free space before the first item and a share [v] after every item but
    the last. *)
Lemma justify_shares jc a g ss :
  ss <> [] ->
  exists c0 st u v,
    Layout.startPos jc (JS.Fin a) (JS.Fin g) (map JS.Fin ss) = JS.Fin c0
    /\ Layout.spacing jc (JS.Fin a) (JS.Fin g) (map JS.Fin ss) = JS.Fin st
    /\ (c0 == u * Layout.Qfree a g ss)%Q
    /\ (st == g + v * Layout.Qfree a g ss)%Q
    /\ (0 <= u)%Q /\ (0 <= v)%Q
    /\ (u + (Layout.Qlen ss - 1) * v <= 1)%Q
    /\ (jc = "flex-end" -> u == 1 /\ v == 0)%Q
    /\ (jc = "center" -> u == 1 # 2 /\ v == 0)%Q
    /\ (jc = "space-around" ->
        u == 1 / (2 * Layout.Qlen ss) /\ v == 1 / Layout.Qlen ss)%Q
    /\ (jc = "space-evenly" ->
        u == 1 / (Layout.Qlen ss + 1) /\ v == 1 / (Layout.Qlen ss + 1))%Q
    /\ (jc <> "flex-end" -> jc <> "center" -> jc <> "space-between" ->
        jc <> "space-around" -> jc <> "space-evenly" -> u == 0 /\ v == 0)%Q.
Proof.
  intros Hne. pose proof (Qlen_pos ss Hne) as Hn.
  destruct (freeSpace_any a g ss) as (f & Hf & Hfq).
  unfold Layout.startPos, Layout.spacing. rewrite Hf.
  unfold Layout.count. rewrite length_map.
  fold (Layout.Qlen ss) in *.
  change (JS.ofNat (List.length ss)) with (JS.Fin (Layout.Qlen ss)).
  set (n := Layout.Qlen ss) in *.
  cbn [JS.mul JS.add JS.sub JS.neg JS.one].
  assert (Hhalf : forall d : Q, (0 < d)%Q -> (0 <= 1 / d)%Q)
    by (intros d Hd; apply Qle_shift_div_l; lra).
  destruct (String.eqb jc "flex-start") eqn:E1.
  { apply String.eqb_eq in E1. subst jc. cbn [String.eqb Ascii.eqb Bool.eqb andb].
    exists 0%Q, g, 0%Q, 0%Q. repeat split; try discriminate; try lra; try reflexivity. }
  destruct (String.eqb jc "flex-end") eqn:E2.
  { apply String.eqb_eq in E2. subst jc. cbn [String.eqb Ascii.eqb Bool.eqb andb].
    exists f, g, 1%Q, 0%Q.
    repeat split; try discriminate; try congruence; try reflexivity; try lra. }
  destruct (String.eqb jc "center") eqn:E3.
  { apply String.eqb_eq in E3. subst jc. cbn [String.eqb Ascii.eqb Bool.eqb andb].
    rewrite div_Fin by (unfold Qeq; cbn; lia).
    exists (f / 2)%Q, g, (1 # 2)%Q, 0%Q.
    repeat split; try discriminate; try congruence; try reflexivity; try lra.
    rewrite Hfq. field. }
  destruct (String.eqb jc "space-between") eqn:E4.
  { apply String.eqb_eq in E4. subst jc. cbn [String.eqb Ascii.eqb Bool.eqb andb].
    destruct (JS.gt (JS.Fin n) JS.one) eqn:Hgt.
    - apply gt_Fin in Hgt.
      rewrite div_Fin by lra.
      pose proof (Hhalf (n - 1)%Q ltac:(lra)).
      assert (H1 : ((n - 1) * (1 / (n - 1)) == 1)%Q) by (field; lra).
      exists 0%Q, (g + f / (n + - (1)))%Q, 0%Q, (1 / (n - 1))%Q.
      repeat split; try discriminate; try congruence; try reflexivity; try lra.
      rewrite Hfq. field. lra.
    - apply gt_Fin_false in Hgt.
      exists 0%Q, g, 0%Q, 0%Q.
      repeat split; try discriminate; try lra; try reflexivity; try congruence. }
  destruct (String.eqb jc "space-around") eqn:E5.
  { apply String.eqb_eq in E5. subst jc. cbn [String.eqb Ascii.eqb Bool.eqb andb].
    rewrite !div_Fin by lra.
    pose proof (Hhalf (2 * n)%Q ltac:(lra)).
    pose proof (Hhalf n ltac:(lra)).
    assert (H1 : (1 / (2 * n) + (n - 1) * (1 / n) == 1 - 1 / (2 * n))%Q) by (field; lra).
    exists (f / (n * 2))%Q, (g + f / n)%Q, (1 / (2 * n))%Q, (1 / n)%Q.
    repeat split; try discriminate; try congruence; try reflexivity; try lra.
    - rewrite Hfq. field. lra.
    - rewrite Hfq. field. lra. }
  destruct (String.eqb jc "space-evenly") eqn:E6.
  { apply String.eqb_eq in E6. subst jc. cbn [String.eqb Ascii.eqb Bool.eqb andb].
    rewrite !div_Fin by lra.
    pose proof (Hhalf (n + 1)%Q ltac:(lra)).
    assert (H1 : (1 / (n + 1) + (n - 1) * (1 / (n + 1)) == 1 - 1 / (n + 1))%Q)
      by (field; lra).
    exists (f / (n + 1))%Q, (g + f / (n + 1))%Q, (1 / (n + 1))%Q, (1 / (n + 1))%Q.
    repeat split; try discriminate; try congruence; try reflexivity; try lra.
    - rewrite Hfq. field. lra.
    - rewrite Hfq. field. lra. }
  apply String.eqb_neq in E2, E3, E4, E5, E6.
  cbn [andb].
  exists 0%Q, g, 0%Q, 0%Q.
  repeat split; try lra; try reflexivity; try congruence.
Qed.


Lemma positions_at jc a g ss k p :
  ss <> [] ->
  Layout.calculateMainAxisPositions jc (JS.Fin a) (JS.Fin g) (map JS.Fin ss) !! k = Some p ->
  exists c0 st q,
    Layout.startPos jc (JS.Fin a) (JS.Fin g) (map JS.Fin ss) = JS.Fin c0
    /\ Layout.spacing jc (JS.Fin a) (JS.Fin g) (map JS.Fin ss) = JS.Fin st
    /\ p = JS.Fin q
    /\ (q == c0 + Layout.Qsum (take k ss) + inject_Z (Z.of_nat k) * st)%Q.
Proof.
  intros Hne Hp.
  destruct (justify_shares jc a g ss Hne) as (c0 & st & _ & _ & Hc0 & Hst & _).
  unfold Layout.calculateMainAxisPositions in Hp. rewrite Hc0 in Hp.
  destruct (place_at jc (JS.Fin a) (JS.Fin g) (map JS.Fin ss) st ss 0%nat c0 k p Hst
              ltac:(now rewrite length_map) Hp) as (q & -> & Hq).
  exists c0, st, q. auto.
Qed.

Lemma positions_defined jc a g ss k :
  (k < List.length ss)%nat ->
  is_Some (Layout.calculateMainAxisPositions jc (JS.Fin a) (JS.Fin g) (map JS.Fin ss) !! k).
Proof.
  intros Hk. apply lookup_lt_is_Some_2.
  unfold Layout.calculateMainAxisPositions. now rewrite place_length, length_map.
Qed.

Lemma Qlen_pred (ss : list Q) :
  ss <> [] ->
  (inject_Z (Z.of_nat (List.length ss - 1)) == Layout.Qlen ss - 1)%Q.
Proof.
  intros Hne. destruct ss as [|x l]; [contradiction|].
  unfold Layout.Qlen. cbn [List.length]. rewrite Nat2Z.inj_sub by lia.
  unfold Z.sub. rewrite inject_Z_plus. reflexivity.
Qed.

Lemma Qsum_before_last ss s :
  ss !! (List.length ss - 1)%nat = Some s ->
  (Layout.Qsum (take (List.length ss - 1) ss) == Layout.Qsum ss - s)%Q.
Proof.
  intros Hs. pose proof (Qsum_take_S ss _ s Hs) as Hsum.
  assert (Hlen : (0 < List.length ss)%nat) by (apply lookup_lt_Some in Hs; lia).
  replace (S (List.length ss - 1)) with (List.length ss) in Hsum by lia.
  rewrite Qsum_take_all in Hsum. rewrite Hsum. ring.
Qed.




Lemma place_ext jc jc' av gp szs :
  Layout.spacing jc av gp szs = Layout.spacing jc' av gp szs ->
  forall rest i c,
    Layout.place jc av gp szs rest i c = Layout.place jc' av gp szs rest i c.
Proof.
  intros Hsp. induction rest as [|s rest IH]; intros i c; cbn; [reflexivity|].
  now rewrite Hsp, IH.
Qed.






Lemma Forall2_num_eq_Fin l : forall qs,
  Forall2 JS.num_eq l (map JS.Fin qs) ->
  exists ss, l = map JS.Fin ss /\ Forall2 Qeq ss qs.
Proof.
  induction l as [|x l IH]; intros [|q qs] H; inversion H; subst.
  - exists []. split; [reflexivity|constructor].
  - destruct (IH qs ltac:(assumption)) as (ss & -> & Hss).
    destruct x as [| | |s]; try contradiction.
    exists (s :: ss). split; [reflexivity|]. now constructor.
Qed.

Lemma Qsum_Forall2 ss qs : Forall2 Qeq ss qs -> (Layout.Qsum ss == Layout.Qsum qs)%Q.
Proof. induction 1 as [|x y l k Hxy _ IH]; cbn; [reflexivity|]. now rewrite Hxy, IH. Qed.

Lemma Qsum_grown R W : forall bs ws,
  List.length bs = List.length ws ->
  (Layout.Qsum (zip_with (fun b w => b + R * w / W) bs ws)
   == Layout.Qsum bs + Layout.Qsum (map (fun w => R * w / W) ws))%Q.
Proof.
  induction bs as [|b bs IH]; intros [|w ws] Hlen; try discriminate; cbn.
  - reflexivity.
  - rewrite IH by (cbn in Hlen; lia). ring.
Qed.



(** ** Grid lines and placement *)

Lemma lines_from_length gap n rest : forall i c,
  List.length (Grid.lines_from gap n rest i c) = List.length rest.
Proof. induction rest as [|s rest IH]; intros i c; cbn; [reflexivity|]. now rewrite IH. Qed.

Lemma lines_from_at (g : Q) n : forall rest i c k p,
  (i + List.length rest = n)%nat ->
  Grid.lines_from (JS.Fin g) n (map JS.Fin rest) i (JS.Fin c) !! k = Some p ->
  exists q, p = JS.Fin q
            /\ (q == c + Layout.Qsum (take (S k) rest) + inject_Z (Z.of_nat k) * g)%Q.
Proof.
  induction rest as [|s rest IH]; intros i c k p Hlen Hp; [destruct k; discriminate|].
  cbn [map Grid.lines_from] in Hp. destruct k as [|k].
  - injection Hp as <-. cbn [JS.add]. eexists. split; [reflexivity|].
    change (take 1 (s :: rest)) with (s :: take 0 rest). rewrite take_0.
    cbn [Layout.Qsum]. change (inject_Z (Z.of_nat 0)) with 0%Q. lra.
  - cbn [lookup list_lookup] in Hp.
    assert (Hk : (k < List.length rest)%nat).
    { apply lookup_lt_Some in Hp. now rewrite lines_from_length, length_map in Hp. }
    cbn [List.length] in Hlen.
    assert (Hlt : JS.lt (JS.ofNat i) (JS.sub (JS.ofNat n) JS.one) = true).
    { apply lt_pred_count. lia. }
    rewrite Hlt in Hp. cbn [JS.add] in Hp.
    destruct (IH (S i) (c + s + g)%Q k p ltac:(lia) Hp) as (q & -> & Hq).
    eexists. split; [reflexivity|]. rewrite Hq.
    change (take (S (S k)) (s :: rest)) with (s :: take (S k) rest).
    cbn [Layout.Qsum]. rewrite Nat2Z.inj_succ, <- Z.add_1_r, inject_Z_plus.
    change (inject_Z 1) with 1%Q. lra.
Qed.

Lemma grid_line_at (g : Q) ss k p :
  Grid.calculateGridLinePositions (map JS.Fin ss) (JS.Fin g) !! S k = Some p ->
  exists q, p = JS.Fin q
            /\ (q == Layout.Qsum (take (S k) ss) + inject_Z (Z.of_nat k) * g)%Q.
Proof.
  unfold Grid.calculateGridLinePositions. cbn [lookup list_lookup]. intros Hp.
  rewrite length_map in Hp.
  destruct (lines_from_at g (List.length ss) ss 0%nat 0%Q k p eq_refl Hp) as (q & -> & Hq).
  exists q. split; [reflexivity|]. rewrite Hq. lra.
Qed.

Lemma grid_lines_length (g : Q) ss :
  List.length (Grid.calculateGridLinePositions (map JS.Fin ss) (JS.Fin g))
  = S (List.length ss).
Proof.
  unfold Grid.calculateGridLinePositions. cbn [List.length].
  now rewrite lines_from_length, length_map.
Qed.

Lemma grid_line_next (g : Q) ss k :
  (k < List.length ss)%nat ->
  exists q, Grid.calculateGridLinePositions (map JS.Fin ss) (JS.Fin g) !! S k
            = Some (JS.Fin q)
    /\ (q == Layout.Qsum (take (S k) ss) + inject_Z (Z.of_nat k) * g)%Q.
Proof.
  intros Hk.
  destruct (lookup_lt_is_Some_2
              (Grid.calculateGridLinePositions (map JS.Fin ss) (JS.Fin g)) (S k))
    as [p Hp]; [rewrite grid_lines_length; lia|].
  destruct (grid_line_at g ss k p Hp) as (q & -> & Hq). eauto.
Qed.

Lemma grid_line_steps (g : Q) ss k s :
  ss !! k = Some s ->
  exists q q',
    Grid.calculateGridLinePositions (map JS.Fin ss) (JS.Fin g) !! k = Some (JS.Fin q)
    /\ Grid.calculateGridLinePositions (map JS.Fin ss) (JS.Fin g) !! S k
       = Some (JS.Fin q')
    /\ (q' - q == s + (if (k =? 0)%nat then 0 else g))%Q.
Proof.
  intros Hs. pose proof (lookup_lt_Some _ _ _ Hs) as Hk.
  destruct (grid_line_next g ss k Hk) as (q' & Hq' & Hq'v).
  destruct k as [|k].
  - exists 0%Q, q'. repeat split; [exact Hq'|].
    rewrite Hq'v, (Qsum_take_S ss 0 s Hs), take_0. cbn [Layout.Qsum Nat.eqb].
    change (inject_Z (Z.of_nat 0)) with 0%Q. ring.
  - destruct (grid_line_next g ss k ltac:(lia)) as (q & Hq & Hqv).
    exists q, q'. repeat split; [exact Hq|exact Hq'|].
    rewrite Hq'v, Hqv, (Qsum_take_S ss (S k) s Hs). cbn [Nat.eqb].
    rewrite Nat2Z.inj_succ, <- Z.add_1_r, inject_Z_plus.
    change (inject_Z 1) with 1%Q. ring.
Qed.




Lemma Qfloor_unique (q : Q) (z : Z) :
  (inject_Z z <= q)%Q -> (q < inject_Z (z + 1))%Q -> Qfloor q = z.
Proof.
  intros Hlo Hhi.
  pose proof (Qfloor_le q) as H1. pose proof (Qlt_floor q) as H2.
  assert (Ha : (Qfloor q < z + 1)%Z).
  { rewrite Zlt_Qlt. eapply Qle_lt_trans; eassumption. }
  assert (Hb : (z < Qfloor q + 1)%Z).
  { rewrite Zlt_Qlt. eapply Qle_lt_trans; eassumption. }
  lia.
Qed.

Lemma Qfloor_nat_div (i c : nat) :
  (0 < c)%nat ->
  Qfloor (inject_Z (Z.of_nat i) / inject_Z (Z.of_nat c)) = Z.of_nat (i / c).
Proof.
  intros Hc. apply Qfloor_unique.
  - apply Qle_shift_div_l.
    + unfold Qlt. cbn. lia.
    + rewrite <- inject_Z_mult, <- Zle_Qle, Nat2Z.inj_div.
      rewrite Z.mul_comm. apply Z.mul_div_le. lia.
  - apply Qlt_shift_div_r.
    + unfold Qlt. cbn. lia.
    + rewrite <- inject_Z_mult, <- Zlt_Qlt, Nat2Z.inj_div.
      rewrite Z.mul_comm.
      pose proof (Z.mul_succ_div_gt (Z.of_nat i) (Z.of_nat c) ltac:(lia)). lia.
Qed.

Lemma nat_div_nonneg (i c : nat) :
  (0 < c)%nat -> (0 <= inject_Z (Z.of_nat i) / inject_Z (Z.of_nat c))%Q.
Proof.
  intros Hc. apply Qle_shift_div_l.
  - unfold Qlt. cbn. lia.
  - unfold Qle. cbn. lia.
Qed.

Lemma floor_div_nat (i c : nat) :
  (0 < c)%nat ->
  JSMath.floor (JS.div (JS.ofNat i) (JS.ofNat c)) = JS.ofNat (i / c).
Proof.
  intros Hc. unfold JS.ofNat, JS.ofZ.
  rewrite div_Fin by (unfold Qeq; cbn; lia).
  cbn [JSMath.floor]. now rewrite Qfloor_nat_div.
Qed.

Lemma rem_nat (i c : nat) :
  (0 < c)%nat ->
  exists q, JSMath.rem (JS.ofNat i) (JS.ofNat c) = JS.Fin q
            /\ (q == inject_Z (Z.of_nat (i mod c)))%Q.
Proof.
  intros Hc. unfold JS.ofNat, JS.ofZ, JSMath.rem.
  assert (Hz : Qeq_bool (inject_Z (Z.of_nat c)) 0 = false).
  { apply not_true_iff_false. intros H. apply Qeq_bool_iff in H.
    unfold Qeq in H. cbn in H. lia. }
  rewrite Hz. eexists. split; [reflexivity|].
  unfold JSMath.trunc.
  assert (Hle : Qle_bool 0 (inject_Z (Z.of_nat i) / inject_Z (Z.of_nat c)) = true).
  { apply Qle_bool_iff. now apply nat_div_nonneg. }
  rewrite Hle, Qfloor_nat_div by assumption.
  rewrite <- inject_Z_mult. unfold Qminus. rewrite <- inject_Z_opp, <- inject_Z_plus.
  apply inject_Z_injective. rewrite Nat2Z.inj_mod, Nat2Z.inj_div.
  rewrite Z.mod_eq by lia. lia.
Qed.

(** X6. [getGridPlacement] of a child without [gridArea], [gridColumn]
    and [gridRow], in a grid of at least one column: the child number
    [index] goes to column [index mod colCount] of row [index / colCount]
    and spans one cell, and two such children with different indices never
    share a cell. *)
Theorem auto_placement_by_rows (sz : option Layout.size) (index colCount : nat) :
  (0 < colCount)%nat ->
  let p := Grid.getGridPlacement (Grid.auto_item sz) index colCount in
  JS.num_eq (Grid.colStart p) (JS.ofNat (index mod colCount))
  /\ JS.num_eq (Grid.rowStart p) (JS.ofNat (index / colCount))
  /\ Grid.colEnd p = JS.add (Grid.colStart p) JS.one
  /\ Grid.rowEnd p = JS.add (Grid.rowStart p) JS.one
  /\ (index mod colCount < colCount)%nat
  /\ (forall sz' index',
        let p' := Grid.getGridPlacement (Grid.auto_item sz') index' colCount in
        JS.num_eq (Grid.colStart p) (Grid.colStart p') ->
        JS.num_eq (Grid.rowStart p) (Grid.rowStart p') ->
        index = index').
Proof.
  intros Hc p.
  assert (Hp : forall s i,
            exists q, Grid.colStart (Grid.getGridPlacement (Grid.auto_item s) i colCount)
                      = JS.Fin q
              /\ (q == inject_Z (Z.of_nat (i mod colCount)))%Q
              /\ Grid.rowStart (Grid.getGridPlacement (Grid.auto_item s) i colCount)
                 = JS.ofNat (i / colCount)).
  { intros s i. unfold Grid.getGridPlacement, Grid.auto_item.
    cbn [Grid.gridArea Grid.gridColumn Grid.gridRow Style.prop_truthy orb
         Grid.colStart Grid.rowStart].
    destruct (rem_nat i colCount Hc) as (q & -> & Hq).
    exists q. repeat split; [exact Hq|]. now apply floor_div_nat. }
  destruct (Hp sz index) as (q & Hcol & Hq & Hrow).
  split; [|split; [|split; [|split; [|split]]]].
  - fold p in Hcol. rewrite Hcol. exact Hq.
  - fold p in Hrow. rewrite Hrow. cbn. reflexivity.
  - reflexivity.
  - reflexivity.
  - apply Nat.mod_upper_bound. lia.
  - intros sz' index' p' Hcc Hrr.
    destruct (Hp sz' index') as (q' & Hcol' & Hq' & Hrow').
    fold p in Hcol, Hrow. fold p' in Hcol', Hrow'.
    rewrite Hcol, Hcol' in Hcc. rewrite Hrow, Hrow' in Hrr.
    change (q == q')%Q in Hcc.
    change (inject_Z (Z.of_nat (index / colCount))
            == inject_Z (Z.of_nat (index' / colCount)))%Q in Hrr.
    rewrite Hq, Hq' in Hcc.
    rewrite inject_Z_injective in Hcc, Hrr.
    apply Nat2Z.inj in Hcc. apply Nat2Z.inj in Hrr.
    rewrite (Nat.div_mod_eq index colCount), (Nat.div_mod_eq index' colCount).
    now rewrite Hcc, Hrr.
Qed.

Lemma auto_placement_by_rows_witness :
  JS.num_eq (Grid.colStart (Grid.getGridPlacement (Grid.auto_item None) 7 3)) (JS.ofNat 1)
  /\ JS.num_eq (Grid.rowStart (Grid.getGridPlacement (Grid.auto_item None) 7 3)) (JS.ofNat 2).
Proof.
  destruct (auto_placement_by_rows None 7 3 ltac:(lia)) as (Hc & Hr & _).
  split; [exact Hc|exact Hr].
Defined.

Lemma at_index_nat positions q (m : nat) :
  (q == inject_Z (Z.of_nat m))%Q ->
  Grid.at_index positions (JS.Fin q) = default JS.NaN (positions !! m).
Proof.
  intros Hq. unfold Grid.at_index.
  assert (Hf : Qfloor q = Z.of_nat m) by (rewrite Hq; apply Qfloor_Z).
  rewrite Hf.
  assert (He : Qeq_bool q (inject_Z (Z.of_nat m)) = true) by now apply Qeq_bool_iff.
  rewrite He. assert (Hz : (0 <=? Z.of_nat m) = true) by (apply Z.leb_le; lia).
  rewrite Hz, Nat2Z.id. reflexivity.
Qed.




Lemma or_else_nonzero (z : Z) d : z <> 0 -> JS.or_else (JS.ofZ z) d = JS.ofZ z.
Proof.
  intros Hz. unfold JS.or_else, JS.ofZ, JS.truthy.
  destruct (Qeq_bool (inject_Z z) 0) eqn:H; [|reflexivity].
  apply Qeq_bool_iff in H. change 0%Q with (inject_Z 0) in H.
  rewrite inject_Z_injective in H. contradiction.
Qed.

(** X8. [getGridPlacement]: a child with [gridRow] a and [gridColumn]
    b, where neither holds a slash and both read as integers other than
    zero, is placed like a child whose [gridArea] is a/b: in the one cell
    of row a and column b, counted from one. *)
Theorem explicit_lines_agree_with_area (a b : string) (r c : Z)
    (sz : option Layout.size) (index colCount : nat) :
  JS.split_on "/" a = [a] -> JS.split_on "/" b = [b] ->
  JS.parseInt (JS.trim a) = Some r -> JS.parseInt (JS.trim b) = Some c ->
  r <> 0 -> c <> 0 ->
  let byLines :=
    Grid.getGridPlacement
      {| Grid.gridArea := None; Grid.gridColumn := Some b; Grid.gridRow := Some a;
         Grid.intrinsicSize := sz |} index colCount in
  let byArea :=
    Grid.getGridPlacement
      {| Grid.gridArea := Some (a +:+ "/" +:+ b); Grid.gridColumn := None;
         Grid.gridRow := None; Grid.intrinsicSize := sz |} index colCount in
  byLines = byArea
  /\ byArea = {| Grid.colStart := JS.sub (JS.ofZ c) JS.one; Grid.colEnd := JS.ofZ c;
                 Grid.rowStart := JS.sub (JS.ofZ r) JS.one; Grid.rowEnd := JS.ofZ r |}.
Proof.
  intros Ha Hb Hr Hc Hr0 Hc0 byLines byArea.
  assert (Hane : a <> "").
  { intros ->. discriminate. }
  assert (Hbne : b <> "").
  { intros ->. discriminate. }
  assert (Harea : byArea
            = {| Grid.colStart := JS.sub (JS.ofZ c) JS.one; Grid.colEnd := JS.ofZ c;
                 Grid.rowStart := JS.sub (JS.ofZ r) JS.one; Grid.rowEnd := JS.ofZ r |}).
  { unfold byArea, Grid.getGridPlacement. cbn [Grid.gridArea Style.prop_truthy default].
    assert (Hne : String.eqb (a +:+ "/" +:+ b) "" = false).
    { apply String.eqb_neq. destruct a; discriminate. }
    rewrite Hne. cbn [negb from_option id].
    unfold Grid.parseGridArea, Grid.parts_of.
    change (a +:+ "/" +:+ b) with (a +:+ String "/" b).
    rewrite split_on_app, Ha, Hb. cbn [app map].
    unfold Grid.parseInt. now rewrite Hr, Hc. }
  split; [|exact Harea].
  rewrite Harea. unfold byLines, Grid.getGridPlacement.
  cbn [Grid.gridArea Grid.gridColumn Grid.gridRow Style.prop_truthy].
  apply String.eqb_neq in Hane, Hbne. rewrite Hbne. cbn [negb orb].
  unfold Grid.parseGridLine, Grid.parts_of. rewrite Hane, Hbne, Ha, Hb.
  cbn [map hd lookup list_lookup]. unfold Grid.parseInt. rewrite Hr, Hc.
  cbn [StyleWorker.num_of]. now rewrite !or_else_nonzero.
Qed.

Lemma explicit_lines_agree_with_area_witness :
  Grid.getGridPlacement
    {| Grid.gridArea := None; Grid.gridColumn := Some "3"; Grid.gridRow := Some "2 ";
       Grid.intrinsicSize := None |} 0 4
  = Grid.getGridPlacement
      {| Grid.gridArea := Some "2 /3"; Grid.gridColumn := None; Grid.gridRow := None;
         Grid.intrinsicSize := None |} 0 4.
Proof.
  apply (explicit_lines_agree_with_area "2 " "3" 2 3 None 0 4);
    first [reflexivity|discriminate].
Defined.

Lemma max_Fin_any a b :
  exists m, JS.max (JS.Fin a) (JS.Fin b) = JS.Fin m /\ (a <= m)%Q /\ (b <= m)%Q.
Proof.
  destruct (max_Fin_cases a b) as [[-> H]|[-> H]]; eexists; (split; [reflexivity|]); lra.
Qed.

Lemma maxSize_from_bounds axis colCount trackIndex : forall rest i m,
  Forall (fun child => forall sz, Grid.intrinsicSize child = Some sz ->
                                  JS.is_fin (Layout.along axis sz)) rest ->
  exists m',
    Grid.maxSize_from axis colCount trackIndex rest i (JS.Fin m) = JS.Fin m'
    /\ (m <= m')%Q
    /\ forall k child sz,
         rest !! k = Some child -> Grid.intrinsicSize child = Some sz ->
         Grid.inTrack axis (Grid.getGridPlacement child (i + k) colCount) trackIndex = true ->
         exists s, Layout.along axis sz = JS.Fin s /\ (s <= m')%Q.
Proof.
  induction rest as [|child rest IH]; intros i m Hfin.
  - exists m. split; [reflexivity|]. split; [lra|]. intros k ? ? Hk. destruct k; discriminate.
  - inversion Hfin as [|? ? Hc Hrest]; subst. cbn [Grid.maxSize_from].
    destruct (Grid.intrinsicSize child) as [sz|] eqn:Hsz.
    + specialize (Hc sz eq_refl).
      destruct (Layout.along axis sz) as [| | |s] eqn:Hs; try contradiction.
      destruct (Grid.inTrack axis (Grid.getGridPlacement child i colCount) trackIndex)
        eqn:Hin.
      * destruct (max_Fin_any m s) as (m1 & -> & Hm1 & Hs1).
        destruct (IH (S i) m1 Hrest) as (m' & -> & Hm' & Hall).
        exists m'. split; [reflexivity|]. split; [lra|].
        intros [|k] ch sz' Hk Hsz' Hin'.
        -- injection Hk as <-. rewrite Hsz in Hsz'. injection Hsz' as <-.
           exists s. split; [exact Hs|lra].
        -- cbn [lookup list_lookup] in Hk. apply (Hall k ch sz' Hk Hsz').
           now replace (S i + k)%nat with (i + S k)%nat by lia.
      * destruct (IH (S i) m Hrest) as (m' & -> & Hm' & Hall).
        exists m'. split; [reflexivity|]. split; [lra|].
        intros [|k] ch sz' Hk Hsz' Hin'.
        -- injection Hk as <-. rewrite Nat.add_0_r in Hin'. congruence.
        -- cbn [lookup list_lookup] in Hk. apply (Hall k ch sz' Hk Hsz').
           now replace (S i + k)%nat with (i + S k)%nat by lia.
    + destruct (IH (S i) m Hrest) as (m' & -> & Hm' & Hall).
      exists m'. split; [reflexivity|]. split; [lra|].
      intros [|k] ch sz' Hk Hsz' Hin'.
      * injection Hk as <-. congruence.
      * cbn [lookup list_lookup] in Hk. apply (Hall k ch sz' Hk Hsz').
        now replace (S i + k)%nat with (i + S k)%nat by lia.
Qed.

Lemma maxSize_from_none axis colCount trackIndex : forall rest i m,
  (forall k child, rest !! k = Some child ->
     Grid.inTrack axis (Grid.getGridPlacement child (i + k) colCount) trackIndex = false) ->
  Grid.maxSize_from axis colCount trackIndex rest i m = m.
Proof.
  induction rest as [|child rest IH]; intros i m Hout; [reflexivity|].
  cbn [Grid.maxSize_from].
  pose proof (Hout 0%nat child eq_refl) as H0. rewrite Nat.add_0_r in H0. rewrite H0.
  assert (Hm : match Grid.intrinsicSize child with Some _ => m | None => m end = m)
    by now destruct (Grid.intrinsicSize child).
  rewrite Hm. apply IH. intros k ch Hk.
  replace (S i + k)%nat with (i + S k)%nat by lia. now apply Hout.
Qed.

(** X9. [calculateAutoTrackSize], when the intrinsic sizes of the
    measured children are finite: the size of the track is a positive
    finite number, it is at least the intrinsic size of every measured
    child placed in the track, and it is 50 when no child is in the
    track. *)
Theorem auto_track_never_collapses (children : list Grid.item)
    (colCount trackIndex : nat) (axis : Layout.axis) :
  Forall (fun child => forall sz, Grid.intrinsicSize child = Some sz ->
                                  JS.is_fin (Layout.along axis sz)) children ->
  exists q,
    Grid.calculateAutoTrackSize children colCount trackIndex axis = JS.Fin q
    /\ (0 < q)%Q
    /\ (forall k child sz,
          children !! k = Some child -> Grid.intrinsicSize child = Some sz ->
          Grid.inTrack axis (Grid.getGridPlacement child k colCount) trackIndex = true ->
          exists s, Layout.along axis sz = JS.Fin s /\ (s <= q)%Q)
    /\ ((forall k child, children !! k = Some child ->
           Grid.inTrack axis (Grid.getGridPlacement child k colCount) trackIndex = false) ->
        (q == 50)%Q).
Proof.
  intros Hfin. unfold Grid.calculateAutoTrackSize, JS.zero.
  destruct (maxSize_from_bounds axis colCount trackIndex children 0 0 Hfin)
    as (m & Hm & Hm0 & Hall).
  assert (Hnone : (forall k child, children !! k = Some child ->
             Grid.inTrack axis (Grid.getGridPlacement child k colCount) trackIndex = false) ->
           (m == 0)%Q).
  { intros Hout.
    rewrite (maxSize_from_none axis colCount trackIndex children 0 (JS.Fin 0) Hout) in Hm.
    injection Hm as <-. reflexivity. }
  rewrite Hm. unfold JS.or_else, JS.truthy.
  destruct (Qeq_bool m 0) eqn:Hz; cbn [negb].
  - apply Qeq_bool_iff in Hz. exists 50%Q. split; [reflexivity|]. split; [reflexivity|].
    split; [|reflexivity].
    intros k child sz Hk Hsz Hin. destruct (Hall k child sz Hk Hsz Hin) as (s & Hs & Hle).
    exists s. split; [exact Hs|lra].
  - apply Qeq_bool_neq in Hz. exists m. split; [reflexivity|]. split; [lra|].
    split; [exact Hall|].
    intros Hout. exfalso. apply Hz. now apply Hnone.
Qed.

Lemma auto_track_never_collapses_witness :
  exists q,
    Grid.calculateAutoTrackSize
      [Grid.auto_item (Some {| Layout.width := JS.Fin 80; Layout.height := JS.Fin 20 |});
       Grid.auto_item None] 2 0 Layout.Width = JS.Fin q
    /\ (0 < q)%Q.
Proof.
  destruct (auto_track_never_collapses
              [Grid.auto_item (Some {| Layout.width := JS.Fin 80; Layout.height := JS.Fin 20 |});
               Grid.auto_item None] 2 0 Layout.Width) as (q & Hq & Hpos & _).
  - repeat constructor; intros sz [= <-]; exact I.
  - exists q. split; assumption.
Defined.

(** ** Grid tracks of mixed kinds *)

Lemma usedSpace_mixed ks : forall acc,
  exists u,
    fold_left (fun u k => match k with
                          | Layout.SizedTrack s => JS.add u s
                          | Layout.FrTrack _ => u
                          end)
              (map GridTracks.track_of ks) (JS.Fin acc) = JS.Fin u
    /\ (u == acc + GridTracks.sizedSum ks)%Q.
Proof.
  induction ks as [|[w|s] ks IH]; intros acc; cbn [map fold_left GridTracks.track_of
                                                    GridTracks.sizedSum].
  - exists acc. split; [reflexivity|ring].
  - apply IH.
  - cbn [JS.add]. destruct (IH (acc + s)%Q) as (u & Hu & Hv).
    exists u. split; [exact Hu|]. rewrite Hv. ring.
Qed.

Lemma totalFr_mixed ks : forall acc,
  exists t,
    fold_left (fun s k => match k with
                          | Layout.FrTrack v => JS.add s v
                          | Layout.SizedTrack _ => s
                          end)
              (map GridTracks.track_of ks) (JS.Fin acc) = JS.Fin t
    /\ (t == acc + GridTracks.frSum ks)%Q.
Proof.
  induction ks as [|[w|s] ks IH]; intros acc; cbn [map fold_left GridTracks.track_of
                                                    GridTracks.frSum].
  - exists acc. split; [reflexivity|ring].
  - cbn [JS.add]. destruct (IH (acc + w)%Q) as (t & Ht & Hv).
    exists t. split; [exact Ht|]. rewrite Hv. ring.
  - apply IH.
Qed.

Lemma Qsum_shared u ks :
  (Layout.Qsum (map (fun k => match k with
                              | GridTracks.Fr w => u * w
                              | GridTracks.Sized s => s
                              end) ks)
   == u * GridTracks.frSum ks + GridTracks.sizedSum ks)%Q.
Proof.
  induction ks as [|[w|s] ks IH];
    cbn [map Layout.Qsum GridTracks.frSum GridTracks.sizedSum]; [ring| |];
    rewrite IH; ring.
Qed.

Lemma Forall2_Qeq_kinds (f f' : GridTracks.kind -> Q) ks :
  (forall k, f k == f' k)%Q -> Forall2 Qeq (map f ks) (map f' ks).
Proof. intros H. induction ks; cbn; constructor; auto. Qed.



(** ** Colour stops *)

Lemma take_while_digits s :
  Forall (fun c => JS.is_digit c = true)
         (list_ascii_of_string (Scan.take_while JS.is_digit s)).
Proof.
  induction s as [|c r IH]; cbn; [constructor|].
  destruct (JS.is_digit c) eqn:Hc; cbn; [now constructor|constructor].
Qed.

Lemma match_percent_digits fuel : forall s run,
  Scan.match_percent s fuel = Some run ->
  run <> "" /\ Forall (fun c => JS.is_digit c = true) (list_ascii_of_string run).
Proof.
  induction fuel as [|fuel IH]; intros s run H; [discriminate|].
  cbn [Scan.match_percent] in H. destruct s as [|c r]; [discriminate|].
  destruct (JS.is_digit c) eqn:Hc.
  - destruct (JS.drop_str _ _) as [|c' r'] eqn:Hd; [now apply IH in H|].
    destruct (Ascii.eqb c' "%") eqn:Hp.
    + apply Ascii.eqb_eq in Hp. subst c'. injection H as <-. split.
      * cbn [Scan.take_while]. rewrite Hc. discriminate.
      * apply (take_while_digits (String c r)).
    + assert (H' : Scan.match_percent (String c' r') fuel = Some run).
      { revert H. destruct c' as [[] [] [] [] [] [] [] []]; try discriminate Hp; auto. }
      now apply IH in H'.
  - now apply IH in H.
Qed.

Lemma digit_val_nonneg c : JS.is_digit c = true -> 0 <= JS.digit_val c.
Proof.
  unfold JS.is_digit, JS.digit_val. intros H. apply andb_true_iff in H as [H _].
  apply Nat.leb_le in H. lia.
Qed.

Lemma span_digits_all s :
  Forall (fun c => JS.is_digit c = true) (list_ascii_of_string s) ->
  JS.span_digits s = (map JS.digit_val (list_ascii_of_string s), EmptyString).
Proof.
  induction s as [|c r IH]; cbn; intros H; [reflexivity|].
  inversion H as [|? ? Hc Hr]; subst. rewrite Hc, (IH Hr). reflexivity.
Qed.

Lemma digits_value_nonneg ds :
  Forall (fun d => 0 <= d) ds -> 0 <= JS.digits_value ds.
Proof.
  assert (G : forall ds acc, Forall (fun d => 0 <= d) ds -> 0 <= acc ->
                0 <= fold_left (fun a d => 10 * a + d) ds acc).
  { clear. induction ds as [|d ds IH]; intros acc H Ha; cbn; [assumption|].
    inversion H; subst. apply IH; [assumption|lia]. }
  intros H. apply G; [assumption|lia].
Qed.

Lemma round_even_nonneg q : (0 <= q)%Q -> 0 <= JS.round_even q.
Proof.
  intros Hq. unfold JS.round_even.
  pose proof (Qfloor_resp_le 0 q Hq) as Hf. change (Qfloor 0) with 0 in Hf.
  destruct (_ ?= _)%Q; [destruct (Z.even _)|..]; lia.
Qed.

Lemma round64_pos_nonneg q : (0 <= q)%Q -> JS.nonneg (JS.round64_pos q).
Proof.
  intros Hq. unfold JS.round64_pos.
  set (e := Z.max _ _). set (m := JS.round_even _).
  assert (Hm : 0 <= m).
  { apply round_even_nonneg. apply Qmult_le_0_compat; [exact Hq|].
    apply Qlt_le_weak, pow2_pos. }
  destruct (Qle_bool _ _); [exact I|]. cbn [JS.nonneg].
  rewrite Qred_correct. apply Qmult_le_0_compat.
  - change 0%Q with (inject_Z 0). now rewrite <- Zle_Qle.
  - apply Qlt_le_weak, pow2_pos.
Qed.

(** Rounding to binary64 keeps a number that is not negative so; it may
    take it to [Infinity]. *)
Lemma round64_nonneg q : (0 <= q)%Q -> JS.nonneg (JS.round64 q).
Proof.
  intros Hq. unfold JS.round64.
  destruct (0 ?= q)%Q eqn:Hc.
  - cbn. apply Qle_refl.
  - now apply round64_pos_nonneg.
  - exfalso. rewrite <- Qgt_alt in Hc. lra.
Qed.

(** [parseFloat] of a non-empty run of digits is not negative and not
    [NaN]. *)
Lemma parseFloat_digits run :
  run <> "" ->
  Forall (fun c => JS.is_digit c = true) (list_ascii_of_string run) ->
  JS.nonneg (JS.parseFloat run).
Proof.
  intros Hne Hall. destruct run as [|c r]; [contradiction|].
  pose proof (span_digits_all _ Hall) as Hspan.
  assert (Hc : JS.is_digit c = true) by (inversion Hall; assumption).
  assert (Hv : 0 <= JS.digits_value (map JS.digit_val (list_ascii_of_string (String c r)))).
  { apply digits_value_nonneg. apply Forall_map.
    eapply Forall_impl; [exact Hall|]. intros x Hx. now apply digit_val_nonneg. }
  assert (Hpu : JS.parse_unsigned (String c r)
                = JS.round64 (inject_Z (JS.digits_value
                     (map JS.digit_val (list_ascii_of_string (String c r))) * 1))).
  { unfold JS.parse_unsigned.
    assert (Hinf : JS.startsWith (String c r) "Infinity" = false).
    { cbn [JS.startsWith]. destruct (Ascii.eqb c "I") eqn:E; [|reflexivity].
      apply Ascii.eqb_eq in E. subst c. discriminate. }
    rewrite Hinf, Hspan. cbn [list_ascii_of_string map].
    rewrite app_nil_r. reflexivity. }
  assert (Hpf : JS.parseFloat (String c r) = JS.parse_unsigned (String c r)).
  { unfold JS.parseFloat.
    assert (Hsp : JS.is_space c = false).
    { clear -Hc. destruct c as [[] [] [] [] [] [] [] []]; try discriminate Hc; reflexivity. }
    cbn [JS.trimStart]. rewrite Hsp.
    clear -Hc. destruct c as [[] [] [] [] [] [] [] []]; try discriminate Hc; reflexivity. }
  rewrite Hpf, Hpu. apply round64_nonneg.
  rewrite Z.mul_1_r. change 0%Q with (inject_Z 0). rewrite <- Zle_Qle. exact Hv.
Qed.

Lemma nonneg_percent a : JS.nonneg a -> JS.nonneg (JS.div a (JS.Fin 100)).
Proof.
  destruct a as [| | |q]; intros H; cbn [JS.nonneg] in H; try contradiction.
  - exact I.
  - rewrite div_Fin by (unfold Qeq; cbn; lia). cbn [JS.nonneg].
    apply Qle_shift_div_l; lra.
Qed.

Lemma percent_position d :
  (exists s, Scan.percent_of s = Some d) ->
  JS.nonneg (JS.div (JS.parseFloat d) (JS.Fin 100)).
Proof.
  intros [s Hs]. unfold Scan.percent_of in Hs.
  apply match_percent_digits in Hs as [Hne Hall].
  apply nonneg_percent. now apply parseFloat_digits.
Qed.

(** The share given to the part of index [i] when it carries no
    percentage, with the guard against a zero denominator. *)
Lemma index_share_guarded (i s len : nat) :
  (s <= i)%nat -> (i < len)%nat ->
  exists q,
    JS.div (JS.sub (JS.ofNat i) (JS.ofNat s))
           (JS.or_else (JS.sub (JS.sub (JS.ofNat len) (JS.ofNat s)) JS.one) JS.one)
    = JS.Fin q
    /\ (0 <= q)%Q /\ (q <= 1)%Q
    /\ (q == inject_Z (Z.of_nat (i - s))
             / (if (len - s =? 1)%nat then 1 else inject_Z (Z.of_nat (len - s - 1))))%Q.
Proof.
  intros Hs Hi. unfold JS.ofNat, JS.ofZ, JS.one. cbn [JS.sub JS.neg JS.add].
  set (num := (inject_Z (Z.of_nat i) + - inject_Z (Z.of_nat s))%Q).
  set (den := (inject_Z (Z.of_nat len) + - inject_Z (Z.of_nat s) + - (1))%Q).
  assert (Hnum : (num == inject_Z (Z.of_nat (i - s)))%Q).
  { unfold num. rewrite Nat2Z.inj_sub by lia. unfold Z.sub.
    rewrite inject_Z_plus, inject_Z_opp. reflexivity. }
  assert (Hden : (den == inject_Z (Z.of_nat (len - s - 1)))%Q).
  { unfold den. rewrite !Nat2Z.inj_sub by lia. unfold Z.sub.
    rewrite !inject_Z_plus, !inject_Z_opp. reflexivity. }
  assert (Hn0 : (0 <= inject_Z (Z.of_nat (i - s)))%Q).
  { change 0%Q with (inject_Z 0). rewrite <- Zle_Qle. lia. }
  assert (Hle : (inject_Z (Z.of_nat (i - s)) <= inject_Z (Z.of_nat (len - s - 1)))%Q).
  { rewrite <- Zle_Qle. lia. }
  unfold JS.or_else, JS.truthy.
  destruct (Qeq_bool den 0) eqn:Hz; cbn [negb].
  - apply Qeq_bool_iff in Hz.
    assert (Hl : (len - s)%nat = 1%nat).
    { rewrite Hden in Hz. change 0%Q with (inject_Z 0) in Hz.
      rewrite inject_Z_injective in Hz. lia. }
    rewrite Hl. cbn [Nat.eqb].
    rewrite div_Fin by (unfold Qeq; cbn; lia).
    eexists. split; [reflexivity|].
    assert (Hnz : (num == 0)%Q).
    { rewrite Hnum. replace (i - s)%nat with 0%nat by lia. reflexivity. }
    split; [|split].
    + apply Qle_shift_div_l; lra.
    + apply Qle_shift_div_r; lra.
    + now rewrite Hnum.
  - apply Qeq_bool_neq in Hz.
    assert (Hl : (len - s =? 1)%nat = false).
    { apply Nat.eqb_neq. intros Hl. apply Hz. rewrite Hden.
      replace (len - s - 1)%nat with 0%nat by lia. reflexivity. }
    rewrite Hl. rewrite div_Fin by exact Hz.
    assert (Hpos : (0 < den)%Q).
    { rewrite Hden in *. apply Qle_lteq in Hle.
      assert (H0 : (0 <= inject_Z (Z.of_nat (len - s - 1)))%Q) by lra.
      apply Qle_lteq in H0 as [H0|H0]; [exact H0|]. exfalso. apply Hz. now symmetry. }
    eexists. split; [reflexivity|]. split; [|split].
    + apply Qle_shift_div_l; lra.
    + apply Qle_shift_div_r; lra.
    + now rewrite Hnum, Hden.
Qed.

Lemma colorStops_from_finite : forall rest i startIdx len,
  (startIdx <= i)%nat -> (i + List.length rest = len)%nat ->
  Forall (fun st => JS.nonneg (Gradient.position st))
         (Gradient.colorStops_from rest i startIdx len)
  /\ (List.length (Gradient.colorStops_from rest i startIdx len) <= List.length rest)%nat.
Proof.
  induction rest as [|stop rest IH]; intros i startIdx len Hs Hlen;
    cbn [Gradient.colorStops_from List.length].
  - split; [constructor|lia].
  - cbn [List.length] in Hlen.
    destruct (IH (S i) startIdx len ltac:(lia) ltac:(lia)) as [Hall Hcount].
    destruct (Gradient.colorMatch stop) as [c|]; [|split; [exact Hall|lia]].
    split; [|cbn [List.length]; lia]. constructor; [|exact Hall]. cbn [Gradient.position].
    destruct (Scan.percent_of stop) as [d|] eqn:Hp.
    + apply percent_position. eauto.
    + destruct (index_share_guarded i startIdx len Hs ltac:(lia)) as (q & -> & Hq & _).
      exact Hq.
Qed.

Lemma colorStops_from_even : forall rest i startIdx len k st,
  (startIdx <= i)%nat -> (i + List.length rest = len)%nat ->
  Forall (fun stop => is_Some (Gradient.colorMatch stop) /\ Scan.percent_of stop = None)
         rest ->
  Gradient.colorStops_from rest i startIdx len !! k = Some st ->
  (exists stop, rest !! k = Some stop /\ Gradient.colorMatch stop = Some (Gradient.color st))
  /\ exists q, Gradient.position st = JS.Fin q
       /\ (q == inject_Z (Z.of_nat (i + k - startIdx))
                / (if (len - startIdx =? 1)%nat then 1
                   else inject_Z (Z.of_nat (len - startIdx - 1))))%Q.
Proof.
  induction rest as [|stop rest IH]; intros i startIdx len k st Hs Hlen Hall Hk;
    [destruct k; discriminate|].
  apply Forall_cons_1 in Hall as [[[c Hc] Hp] Hrest].
  cbn [Gradient.colorStops_from List.length] in *. rewrite Hc, Hp in Hk.
  destruct k as [|k].
  - injection Hk as <-. cbn [Gradient.position Gradient.color].
    split; [exists stop; split; [reflexivity|exact Hc]|].
    destruct (index_share_guarded i startIdx len Hs ltac:(lia))
      as (q & Hdiv & _ & _ & Hq).
    exists q. split; [exact Hdiv|]. now rewrite Nat.add_0_r.
  - cbn [lookup list_lookup] in Hk |- *.
    destruct (IH (S i) startIdx len k st ltac:(lia) ltac:(lia) Hrest Hk)
      as [Hstop (q & Hq & Hv)].
    split; [exact Hstop|].
    exists q. split; [exact Hq|].
    now replace (i + S k - startIdx)%nat with (S i + k - startIdx)%nat by lia.
Qed.

Lemma colorStops_from_all : forall rest i startIdx len,
  Forall (fun stop => is_Some (Gradient.colorMatch stop) /\ Scan.percent_of stop = None)
         rest ->
  List.length (Gradient.colorStops_from rest i startIdx len) = List.length rest.
Proof.
  induction rest as [|stop rest IH]; intros i startIdx len Hall; [reflexivity|].
  apply Forall_cons_1 in Hall as [[[c Hc] _] Hrest].
  cbn [Gradient.colorStops_from List.length]. rewrite Hc. cbn [List.length].
  now rewrite IH.
Qed.




Lemma index_share_plain (i s len : nat) :
  (s <= i)%nat -> (i < len)%nat -> (2 <= len - s)%nat ->
  exists q,
    JS.div (JS.sub (JS.ofNat i) (JS.ofNat s))
           (JS.sub (JS.sub (JS.ofNat len) (JS.ofNat s)) JS.one)
    = JS.Fin q
    /\ (0 <= q)%Q /\ (q <= 1)%Q.
Proof.
  intros Hs Hi Hm.
  destruct (index_share_guarded i s len Hs Hi) as (q & Hq & H0 & H1 & _).
  exists q. split; [|split; assumption]. rewrite <- Hq. f_equal.
  unfold JS.or_else, JS.truthy, JS.ofNat, JS.ofZ, JS.one. cbn [JS.sub JS.neg JS.add].
  destruct (Qeq_bool _ 0) eqn:Hz; [|reflexivity].
  apply Qeq_bool_iff in Hz. exfalso. revert Hz. unfold Qeq. cbn. lia.
Qed.

Lemma worker_stops_finite : forall rest i startIdx len,
  (startIdx <= i)%nat -> (i + List.length rest = len)%nat -> (2 <= len - startIdx)%nat ->
  Forall (fun st => JS.nonneg (StyleWorker.offset st))
         (StyleWorker.colorStops_from rest i startIdx len).
Proof.
  induction rest as [|part rest IH]; intros i startIdx len Hs Hlen Hm;
    cbn [StyleWorker.colorStops_from List.length]; [constructor|].
  cbn [List.length] in Hlen.
  pose proof (IH (S i) startIdx len ltac:(lia) ltac:(lia) Hm) as Hall.
  destruct (StyleWorker.colorMatch part) as [c|]; [|exact Hall].
  constructor; [|exact Hall]. cbn [StyleWorker.offset].
  destruct (Scan.percent_of _) as [d|] eqn:Hp.
  - apply percent_position. eauto.
  - destruct (index_share_plain i startIdx len Hs ltac:(lia) Hm) as (q & -> & H0 & _).
    exact H0.
Qed.

(** X11. [parseColorStops] of the style worker: with at least two
    parts from [startIdx] on every offset is a number that is zero or
    above, never [NaN] and never negative (a percentage too long for a
    binary64 number gives [Infinity]); with a single part that has a
    colour and no percentage the offset of the only stop is [NaN]
    (0 divided by 0). *)
Theorem worker_offsets_need_two_parts (parts : list string) (startIdx : nat) :
  ((2 <= List.length parts - startIdx)%nat ->
   forall st, In st (StyleWorker.parseColorStops parts startIdx) ->
     JS.nonneg (StyleWorker.offset st))
  /\ (forall part c,
        drop startIdx parts = [part] ->
        StyleWorker.colorMatch part = Some c ->
        Scan.percent_of (JS.trim (JS.replace_first part c "")) = None ->
        map StyleWorker.offset (StyleWorker.parseColorStops parts startIdx) = [JS.NaN]).
Proof.
  split.
  - intros Hm st Hin. unfold StyleWorker.parseColorStops in Hin.
    assert (Hlen : (startIdx + List.length (drop startIdx parts) = List.length parts)%nat).
    { rewrite length_drop. lia. }
    pose proof (worker_stops_finite (drop startIdx parts) startIdx startIdx
                  (List.length parts) (Nat.le_refl _) Hlen Hm) as Hall.
    rewrite List.Forall_forall in Hall. now apply Hall.
  - intros part c Hdrop Hc Hp. unfold StyleWorker.parseColorStops. rewrite Hdrop.
    cbn [StyleWorker.colorStops_from]. rewrite Hc, Hp. cbn [map StyleWorker.offset].
    assert (Hlen : (List.length parts = startIdx + 1)%nat).
    { pose proof (f_equal (@List.length string) Hdrop) as H.
      rewrite length_drop in H. cbn in H. lia. }
    rewrite Hlen. f_equal.
    unfold JS.ofNat, JS.ofZ, JS.one. cbn [JS.sub JS.neg JS.add].
    unfold JS.div, JS.qsign.
    assert (Hd : (0 ?= inject_Z (Z.of_nat (startIdx + 1)) + - inject_Z (Z.of_nat startIdx)
                        + - (1))%Q = Eq).
    { apply Qeq_alt. unfold Qeq. cbn. lia. }
    assert (Hn : (0 ?= inject_Z (Z.of_nat startIdx) + - inject_Z (Z.of_nat startIdx))%Q = Eq).
    { apply Qeq_alt. unfold Qeq. cbn. lia. }
    rewrite Hd, Hn. reflexivity.
Qed.

Lemma worker_offsets_need_two_parts_witness :
  map StyleWorker.offset (StyleWorker.parseColorStops ["red"] 0) = [JS.NaN]
  /\ Forall (fun st => JS.nonneg (StyleWorker.offset st))
            (StyleWorker.parseColorStops ["red"; "blue 50%"] 0).
Proof.
  destruct (worker_offsets_need_two_parts ["red"] 0) as [_ Hone].
  destruct (worker_offsets_need_two_parts ["red"; "blue 50%"] 0) as [Htwo _].
  split.
  - apply (Hone "red" "red"); reflexivity.
  - apply List.Forall_forall. intros st Hin.
    apply (Htwo ltac:(cbn; lia) st Hin).
Defined.

(** ** Colours *)

Lemma land_shifted_low (a b n : Z) :
  0 <= n -> 0 <= b < 2 ^ n -> Z.land (a * 2 ^ n) b = 0.
Proof.
  intros Hn Hb. apply Z.bits_inj'. intros k Hk.
  rewrite Z.land_spec, Z.bits_0.
  destruct (Z.lt_ge_cases k n) as [Hlt|Hge].
  - rewrite Z.mul_pow2_bits_low by lia. reflexivity.
  - destruct (Z.eq_dec b 0) as [->|Hb0]; [now rewrite Z.bits_0, andb_false_r|].
    rewrite (Z.bits_above_log2 b k); [now rewrite andb_false_r|lia|].
    apply Z.lt_le_trans with n; [|exact Hge].
    apply Z.log2_lt_pow2; lia.
Qed.

Lemma lor_shifted_low (a b n : Z) :
  0 <= n -> 0 <= b < 2 ^ n -> Z.lor (a * 2 ^ n) b = a * 2 ^ n + b.
Proof.
  intros Hn Hb. pose proof (land_shifted_low a b n Hn Hb) as Hl.
  rewrite <- Z.lxor_lor by exact Hl. symmetry. now apply Z.add_nocarry_lxor.
Qed.

Lemma to_int32_small z : - 2 ^ 31 <= z < 2 ^ 31 -> StyleWorker.to_int32 z = z.
Proof.
  intros Hz. unfold StyleWorker.to_int32. rewrite Z.mod_small; lia.
Qed.

Lemma pack_bytes (r g b : Z) :
  0 <= r <= 255 -> 0 <= g <= 255 -> 0 <= b <= 255 ->
  StyleWorker.or32 (StyleWorker.or32 (StyleWorker.shl32 r 16) (StyleWorker.shl32 g 8)) b
  = 65536 * r + 256 * g + b.
Proof.
  intros Hr Hg Hb. unfold StyleWorker.or32, StyleWorker.shl32.
  rewrite !Z.shiftl_mul_pow2 by lia.
  rewrite !to_int32_small by lia.
  assert (H1 : Z.lor (r * 2 ^ 16) (g * 2 ^ 8) = (r * 2 ^ 8 + g) * 2 ^ 8).
  { replace (r * 2 ^ 16) with (Z.shiftl (r * 2 ^ 8) 8)
      by (rewrite Z.shiftl_mul_pow2; lia).
    replace (g * 2 ^ 8) with (Z.shiftl g 8) by (rewrite Z.shiftl_mul_pow2; lia).
    rewrite <- Z.shiftl_lor, lor_shifted_low by lia.
    rewrite Z.shiftl_mul_pow2; lia. }
  rewrite H1, lor_shifted_low by lia. lia.
Qed.

Lemma number_runs_chars fuel : forall s run,
  In run (StyleWorker.number_runs s fuel) ->
  exists c r, run = String c r /\ StyleWorker.is_num_char c = true
              /\ Forall (fun x => StyleWorker.is_num_char x = true) (list_ascii_of_string r).
Proof.
  induction fuel as [|fuel IH]; intros s run Hin; [destruct Hin|].
  cbn [StyleWorker.number_runs] in Hin. destruct s as [|c r]; [destruct Hin|].
  destruct (StyleWorker.is_num_char c) eqn:Hc.
  - destruct Hin as [<-|Hin]; [|now apply IH in Hin].
    cbn [Scan.take_while]. rewrite Hc. exists c, (Scan.take_while StyleWorker.is_num_char r).
    repeat split; [exact Hc|].
    clear. induction r as [|x r IH]; cbn; [constructor|].
    destruct (StyleWorker.is_num_char x) eqn:Hx; cbn; [now constructor|constructor].
  - now apply IH in Hin.
Qed.

Lemma span_digits_value s :
  0 <= JS.digits_value (fst (JS.span_digits s)).
Proof.
  apply digits_value_nonneg.
  induction s as [|c r IH]; cbn; [constructor|].
  destruct (JS.is_digit c) eqn:Hc; [|constructor].
  destruct (JS.span_digits r) as [ds rest]. cbn in *. constructor; [|exact IH].
  now apply digit_val_nonneg.
Qed.

(** [parseInt] of a run of digits and dots is not negative. *)
Lemma parseInt_run c r v :
  StyleWorker.is_num_char c = true ->
  Forall (fun x => StyleWorker.is_num_char x = true) (list_ascii_of_string r) ->
  JS.parseInt (String c r) = Some v -> 0 <= v.
Proof.
  intros Hc Hr Hv. unfold JS.parseInt in Hv.
  assert (Hsp : JS.is_space c = false).
  { clear -Hc. unfold StyleWorker.is_num_char in Hc.
    destruct c as [[] [] [] [] [] [] [] []]; try discriminate Hc; reflexivity. }
  cbn [JS.trimStart] in Hv. rewrite Hsp in Hv.
  assert (Hu : JS.parse_int_unsigned (String c r) = Some v).
  { clear -Hc Hv. unfold StyleWorker.is_num_char in Hc.
    destruct c as [[] [] [] [] [] [] [] []]; try discriminate Hc; exact Hv. }
  clear Hv. unfold JS.parse_int_unsigned in Hu.
  assert (Hx : JS.startsWith (String c r) "0x" || JS.startsWith (String c r) "0X" = false).
  { cbn [JS.startsWith]. destruct r as [|x r']; [now rewrite !andb_false_r|].
    inversion Hr as [|? ? Hxc _]; subst.
    assert (E1 : Ascii.eqb x "x" = false).
    { clear -Hxc. unfold StyleWorker.is_num_char in Hxc.
      destruct x as [[] [] [] [] [] [] [] []]; try discriminate Hxc; reflexivity. }
    assert (E2 : Ascii.eqb x "X" = false).
    { clear -Hxc. unfold StyleWorker.is_num_char in Hxc.
      destruct x as [[] [] [] [] [] [] [] []]; try discriminate Hxc; reflexivity. }
    cbn [JS.startsWith]. rewrite E1, E2. cbn. now rewrite !andb_false_r. }
  rewrite Hx in Hu.
  pose proof (span_digits_value (String c r)) as Hge.
  destruct (JS.span_digits (String c r)) as [[|d ds] rest]; [discriminate|].
  injection Hu as <-. exact Hge.
Qed.

Lemma channel_byte runs k :
  (forall run, In run runs ->
     exists c r, run = String c r /\ StyleWorker.is_num_char c = true
       /\ Forall (fun x => StyleWorker.is_num_char x = true) (list_ascii_of_string r)) ->
  JSMath.toInt32 (Pixi.channel runs k) = Pixi.denoted runs k
  /\ 0 <= Pixi.denoted runs k <= 255.
Proof.
  intros Hruns. unfold Pixi.channel, Pixi.denoted, Style.parseIntO.
  destruct (runs !! k) as [run|] eqn:Hk; cbn [mbind option_bind];
    [|split; [reflexivity|lia]].
  destruct (Hruns run) as (c & r & -> & Hc & Hr).
  { apply list_elem_of_In. eapply list_elem_of_lookup_2, Hk. }
  destruct (JS.parseInt (String c r)) as [v|] eqn:Hv;
    [|split; [reflexivity|lia]].
  pose proof (parseInt_run c r v Hc Hr Hv) as Hv0.
  unfold JS.ofInt.
  destruct (Z.lt_ge_cases v (2 ^ 53)) as [Hsmall|Hbig];
    [rewrite round64_int by lia|].
  2:{ rewrite Z.min_l by lia. split; [|lia].
      destruct (round64_big v Hbig) as [->|(q & -> & Hq)]; [reflexivity|].
      destruct (min_Fin_cases 255 q) as [[-> _]|[_ Hlt]]; [reflexivity|].
      exfalso. assert (Hc53 : (255 < inject_Z (2 ^ 53))%Q) by reflexivity. lra. }
  destruct (min_Fin_cases 255 (inject_Z v)) as [[-> Hle]|[-> Hlt]].
  - assert (Hv255 : 255 <= v).
    { change 255%Q with (inject_Z 255) in Hle. now rewrite <- Zle_Qle in Hle. }
    rewrite Z.min_l by exact Hv255. split; [reflexivity|lia].
  - assert (Hv255 : v < 255).
    { change 255%Q with (inject_Z 255) in Hlt. now rewrite <- Zlt_Qlt in Hlt. }
    rewrite Z.min_r by lia.
    split; [|lia]. cbn [JSMath.toInt32]. unfold JSMath.trunc.
    assert (Hb : Qle_bool 0 (inject_Z v) = true).
    { apply Qle_bool_iff. change 0%Q with (inject_Z 0). now rewrite <- Zle_Qle. }
    rewrite Hb, Qfloor_Z. apply to_int32_small. lia.
Qed.

Lemma startsWith_cons s c p :
  JS.startsWith s (String c p) = true -> exists r, s = String c r.
Proof.
  destruct s as [|a r]; cbn; [discriminate|].
  intros H. apply andb_true_iff in H as [H _]. apply Ascii.eqb_eq in H. subst. eauto.
Qed.

(** X12. [PixiRendererEngine.parseColor] on a colour that, trimmed
    and in lower case, starts with [rgb] and holds at least three runs of
    digits and dots: the red, green and blue channels are the integers
    [parseInt] reads from the first three runs, each clamped to 255 (0 for
    a run that holds no leading digit); each lies between 0 and 255, and
    the packed colour is 65536 r + 256 g + b, a number between 0 and
    0xffffff. *)
Theorem rgb_colours_pack_into_24_bits (raw : string) :
  let colour := JS.toLowerCase (JS.trim raw) in
  let runs := StyleWorker.number_runs colour (String.length colour) in
  let r := Pixi.denoted runs 0 in
  let g := Pixi.denoted runs 1 in
  let b := Pixi.denoted runs 2 in
  raw <> "" ->
  JS.startsWith colour "rgb" = true ->
  (3 <= List.length runs)%nat ->
  (0 <= r <= 255 /\ 0 <= g <= 255 /\ 0 <= b <= 255)
  /\ StyleWorker.hex (Pixi.parseColor (Some raw)) = JS.ofZ (65536 * r + 256 * g + b)
  /\ 0 <= 65536 * r + 256 * g + b <= 0xffffff.
Proof.
  intros c runs r g b Hraw Hrgb Hruns. unfold Pixi.parseColor.
  apply String.eqb_neq in Hraw. rewrite Hraw. fold c.
  destruct (startsWith_cons _ _ _ Hrgb) as [rest Hc].
  assert (Ht : String.eqb c "transparent" = false) by (rewrite Hc; reflexivity).
  assert (Hh : JS.startsWith c "#" = false) by (rewrite Hc; reflexivity).
  rewrite Ht, Hh. unfold Pixi.afterHex. rewrite Hrgb. fold runs.
  apply Nat.leb_le in Hruns. rewrite Hruns. cbn [andb].
  assert (Hchars := number_runs_chars (String.length c) c).
  fold runs in Hchars.
  destruct (channel_byte runs 0 Hchars) as (Hr & Hr').
  destruct (channel_byte runs 1 Hchars) as (Hg & Hg').
  destruct (channel_byte runs 2 Hchars) as (Hb & Hb').
  fold r in Hr, Hr'. fold g in Hg, Hg'. fold b in Hb, Hb'.
  split; [auto|]. split; [|lia].
  unfold Pixi.fromRgb, Pixi.pack. cbn [StyleWorker.hex].
  rewrite Hr, Hg, Hb, pack_bytes by lia. reflexivity.
Qed.

Lemma rgb_colours_pack_into_24_bits_witness :
  Pixi.denoted (StyleWorker.number_runs "rgb(300, 128, 0)" 16) 0 = 255
  /\ StyleWorker.hex (Pixi.parseColor (Some " RGB(300, 128, 0)")) = JS.ofZ 0xff8000.
Proof.
  destruct (rgb_colours_pack_into_24_bits " RGB(300, 128, 0)") as (_ & Hhex & _).
  - discriminate.
  - reflexivity.
  - vm_compute. lia.
  - split; [reflexivity|]. rewrite Hhex. reflexivity.
Defined.

Example rgb_clamped :
  Pixi.parseColor (Some " RGB(300, 128, 0)")
  = {| StyleWorker.hex := JS.ofZ 0xff8000; StyleWorker.alpha := JS.one |}.
Proof. vm_compute. reflexivity. Qed.

(** The conversions round as binary64 arithmetic does: the green channel
    of [hsl(0, 80%, 50%)] is 25, where exact arithmetic gives 25.5 and
    26; and the style worker shifts the binary64 value of a channel. *)
Example colours_round_in_binary64 :
  StyleWorker.hex (Pixi.parseColor (Some "hsl(0, 80%, 50%)")) = JS.ofZ 0xe61919
  /\ StyleWorker.hex (StyleWorker.parseColor "rgb(9007199254740993, 1, 2)")
     = JS.ofZ 258.
Proof. split; vm_compute; reflexivity. Qed.


Lemma hex_digit_facts c :
  JS.is_hex_digit c = true ->
  JS.is_space c = false
  /\ JS.is_hex_digit (JS.lower_char c) = true
  /\ JS.hex_val (JS.lower_char c) = JS.hex_val c
  /\ 0 <= JS.hex_val c <= 15
  /\ (forall x, In x ["-"; "+"; "x"; "X"; "#"]%char -> Ascii.eqb c x = false).
Proof.
  intros H. destruct c as [[] [] [] [] [] [] [] []]; try discriminate H;
    (split; [reflexivity|]); (split; [reflexivity|]); (split; [reflexivity|]);
    (split; [vm_compute; split; discriminate|]);
    intros x Hx; cbn in Hx;
    repeat (destruct Hx as [<-|Hx]; [reflexivity|]); destruct Hx.
Qed.

Lemma span_hex_all s :
  Forall (fun c => JS.is_hex_digit c = true) (list_ascii_of_string s) ->
  JS.span_hex s = map JS.hex_val (list_ascii_of_string s).
Proof.
  induction s as [|c r IH]; cbn; intros H; [reflexivity|].
  inversion H as [|? ? Hc Hr]; subst. rewrite Hc. f_equal. now apply IH.
Qed.

Lemma parseInt16_hex h :
  h <> "" -> Pixi.hex_digits h ->
  StyleWorker.parseInt16 h = Some (Pixi.hex_value h).
Proof.
  intros Hne Hall. destruct h as [|c r]; [contradiction|].
  pose proof (span_hex_all _ Hall) as Hspan.
  assert (Hc : JS.is_hex_digit c = true) by (inversion Hall; assumption).
  destruct (hex_digit_facts c Hc) as (Hsp & _ & _ & _ & Hneq).
  unfold StyleWorker.parseInt16. cbn [JS.trimStart]. rewrite Hsp.
  assert (Hbody :
    (let r' := if JS.startsWith (String c r) "0x" || JS.startsWith (String c r) "0X"
               then JS.drop_str 2 (String c r) else String c r in
     match JS.span_hex r' with
     | [] => None
     | d :: ds => Some (fold_left (fun acc d0 => 16 * acc + d0) (d :: ds) 0)
     end) = Some (Pixi.hex_value (String c r))).
  { assert (Hx : JS.startsWith (String c r) "0x" || JS.startsWith (String c r) "0X" = false).
    { cbn [JS.startsWith]. destruct r as [|x r']; [now rewrite !andb_false_r|].
      inversion Hall as [|? ? _ Hr]; subst. inversion Hr as [|? ? Hxc _]; subst.
      destruct (hex_digit_facts x Hxc) as (_ & _ & _ & _ & Hxn).
      cbn [JS.startsWith].
      rewrite (Hxn "x"%char), (Hxn "X"%char) by (cbn; tauto).
      cbn. now rewrite !andb_false_r. }
    rewrite Hx. cbv zeta. rewrite Hspan. unfold Pixi.hex_value.
    cbn [list_ascii_of_string map]. reflexivity. }
  pose proof (Hneq "-"%char ltac:(cbn; tauto)) as Hm.
  pose proof (Hneq "+"%char ltac:(cbn; tauto)) as Hp.
  clear -Hbody Hm Hp.
  destruct c as [[] [] [] [] [] [] [] []]; try discriminate Hm; try discriminate Hp;
    exact Hbody.
Qed.

Lemma hex_value_bound_from ds : forall acc n,
  Forall (fun d => 0 <= d <= 15) ds -> 0 <= acc < 16 ^ n -> 0 <= n ->
  0 <= fold_left (fun a d => 16 * a + d) ds acc < 16 ^ (n + Z.of_nat (List.length ds)).
Proof.
  induction ds as [|d ds IH]; intros acc n Hall Hacc Hn; cbn [fold_left List.length].
  - now rewrite Z.add_0_r.
  - inversion Hall as [|? ? Hd Hds]; subst.
    replace (n + Z.of_nat (S (List.length ds))) with ((n + 1) + Z.of_nat (List.length ds))
      by lia.
    apply IH; [exact Hds| |lia].
    rewrite Z.pow_add_r by lia. lia.
Qed.

Lemma hex_value_bound h :
  Pixi.hex_digits h ->
  0 <= Pixi.hex_value h < 16 ^ Z.of_nat (String.length h).
Proof.
  intros Hall. unfold Pixi.hex_value.
  pose proof (hex_value_bound_from (map JS.hex_val (list_ascii_of_string h)) 0 0) as H.
  rewrite length_map in H.
  assert (Hl : List.length (list_ascii_of_string h) = String.length h).
  { clear. induction h; cbn; congruence. }
  rewrite Hl in H. apply H; [|lia|lia].
  apply Forall_map. eapply Forall_impl; [exact Hall|].
  intros c Hc. now destruct (hex_digit_facts c Hc) as (_ & _ & _ & ? & _).
Qed.

(** Binary64 holds the value of six hexadecimal digits exactly. *)
Lemma ofInt_six_digits v : 0 <= v < 16777216 -> JS.ofInt v = JS.ofZ v.
Proof.
  intros Hv. unfold JS.ofInt. apply round64_int.
  change (2 ^ 53) with 9007199254740992. lia.
Qed.

Lemma toLowerCase_hex h :
  Pixi.hex_digits h ->
  Pixi.hex_digits (JS.toLowerCase h)
  /\ Pixi.hex_value (JS.toLowerCase h) = Pixi.hex_value h
  /\ String.length (JS.toLowerCase h) = String.length h.
Proof.
  unfold Pixi.hex_digits, Pixi.hex_value. generalize 0 as acc.
  induction h as [|c r IH]; intros acc Hall; cbn; [repeat split; constructor|].
  inversion Hall as [|? ? Hc Hr]; subst.
  destruct (hex_digit_facts c Hc) as (_ & Hl & Hv & _).
  rewrite Hv. destruct (IH (16 * acc + JS.hex_val c) Hr) as (H1 & H2 & H3).
  repeat split; [now constructor|exact H2|now rewrite H3].
Qed.

Lemma trimEnd_nospace s :
  Forall (fun c => JS.is_space c = false) (list_ascii_of_string s) -> JS.trimEnd s = s.
Proof.
  induction s as [|c r IH]; cbn; intros H; [reflexivity|].
  inversion H as [|? ? Hc Hr]; subst. rewrite (IH Hr), Hc. now destruct r.
Qed.

(** X13. A hash sign followed by six hexadecimal digits, of either
    case, is read by [PixiRendererEngine.parseColor] and by the style
    worker's [parseColor] as the number the digits denote in base 16, with
    alpha 1; that number lies between 0 and 0xffffff. *)
Theorem six_hex_digits_decode (h : string) :
  String.length h = 6%nat -> Pixi.hex_digits h ->
  Pixi.parseColor (Some (String "#" h))
    = {| StyleWorker.hex := JS.ofZ (Pixi.hex_value h); StyleWorker.alpha := JS.one |}
  /\ StyleWorker.parseColor (String "#" h)
     = {| StyleWorker.hex := JS.ofZ (Pixi.hex_value h); StyleWorker.alpha := JS.one |}
  /\ 0 <= Pixi.hex_value h <= 0xffffff.
Proof.
  intros Hlen Hall.
  assert (Hne : h <> "") by (intros ->; discriminate).
  destruct (toLowerCase_hex h Hall) as (Hlall & Hlval & Hllen).
  assert (Hlne : JS.toLowerCase h <> "").
  { intros E. rewrite E in Hllen. cbn in Hllen. lia. }
  split; [|split].
  - unfold Pixi.parseColor. cbn [String.eqb Ascii.eqb Bool.eqb].
    assert (Htrim : JS.trim (String "#" h) = String "#" h).
    { unfold JS.trim. cbn [JS.trimStart]. change (JS.is_space "#") with false. cbv iota.
      apply trimEnd_nospace. cbn [list_ascii_of_string]. constructor; [reflexivity|].
      eapply Forall_impl; [exact Hall|].
      intros c Hc. now destruct (hex_digit_facts c Hc). }
    rewrite Htrim. cbn [JS.toLowerCase]. change (JS.lower_char "#") with "#"%char.
    assert (Ht : String.eqb (String "#" (JS.toLowerCase h)) "transparent" = false)
      by reflexivity.
    rewrite Ht. cbn [JS.startsWith Ascii.eqb Bool.eqb andb JS.drop_str].
    assert (Hs : JS.startsWith (JS.toLowerCase h) "" = true)
      by (destruct (JS.toLowerCase h); reflexivity).
    rewrite Hs, Hllen, Hlen. cbn [Nat.eqb].
    rewrite Hllen, Hlen. cbn [Nat.eqb].
    rewrite (parseInt16_hex _ Hlne Hlall), Hlval. reflexivity.
  - unfold StyleWorker.parseColor.
    assert (Ht : String.eqb (String "#" h) "" || String.eqb (String "#" h) "transparent"
                 = false) by reflexivity.
    rewrite Ht. cbn [JS.startsWith Ascii.eqb Bool.eqb andb JS.drop_str].
    assert (Hs : JS.startsWith h "" = true) by (destruct h; reflexivity).
    rewrite Hs, Hlen. cbn [Nat.eqb].
    rewrite (parseInt16_hex _ Hne Hall). cbn [StyleWorker.number_of].
    rewrite ofInt_six_digits; [reflexivity|].
    pose proof (hex_value_bound h Hall) as Hb. rewrite Hlen in Hb.
    change (16 ^ Z.of_nat 6) with 16777216 in Hb. exact Hb.
  - pose proof (hex_value_bound h Hall) as Hb. rewrite Hlen in Hb.
    change (16 ^ Z.of_nat 6) with 16777216 in Hb. lia.
Qed.

Lemma six_hex_digits_decode_witness :
  Pixi.parseColor (Some "#FF8000")
  = {| StyleWorker.hex := JS.ofZ (Pixi.hex_value "FF8000"); StyleWorker.alpha := JS.one |}.
Proof.
  apply (six_hex_digits_decode "FF8000"); [reflexivity|].
  repeat constructor.
Defined.

(** ** The three-digit form of a hexadecimal colour *)

Lemma double_chars_hex h :
  Pixi.hex_digits h ->
  Pixi.hex_digits (StyleWorker.double_chars h)
  /\ String.length (StyleWorker.double_chars h) = (2 * String.length h)%nat
  /\ JS.toLowerCase (StyleWorker.double_chars h)
     = StyleWorker.double_chars (JS.toLowerCase h).
Proof.
  unfold Pixi.hex_digits.
  induction h as [|c r IH]; intros Hall; cbn; [repeat split; constructor|].
  inversion Hall as [|? ? Hc Hr]; subst.
  destruct (IH Hr) as (H1 & H2 & H3).
  repeat split; [repeat constructor; assumption|rewrite H2; lia|now rewrite H3].
Qed.

Lemma hash_colour_normal h :
  Pixi.hex_digits h ->
  JS.toLowerCase (JS.trim (String "#" h)) = String "#" (JS.toLowerCase h).
Proof.
  intros Hall.
  assert (Htrim : JS.trim (String "#" h) = String "#" h).
  { unfold JS.trim. cbn [JS.trimStart]. change (JS.is_space "#") with false. cbv iota.
    apply trimEnd_nospace. cbn [list_ascii_of_string]. constructor; [reflexivity|].
    eapply Forall_impl; [exact Hall|].
    intros c Hc. now destruct (hex_digit_facts c Hc). }
  rewrite Htrim. reflexivity.
Qed.

Lemma hash_colour_pixi h :
  h <> "" -> Pixi.hex_digits h ->
  Pixi.parseColor (Some (String "#" h))
  = let hex := JS.toLowerCase h in
    let hex := if (String.length hex =? 3)%nat
               then StyleWorker.double_chars hex else hex in
    if (String.length hex =? 6)%nat then
      {| StyleWorker.hex := StyleWorker.num_of (StyleWorker.parseInt16 hex);
         StyleWorker.alpha := JS.one |}
    else if (String.length hex =? 8)%nat then
      {| StyleWorker.hex :=
           StyleWorker.num_of (StyleWorker.parseInt16 (JS.substring 0 6 hex));
         StyleWorker.alpha :=
           JS.div (StyleWorker.num_of (StyleWorker.parseInt16 (JS.substring 6 8 hex)))
                  (JS.Fin 255) |}
    else Pixi.afterHex (String "#" (JS.toLowerCase h)).
Proof.
  intros Hne Hall. unfold Pixi.parseColor. cbn [String.eqb Ascii.eqb Bool.eqb].
  rewrite (hash_colour_normal h Hall).
  assert (Ht : String.eqb (String "#" (JS.toLowerCase h)) "transparent" = false)
    by reflexivity.
  rewrite Ht. cbn [JS.startsWith Ascii.eqb Bool.eqb andb JS.drop_str].
  assert (Hs : JS.startsWith (JS.toLowerCase h) "" = true)
    by (destruct (JS.toLowerCase h); reflexivity).
  rewrite Hs. reflexivity.
Qed.

(** X19. A hash sign followed by three hexadecimal digits is read, by
    [PixiRendererEngine.parseColor] and by the style worker's [parseColor],
    as the colour written with each digit doubled: both give the same
    result for the two spellings, the same number in both parsers, with
    alpha 1. *)
Theorem three_digit_colour_doubles_its_digits (h : string) :
  String.length h = 3%nat -> Pixi.hex_digits h ->
  let long := StyleWorker.double_chars h in
  Pixi.parseColor (Some (String "#" h)) = Pixi.parseColor (Some (String "#" long))
  /\ StyleWorker.parseColor (String "#" h) = StyleWorker.parseColor (String "#" long)
  /\ Pixi.parseColor (Some (String "#" h))
     = {| StyleWorker.hex := JS.ofZ (Pixi.hex_value long); StyleWorker.alpha := JS.one |}
  /\ StyleWorker.parseColor (String "#" h) = Pixi.parseColor (Some (String "#" h))
  /\ 0 <= Pixi.hex_value long <= 0xffffff.
Proof.
  intros Hlen Hall long.
  assert (Hne : h <> "") by (intros ->; discriminate).
  destruct (double_chars_hex h Hall) as (Hlall & Hllen & Hllow).
  fold long in Hlall, Hllen, Hllow. rewrite Hlen in Hllen.
  change (2 * 3)%nat with 6%nat in Hllen.
  assert (Hlne : long <> "") by (intros E; rewrite E in Hllen; discriminate).
  destruct (toLowerCase_hex h Hall) as (Hhl & _ & Hhlen).
  destruct (toLowerCase_hex long Hlall) as (Hll & Hlv & Hlllen).
  assert (Hllne : JS.toLowerCase long <> "").
  { intros E. rewrite E, Hllen in Hlllen. discriminate. }
  assert (Hshort : Pixi.parseColor (Some (String "#" h))
                   = {| StyleWorker.hex := JS.ofZ (Pixi.hex_value long);
                        StyleWorker.alpha := JS.one |}).
  { rewrite (hash_colour_pixi h Hne Hall). cbv zeta.
    rewrite Hhlen, Hlen. cbn [Nat.eqb]. rewrite <- Hllow, Hlllen, Hllen. cbn [Nat.eqb].
    rewrite (parseInt16_hex _ Hllne Hll), Hlv. reflexivity. }
  assert (Hlong : Pixi.parseColor (Some (String "#" long))
                  = {| StyleWorker.hex := JS.ofZ (Pixi.hex_value long);
                       StyleWorker.alpha := JS.one |}).
  { rewrite (hash_colour_pixi long Hlne Hlall). cbv zeta.
    rewrite Hlllen, Hllen. cbn [Nat.eqb]. rewrite Hlllen, Hllen. cbn [Nat.eqb].
    rewrite (parseInt16_hex _ Hllne Hll), Hlv. reflexivity. }
  assert (Hw : forall x, x <> "" -> Pixi.hex_digits x ->
            StyleWorker.parseColor (String "#" x)
            = if (String.length x =? 3)%nat then
                {| StyleWorker.hex :=
                     StyleWorker.num_of (StyleWorker.parseInt16 (StyleWorker.double_chars x));
                   StyleWorker.alpha := JS.one |}
              else if (String.length x =? 8)%nat then
                {| StyleWorker.hex :=
                     StyleWorker.num_of (StyleWorker.parseInt16 (JS.substring 0 6 x));
                   StyleWorker.alpha :=
                     JS.div (StyleWorker.num_of
                               (StyleWorker.parseInt16 (JS.substring 6 8 x)))
                            (JS.Fin 255) |}
              else {| StyleWorker.hex := StyleWorker.number_of (StyleWorker.parseInt16 x);
                      StyleWorker.alpha := JS.one |}).
  { intros x _ _. unfold StyleWorker.parseColor.
    assert (Ht : String.eqb (String "#" x) "" || String.eqb (String "#" x) "transparent"
                 = false) by reflexivity.
    rewrite Ht. cbn [JS.startsWith Ascii.eqb Bool.eqb andb JS.drop_str].
    assert (Hs : JS.startsWith x "" = true) by (destruct x; reflexivity).
    now rewrite Hs. }
  assert (Hwshort : StyleWorker.parseColor (String "#" h)
                    = {| StyleWorker.hex := JS.ofZ (Pixi.hex_value long);
                         StyleWorker.alpha := JS.one |}).
  { rewrite (Hw h Hne Hall), Hlen. cbn [Nat.eqb]. fold long.
    rewrite (parseInt16_hex _ Hlne Hlall). reflexivity. }
  assert (Hwlong : StyleWorker.parseColor (String "#" long)
                   = {| StyleWorker.hex := JS.ofZ (Pixi.hex_value long);
                        StyleWorker.alpha := JS.one |}).
  { rewrite (Hw long Hlne Hlall), Hllen. cbn [Nat.eqb].
    rewrite (parseInt16_hex _ Hlne Hlall). cbn [StyleWorker.number_of].
    rewrite ofInt_six_digits; [reflexivity|].
    pose proof (hex_value_bound long Hlall) as Hb. rewrite Hllen in Hb.
    change (16 ^ Z.of_nat 6) with 16777216 in Hb. exact Hb. }
  split; [now rewrite Hshort, Hlong|]. split; [now rewrite Hwshort, Hwlong|].
  split; [exact Hshort|]. split; [now rewrite Hwshort, Hshort|].
  pose proof (hex_value_bound long Hlall) as Hb. rewrite Hllen in Hb.
  change (16 ^ Z.of_nat 6) with 16777216 in Hb. lia.
Qed.

Lemma three_digit_colour_doubles_its_digits_witness :
  Pixi.parseColor (Some "#F80") = Pixi.parseColor (Some "#FF8800")
  /\ StyleWorker.parseColor "#F80" = StyleWorker.parseColor "#FF8800".
Proof.
  destruct (three_digit_colour_doubles_its_digits "F80") as (H1 & H2 & _).
  - reflexivity.
  - repeat constructor.
  - split; [exact H1|exact H2].
Defined.

(** ** Deciding on a new capture *)

Lemma eqb_self n : n <> JS.NaN -> JS.eqb n n = true.
Proof.
  destruct n as [| | |q]; intros H; try reflexivity; [contradiction|].
  cbn. apply Qeq_bool_iff. reflexivity.
Qed.

Lemma isDifferent_agree : forall a b, Restyle.agree a b -> Restyle.isDifferent a b = false.
Proof.
  fix IH 3. intros a b H. destruct H as [| |x|n Hn|s|r r' fa fb Hlen Hall].
  - reflexivity.
  - reflexivity.
  - cbn. now rewrite Bool.eqb_reflx.
  - cbn. now rewrite eqb_self.
  - cbn. now rewrite String.eqb_refl.
  - cbn [Restyle.isDifferent Restyle.strict_eq].
    destruct (r =? r')%nat; [reflexivity|].
    rewrite Hlen, Nat.eqb_refl. cbn [negb].
    clear Hlen. induction Hall as [|[k va] rest Hhead _ IHrest]; [reflexivity|].
    cbn [fst snd] in Hhead. destruct (Restyle.ignored k) eqn:Hk; [exact IHrest|].
    destruct Hhead as [Hhead|Hhead]; [discriminate|].
    rewrite (IH _ _ Hhead). exact IHrest.
Qed.

Lemma isDifferent_changed r r' fb key va : forall fa,
  In (key, va) fa -> Restyle.ignored key = false ->
  (forall r0 fields, va <> Restyle.VObj r0 fields) ->
  Restyle.strict_eq va (Restyle.get key fb) = false ->
  r <> r' ->
  Restyle.isDifferent (Restyle.VObj r fa) (Restyle.VObj r' fb) = true.
Proof.
  intros fa Hin Hk Hprim Hne Hr.
  cbn [Restyle.isDifferent Restyle.strict_eq].
  apply Nat.eqb_neq in Hr. rewrite Hr.
  destruct (negb _); [reflexivity|].
  induction fa as [|[k v] rest IH]; [destruct Hin|].
  destruct Hin as [[= -> ->]|Hin].
  - rewrite Hk.
    assert (Hd : Restyle.isDifferent va (Restyle.get key fb) = true).
    { destruct va; cbn [Restyle.isDifferent]; rewrite Hne; try reflexivity.
      exfalso. eapply Hprim. reflexivity. }
    now rewrite Hd.
  - destruct (Restyle.ignored k); [now apply IH|].
    destruct (Restyle.isDifferent v (Restyle.get k fb)); [reflexivity|now apply IH].
Qed.

(** X14. [GeometrySnapshot.shouldReCapture]: no new capture is asked
    for when the two styles have as many properties and every property of
    the old style outside the ignored ones (x, y, left, top, transform,
    opacity, zIndex, position) agrees, at every depth, with what the new
    style holds under the same key; a new capture is asked for when two
    distinct style objects have different numbers of properties, or when a
    property of the old style that is not ignored holds a primitive value
    the new style does not hold under that key.  The properties are read
    off the old style: with equal counts, a property that only the new
    style has goes unnoticed. *)
Theorem recapture_ignores_listed_properties_only :
  (forall oldStyle newStyle,
      Restyle.agree oldStyle newStyle ->
      Restyle.shouldReCapture (Some oldStyle) (Some newStyle) = false)
  /\ (forall r r' fa fb key va,
        In (key, va) fa -> Restyle.ignored key = false ->
        (forall r0 fields, va <> Restyle.VObj r0 fields) ->
        Restyle.strict_eq va (Restyle.get key fb) = false ->
        r <> r' ->
        Restyle.shouldReCapture (Some (Restyle.VObj r fa)) (Some (Restyle.VObj r' fb))
        = true)
  /\ (forall r r' fa fb,
        r <> r' -> List.length fa <> List.length fb ->
        Restyle.shouldReCapture (Some (Restyle.VObj r fa)) (Some (Restyle.VObj r' fb))
        = true).
Proof.
  split; [|split].
  - intros a b H. unfold Restyle.shouldReCapture.
    pose proof (isDifferent_agree _ _ H) as Hd.
    destruct H; cbn [Restyle.or_empty]; first [exact Hd|reflexivity].
  - intros r r' fa fb key va Hin Hk Hprim Hne Hr. unfold Restyle.shouldReCapture.
    cbn [Restyle.or_empty]. now apply (isDifferent_changed r r' fb key va).
  - intros r r' fa fb Hr Hlen. unfold Restyle.shouldReCapture.
    cbn [Restyle.or_empty Restyle.isDifferent Restyle.strict_eq].
    apply Nat.eqb_neq in Hr, Hlen. rewrite Hr, Hlen. reflexivity.
Qed.

Lemma recapture_ignores_listed_properties_only_witness :
  Restyle.shouldReCapture
    (Some (Restyle.VObj 1
             [("x", Restyle.VNum (JS.Fin 1)); ("width", Restyle.VNum (JS.Fin 10));
              ("padding", Restyle.VObj 2 [("top", Restyle.VNum (JS.Fin 1));
                                          ("right", Restyle.VNum (JS.Fin 2))])]))
    (Some (Restyle.VObj 3
             [("width", Restyle.VNum (JS.Fin 10)); ("x", Restyle.VNum (JS.Fin 5));
              ("padding", Restyle.VObj 4 [("top", Restyle.VNum (JS.Fin 9));
                                          ("right", Restyle.VNum (JS.Fin 2))])]))
  = false
  /\ Restyle.shouldReCapture
       (Some (Restyle.VObj 1 [("x", Restyle.VNum (JS.Fin 1));
                              ("width", Restyle.VNum (JS.Fin 10))]))
       (Some (Restyle.VObj 3 [("x", Restyle.VNum (JS.Fin 1));
                              ("width", Restyle.VNum (JS.Fin 11))]))
     = true.
Proof.
  destruct recapture_ignores_listed_properties_only as (Hsame & Hchanged & _).
  split.
  - apply Hsame. apply Restyle.agree_obj; [reflexivity|].
    constructor; [left; reflexivity|].
    constructor; [right; apply Restyle.agree_num; discriminate|].
    constructor; [|constructor].
    right. apply Restyle.agree_obj; [reflexivity|].
    constructor; [left; reflexivity|].
    constructor; [right; apply Restyle.agree_num; discriminate|constructor].
  - apply (Hchanged 1%nat 3%nat _ _ "width" (Restyle.VNum (JS.Fin 10))).
    + right. left. reflexivity.
    + reflexivity.
    + discriminate.
    + reflexivity.
    + lia.
Defined.

(** A property that only the new style has goes unnoticed when the
    counts agree: [{width: 1, x: 2}] against [{width: 1, height: 5}]. *)
Example new_property_unnoticed :
  Restyle.shouldReCapture
    (Some (Restyle.VObj 1 [("width", Restyle.VNum (JS.Fin 1));
                           ("x", Restyle.VNum (JS.Fin 2))]))
    (Some (Restyle.VObj 2 [("width", Restyle.VNum (JS.Fin 1));
                           ("height", Restyle.VNum (JS.Fin 5))]))
  = false.
Proof. reflexivity. Qed.

(** ** The worker pool *)

Lemma scan_spec workers start : forall fuel k,
  (start < List.length workers)%nat ->
  (k + fuel = List.length workers)%nat -> (0 < fuel)%nat ->
  (forall j, (j < k)%nat ->
     exists w, workers !! ((start + j) mod List.length workers)%nat = Some w
               /\ WorkerManager.available w = false) ->
  exists i next,
    WorkerManager.scan workers start fuel ((start + k) mod List.length workers)%nat
      = Some (i, next)
    /\ (i < List.length workers)%nat
    /\ next = ((i + 1) mod List.length workers)%nat
    /\ ((exists d w, (d < List.length workers)%nat
           /\ i = ((start + d) mod List.length workers)%nat
           /\ workers !! i = Some w /\ WorkerManager.available w = true
           /\ forall j, (j < d)%nat ->
                exists w', workers !! ((start + j) mod List.length workers)%nat = Some w'
                           /\ WorkerManager.available w' = false)
        \/ (i = start
            /\ forall j w, workers !! j = Some w -> WorkerManager.available w = false)).
Proof.
  set (n := List.length workers).
  induction fuel as [|fuel IH]; intros k Hs Hk Hf Hbefore; [lia|].
  cbn [WorkerManager.scan]. fold n.
  assert (Hn : (0 < n)%nat) by lia.
  assert (Hc : ((start + k) mod n < n)%nat) by (apply Nat.mod_upper_bound; lia).
  destruct (lookup_lt_is_Some_2 workers _ Hc) as [w Hw]. rewrite Hw.
  assert (Hnext : (((start + k) mod n + 1) mod n = (start + S k) mod n)%nat).
  { rewrite Nat.Div0.add_mod_idemp_l. f_equal. lia. }
  destruct (WorkerManager.available w) eqn:Hav.
  - exists ((start + k) mod n)%nat, (((start + k) mod n + 1) mod n)%nat.
    split; [reflexivity|]. split; [exact Hc|]. split; [reflexivity|].
    left. exists k, w. repeat split; try assumption. lia.
  - rewrite Hnext.
    assert (Hbefore' : forall j, (j < S k)%nat ->
              exists w', workers !! ((start + j) mod n)%nat = Some w'
                         /\ WorkerManager.available w' = false).
    { intros j Hj. destruct (Nat.eq_dec j k) as [->|Hjk]; [eauto|].
      apply Hbefore. lia. }
    destruct (Nat.eqb_spec ((start + S k) mod n) start) as [Heq|Hneq].
    + exists start, ((start + 1) mod n)%nat. rewrite Heq.
      split; [reflexivity|]. split; [exact Hs|]. split; [reflexivity|].
      destruct (Nat.eq_dec fuel 0%nat) as [Hf0|Hf0].
      * right. split; [reflexivity|]. intros j wj Hj.
        pose proof (lookup_lt_Some _ _ _ Hj) as Hjn. fold n in Hjn.
        destruct (Hbefore' ((j + n - start) mod n)%nat) as (w' & Hw' & Hav').
        { pose proof (Nat.mod_upper_bound (j + n - start) n ltac:(lia)). lia. }
        rewrite Nat.Div0.add_mod_idemp_r in Hw'.
        replace (start + (j + n - start))%nat with (j + 1 * n)%nat in Hw' by lia.
        rewrite Nat.Div0.mod_add, Nat.mod_small in Hw' by lia. congruence.
      * exfalso.
        assert (Hsk : (S k < n)%nat) by lia.
        destruct (Nat.lt_ge_cases (start + S k) n) as [Hlt|Hge].
        -- rewrite Nat.mod_small in Heq by lia. lia.
        -- replace (start + S k)%nat with ((start + S k - n) + 1 * n)%nat in Heq by lia.
           rewrite Nat.Div0.mod_add, Nat.mod_small in Heq by lia. lia.
    + assert (Hf0 : (0 < fuel)%nat).
      { destruct fuel; [|lia]. exfalso. apply Hneq.
        replace (start + S k)%nat with (start + 1 * n)%nat by lia.
        rewrite Nat.Div0.mod_add. apply Nat.mod_small. lia. }
      apply (IH (S k) Hs ltac:(lia) Hf0 Hbefore').
Qed.

(** X15. [WorkerManager.getNextWorker] with a current index inside
    the pool: it returns a worker of the pool and leaves the current index
    just after that worker, modulo the size of the pool; the worker is the
    first ready and idle one met from the current index on, going round, or
    the one at the current index when no worker of the pool is ready and
    idle. *)
Theorem next_worker_is_round_robin (workers : list WorkerManager.workerInfo)
    (currentWorkerIndex : nat) :
  (currentWorkerIndex < List.length workers)%nat ->
  exists i next,
    WorkerManager.getNextWorker workers currentWorkerIndex = Some (i, next)
    /\ (i < List.length workers)%nat
    /\ (next < List.length workers)%nat
    /\ next = ((i + 1) mod List.length workers)%nat
    /\ ((exists d w, (d < List.length workers)%nat
           /\ i = ((currentWorkerIndex + d) mod List.length workers)%nat
           /\ workers !! i = Some w /\ WorkerManager.available w = true
           /\ forall j, (j < d)%nat ->
                exists w', workers !! ((currentWorkerIndex + j) mod List.length workers)%nat
                           = Some w'
                           /\ WorkerManager.available w' = false)
        \/ (i = currentWorkerIndex
            /\ forall j w, workers !! j = Some w -> WorkerManager.available w = false)).
Proof.
  intros Hc. unfold WorkerManager.getNextWorker.
  destruct (scan_spec workers currentWorkerIndex (List.length workers) 0%nat Hc
              ltac:(lia) ltac:(lia)) as (i & next & Hscan & Hi & Hnext & Hchoice).
  { intros j Hj. lia. }
  rewrite Nat.add_0_r, Nat.mod_small in Hscan by exact Hc.
  exists i, next. split; [exact Hscan|]. split; [exact Hi|].
  split; [|split; [exact Hnext|exact Hchoice]].
  rewrite Hnext. apply Nat.mod_upper_bound. lia.
Qed.

Lemma next_worker_is_round_robin_witness :
  exists i next,
    WorkerManager.getNextWorker
      [{| WorkerManager.busy := true; WorkerManager.ready := true |};
       {| WorkerManager.busy := false; WorkerManager.ready := true |}] 0%nat
    = Some (i, next)
    /\ (i < 2)%nat /\ (next < 2)%nat.
Proof.
  destruct (next_worker_is_round_robin
              [{| WorkerManager.busy := true; WorkerManager.ready := true |};
               {| WorkerManager.busy := false; WorkerManager.ready := true |}] 0%nat)
    as (i & next & H & Hi & Hn & _).
  - cbn. lia.
  - exists i, next. auto.
Defined.

Example next_worker_skips_busy :
  WorkerManager.getNextWorker
    [{| WorkerManager.busy := true; WorkerManager.ready := true |};
     {| WorkerManager.busy := false; WorkerManager.ready := true |}] 0%nat
  = Some (1%nat, 0%nat)
  /\ WorkerManager.getNextWorker [] 0%nat = None.
Proof. split; reflexivity. Qed.

(** ** What a snapshot holds *)

Lemma trimEnd_head c r : JS.is_space c = false -> JS.trimEnd (String c r) <> "".
Proof. intros Hc. cbn. destruct (JS.trimEnd r); [rewrite Hc|]; discriminate. Qed.

Lemma trimStart_cases s :
  JS.trimStart s = ""
  \/ exists c r, JS.trimStart s = String c r /\ JS.is_space c = false.
Proof.
  induction s as [|c r IH]; cbn; [now left|].
  destruct (JS.is_space c) eqn:Hc; [exact IH|right; eauto].
Qed.

Lemma trim_blank s : JS.trim s = "" <-> JS.trimStart s = "".
Proof.
  unfold JS.trim. split; intros H; [|now rewrite H].
  destruct (trimStart_cases s) as [E|(c & r & E & Hc)]; [exact E|].
  rewrite E in H. now apply trimEnd_head in H.
Qed.

Lemma trimStart_app a b : JS.trimStart (a +:+ b) = "" -> JS.trimStart a = "" /\ JS.trimStart b = "".
Proof.
  induction a as [|c r IH]; [cbn; auto|].
  change (String c r +:+ b) with (String c (r +:+ b)). cbn [JS.trimStart].
  destruct (JS.is_space c); [exact IH|discriminate].
Qed.

Lemma textContent_direct uid tag attrs bounds computed kids :
  existsb Dom.is_direct_text kids = true ->
  JS.trim (Dom.textContent (Dom.Element uid tag attrs bounds computed kids)) <> "".
Proof.
  intros Hex Hblank. apply trim_blank in Hblank. cbn [Dom.textContent] in Hblank.
  induction kids as [|n kids IH]; [discriminate|].
  cbn [existsb] in Hex. destruct n as [e|s|].
  - cbn [Dom.is_direct_text orb] in Hex. apply trimStart_app in Hblank as [_ Hb]. auto.
  - apply trimStart_app in Hblank as [Hs Hb].
    cbn [Dom.is_direct_text] in Hex. apply orb_true_iff in Hex as [Hex|Hex]; [|auto].
    apply negb_true_iff, String.eqb_neq in Hex. apply Hex. now apply trim_blank.
  - cbn [Dom.is_direct_text orb] in Hex. auto.
Qed.

Lemma text_type_has_text e :
  Snapshot.getNodeType e (Captured.computed_of e) = Snapshot.text_t ->
  JS.trim (Dom.textContent e) <> "".
Proof.
  destruct e as [uid tag attrs bounds computed kids].
  unfold Snapshot.getNodeType. cbn [Captured.computed_of Dom.tag_of].
  destruct (String.eqb tag "IMG"); [discriminate|].
  destruct (Snapshot.hasVisibleBoxStyle computed); [discriminate|].
  destruct (String.eqb (JS.trim _) "") eqn:Ht.
  - rewrite andb_false_r. cbn [negb andb].
    destruct (existsb _ _) eqn:Hd; [|discriminate].
    intros _. now apply textContent_direct.
  - intros _. now apply String.eqb_neq.
Qed.

Lemma from_tree_styles resolve rootRect root nd s :
  Captured.from_tree resolve rootRect root nd ->
  Captured.from_tree resolve rootRect root (Snapshot.with_styles nd s).
Proof. intros (e & pc & Hin & Hd). exists e, pc. split; [exact Hin|exact Hd]. Qed.

Lemma describes_stored resolve rootRect e pc s :
  Snapshot.hidden (Captured.computed_of e) = false ->
  let nd1 := Snapshot.with_styles (Snapshot.newNodeData rootRect e pc) s in
  Captured.describes resolve e
    (match Snapshot.getNodeType e (Captured.computed_of e) with
     | Snapshot.text_t => Snapshot.with_text nd1 (Some (JS.trim (Dom.textContent e)))
     | _ => Snapshot.withContent resolve (Captured.attrs_of e) (Dom.childNodes_of e) nd1
     end).
Proof.
  intros Hh nd1. pose proof (text_type_has_text e) as Htext.
  destruct e as [uid tag attrs bounds computed kids].
  cbn [Captured.computed_of Captured.attrs_of Dom.childNodes_of] in *.
  set (e := Dom.Element uid tag attrs bounds computed kids) in *.
  assert (Hty : Snapshot.type nd1 = Snapshot.getNodeType e computed) by reflexivity.
  assert (Htag : Snapshot.tagName nd1 = tag) by reflexivity.
  assert (Htx : Snapshot.text nd1 = None) by reflexivity.
  assert (Hsrc : Snapshot.src nd1 = None) by reflexivity.
  unfold Captured.describes. cbn [Captured.computed_of Captured.attrs_of Dom.tag_of].
  destruct (Snapshot.getNodeType e computed) eqn:Hg.
  - cbn [Snapshot.with_text Snapshot.type Snapshot.tagName Snapshot.text Snapshot.src].
    rewrite Hty. repeat split; auto.
  - unfold Snapshot.withContent. rewrite Hty.
    unfold Captured.boxText. change (Dom.childNodes_of e) with kids.
    destruct (Snapshot.directTexts kids);
      cbn [Snapshot.with_text Snapshot.type Snapshot.tagName Snapshot.text Snapshot.src];
      rewrite Hty; repeat split; auto.
  - unfold Snapshot.withContent. rewrite Hty.
    cbn [Snapshot.with_src Snapshot.type Snapshot.tagName Snapshot.text Snapshot.src].
    rewrite Hty. repeat split; auto.
Qed.


Section ContentProps.

Variable cfg : Snapshot.config.
Variable rootRect : Dom.rect.
Variable root : Dom.element.

Local Abbreviation from_tree :=
  (Captured.from_tree (Snapshot.resolveURL cfg) rootRect root).
Local Abbreviation known := (fun st => Forall from_tree (Snapshot.heap st)).

Lemma withChildren_heap (I : list Snapshot.nodeData -> Prop) visit bc kids st2 :
  (forall child nb s, In (Dom.ElementNode child) kids ->
     I (Snapshot.heap s) -> I (Snapshot.heap (visit child nb s))) ->
  I (Snapshot.heap st2) ->
  I (Snapshot.heap (Snapshot.withChildren cfg visit bc kids st2)).
Proof.
  intros Hv H2. unfold Snapshot.withChildren.
  set (own := Snapshot.opensBatch cfg bc kids).
  set (st3 := if own then Snapshot.newBatch st2 else st2).
  assert (H3 : I (Snapshot.heap st3)) by (unfold st3; now destruct own).
  assert (H4 : I (Snapshot.heap
                    (Dom.for_children
                       (fun child s =>
                          visit child
                            (if own then Some (List.length (Snapshot.batches st2)) else bc)
                            s) kids st3))).
  { apply (for_children_invariant (fun s => I (Snapshot.heap s))); [|exact H3].
    intros child s Hc Hs. now apply Hv. }
  now destruct own.
Qed.

Lemma captureNode_heap e : forall bc pc st,
  Snapshot.inherits rootRect root e pc ->
  known st -> known (Snapshot.captureNode cfg rootRect e bc pc st).
Proof.
  induction e as [uid tag attrs bounds computed kids IH] using element_rect.
  intros bc pc st Hin Hst.
  cbn [Snapshot.captureNode].
  destruct (bool_decide _); [assumption|].
  destruct (Snapshot.hidden computed) eqn:Hh; [assumption|].
  set (e := Dom.Element uid tag attrs bounds computed kids) in *.
  destruct (extractStyles_spec cfg computed (List.length (Snapshot.heap st))
              (Snapshot.newNodeData rootRect e pc) bc st)
    as (E1 & _ & _ & _ & _ & (s & Es)).
  destruct (Snapshot.extractStyles _ _ _ _ _ _) as [nd1 st1].
  cbn [fst snd] in *. subst nd1.
  pose proof (describes_stored (Snapshot.resolveURL cfg) rootRect e pc s Hh) as Hd.
  change (Captured.computed_of e) with computed in Hd.
  change (Captured.attrs_of e) with attrs in Hd.
  change (Dom.childNodes_of e) with kids in Hd.
  assert (Hstore : forall nd, Captured.describes (Snapshot.resolveURL cfg) e nd ->
            Forall from_tree (Snapshot.heap (Snapshot.store nd st1))).
  { intros nd Hnd. cbn. rewrite E1. apply Forall_app. split; [exact Hst|].
    constructor; [|constructor]. exists e, pc. split; assumption. }
  destruct (Snapshot.getNodeType e computed) eqn:Hg.
  - destruct (String.eqb _ _); cbn [Snapshot.push_node Snapshot.add_processed Snapshot.heap];
      now apply Hstore.
  - apply (withChildren_heap (Forall from_tree)).
    + intros child nb s0 Hc Hs0. apply IH; [assumption| |assumption].
      now apply Snapshot.inherits_child.
    + cbn [Snapshot.push_node Snapshot.add_processed Snapshot.heap]. now apply Hstore.
  - apply (withChildren_heap (Forall from_tree)).
    + intros child nb s0 Hc Hs0. apply IH; [assumption| |assumption].
      now apply Snapshot.inherits_child.
    + cbn [Snapshot.push_node Snapshot.add_processed Snapshot.heap]. now apply Hstore.
Qed.

End ContentProps.

(** X16. [GeometrySnapshot.capture]: every node of a snapshot was
    made for an element of the captured tree that is not hidden; it has the
    tag of that element and the type [getNodeType] gives it; a text node
    holds the trimmed text content of the element, which is not empty, an
    image node holds the [src] property of the element, that is the URL the
    document makes of its [src] attribute, the empty string when it has
    none, and no text, and a box holds the trimmed direct text of the
    element, if any, and no [src]. *)
Theorem snapshot_nodes_describe_displayed_elements cfg (root : Dom.element) snap nd :
  Snapshot.capture cfg (Some root) = Snapshot.Ok (Some snap) ->
  In nd (Snapshot.snap_nodes snap) ->
  exists e pc,
    Snapshot.inherits (Dom.bounds_of root) root e pc
    /\ Snapshot.hidden (Captured.computed_of e) = false
    /\ Snapshot.type nd = Snapshot.getNodeType e (Captured.computed_of e)
    /\ Snapshot.tagName nd = Dom.tag_of e
    /\ match Snapshot.type nd with
       | Snapshot.text_t =>
           Snapshot.text nd = Some (JS.trim (Dom.textContent e))
           /\ JS.trim (Dom.textContent e) <> ""
       | Snapshot.image_t =>
           Snapshot.src nd
           = Some (match Captured.attrs_of e !! "src" with
                   | Some v => Snapshot.resolveURL cfg v
                   | None => ""
                   end)
           /\ Snapshot.text nd = None
       | Snapshot.box_t =>
           Snapshot.text nd = Captured.boxText e /\ Snapshot.src nd = None
       end.
Proof.
  intros Hcap Hnd. unfold Snapshot.capture in Hcap.
  set (rootRect := Dom.bounds_of root) in *.
  destruct (captureNode_wf cfg rootRect root root None None Snapshot.initial
              (Snapshot.inherits_root _ _) (wf_initial _ _))
    as [(_ & Hb & Hp & _) _].
  pose proof (captureNode_heap cfg rootRect root root None None Snapshot.initial
                (Snapshot.inherits_root _ _) ltac:(constructor)) as Hh.
  set (st := Snapshot.captureNode cfg rootRect root None None Snapshot.initial) in *.
  pose proof (from_tree_styles (Snapshot.resolveURL cfg) rootRect root) as HP.
  destruct (resolveStyles_ok _ HP cfg (Snapshot.batches st)
              (Snapshot.stylePromises st) (Snapshot.heap st) Hb Hp Hh)
    as (h1 & Hres & Hh1).
  rewrite Hres in Hcap.
  destruct (Snapshot.resolveGradients cfg (Snapshot.gradientPromises st) h1)
    as [h2| |] eqn:Hg; try discriminate.
  injection Hcap as <-. cbn [Snapshot.snap_nodes] in Hnd.
  pose proof (resolveGradients_keeps _ HP cfg _ h1 h2 Hh1 Hg) as Hh2.
  apply list_elem_of_In, list_elem_of_omap in Hnd as (a & _ & Ha).
  rewrite Forall_lookup in Hh2.
  destruct (Hh2 _ _ Ha) as (e & pc & Hin & Hd1 & Hd2 & Hd3 & Hd4).
  exists e, pc. auto.
Qed.

Lemma snapshot_nodes_describe_displayed_elements_witness :
  exists e pc,
    Snapshot.inherits (Dom.bounds_of Sample.gallery) Sample.gallery e pc
    /\ Snapshot.hidden (Captured.computed_of e) = false
    /\ Snapshot.type Sample.picture = Snapshot.getNodeType e (Captured.computed_of e)
    /\ Snapshot.tagName Sample.picture = Dom.tag_of e.
Proof.
  destruct (snapshot_nodes_describe_displayed_elements Sample.local Sample.gallery
              Sample.gallery_snapshot Sample.picture) as (e & pc & H1 & H2 & H3 & H4 & _).
  - vm_compute. reflexivity.
  - vm_compute. right. left. reflexivity.
  - exists e, pc. auto.
Defined.

(** An image keeps the URL of the document, not the text of its attribute. *)
Example picture_src :
  Snapshot.type Sample.picture = Snapshot.image_t
  /\ Snapshot.src Sample.picture = Some "https://example.org/cat.png".
Proof. split; vm_compute; reflexivity. Qed.


Lemma for_children_count {S : Type} (f : S -> nat) (body : Dom.element -> S -> S)
    (kids : list Dom.node) :
  (forall child s, In (Dom.ElementNode child) kids ->
     (f (body child s) <= f s + Captured.size child)%nat) ->
  forall s, (f (Dom.for_children body kids s) <= f s + Captured.sizes kids)%nat.
Proof.
  induction kids as [|n kids IH]; intros Hbody s; [cbn; lia|].
  assert (Hrest : forall child s0, In (Dom.ElementNode child) kids ->
            (f (body child s0) <= f s0 + Captured.size child)%nat)
    by (intros; apply Hbody; now right).
  destruct n as [e| |].
  - change (Dom.for_children body (Dom.ElementNode e :: kids) s)
      with (Dom.for_children body kids (body e s)).
    change (Captured.sizes (Dom.ElementNode e :: kids))
      with (Captured.size e + Captured.sizes kids)%nat.
    specialize (IH Hrest (body e s)).
    specialize (Hbody e s (or_introl eq_refl)). lia.
  - apply (IH Hrest s).
  - apply (IH Hrest s).
Qed.

Lemma withChildren_count cfg visit bc kids st2 :
  (forall child nb s, In (Dom.ElementNode child) kids ->
     (List.length (Snapshot.nodes (visit child nb s))
      <= List.length (Snapshot.nodes s) + Captured.size child)%nat) ->
  (List.length (Snapshot.nodes (Snapshot.withChildren cfg visit bc kids st2))
   <= List.length (Snapshot.nodes st2) + Captured.sizes kids)%nat.
Proof.
  intros Hv. unfold Snapshot.withChildren.
  set (own := Snapshot.opensBatch cfg bc kids).
  set (st3 := if own then Snapshot.newBatch st2 else st2).
  assert (H3 : Snapshot.nodes st3 = Snapshot.nodes st2)
    by (unfold st3; now destruct own).
  pose proof (for_children_count (fun s => List.length (Snapshot.nodes s))
                (fun child s =>
                   visit child
                     (if own then Some (List.length (Snapshot.batches st2)) else bc) s)
                kids (fun child s Hc => Hv child _ s Hc) st3) as H4.
  cbv beta in H4. rewrite H3 in H4.
  now destruct own.
Qed.

Lemma captureNode_count cfg rootRect e : forall bc pc st,
  (List.length (Snapshot.nodes (Snapshot.captureNode cfg rootRect e bc pc st))
   <= List.length (Snapshot.nodes st) + Captured.size e)%nat.
Proof.
  induction e as [uid tag attrs bounds computed kids IH] using element_rect.
  intros bc pc st.
  change (Captured.size (Dom.Element uid tag attrs bounds computed kids))
    with (S (Captured.sizes kids)).
  cbn [Snapshot.captureNode].
  destruct (bool_decide _); [lia|].
  destruct (Snapshot.hidden computed); [lia|].
  set (e := Dom.Element uid tag attrs bounds computed kids) in *.
  destruct (extractStyles_spec cfg computed (List.length (Snapshot.heap st))
              (Snapshot.newNodeData rootRect e pc) bc st)
    as (_ & E2 & _).
  destruct (Snapshot.extractStyles _ _ _ _ _ _) as [nd1 st1].
  cbn [fst snd] in *.
  assert (Hpush : forall nd uids,
            List.length (Snapshot.nodes
               (Snapshot.push_node
                  (Snapshot.add_processed (Snapshot.store nd st1) uids)
                  (List.length (Snapshot.heap st))))
            = S (List.length (Snapshot.nodes st))).
  { intros nd uids. cbn. rewrite E2, length_app. cbn. lia. }
  destruct (Snapshot.getNodeType e computed).
  - destruct (String.eqb _ _).
    + cbn. rewrite E2. lia.
    + rewrite Hpush. lia.
  - etransitivity; [apply withChildren_count|rewrite Hpush; lia].
    intros child nb s Hc. now apply IH.
  - etransitivity; [apply withChildren_count|rewrite Hpush; lia].
    intros child nb s Hc. now apply IH.
Qed.

Lemma omap_length_le {A B : Type} (f : A -> option B) (l : list A) :
  (List.length (omap f l) <= List.length l)%nat.
Proof.
  induction l as [|a l IH]; [reflexivity|].
  cbn. destruct (f a); cbn; lia.
Qed.

(** X17. [GeometrySnapshot.capture]: [nodeCount] is the number of
    nodes of the snapshot, which never exceeds the number of elements of
    the captured tree; a hidden root gives a snapshot without nodes. *)
Theorem snapshot_has_at_most_one_node_per_element cfg (root : Dom.element) snap :
  Snapshot.capture cfg (Some root) = Snapshot.Ok (Some snap) ->
  Snapshot.nodeCount snap = List.length (Snapshot.snap_nodes snap)
  /\ (Snapshot.nodeCount snap <= Captured.size root)%nat
  /\ (Snapshot.hidden (Captured.computed_of root) = true ->
      Snapshot.snap_nodes snap = []).
Proof.
  intros Hcap. unfold Snapshot.capture in Hcap.
  destruct (Snapshot.resolveStyles _ _ _ _) as [h1| |]; try discriminate.
  destruct (Snapshot.resolveGradients _ _ _) as [h2| |]; try discriminate.
  injection Hcap as <-. cbn [Snapshot.nodeCount Snapshot.snap_nodes].
  split; [reflexivity|]. split.
  - etransitivity; [apply omap_length_le|].
    apply (captureNode_count cfg (Dom.bounds_of root) root None None Snapshot.initial).
  - intros Hh. destruct root as [uid tag attrs bounds computed kids].
    cbn [Captured.computed_of] in Hh. cbn [Snapshot.captureNode].
    destruct (bool_decide _); [reflexivity|]. rewrite Hh. reflexivity.
Qed.

Lemma snapshot_has_at_most_one_node_per_element_witness :
  Snapshot.nodeCount Sample.snapshot = List.length (Snapshot.snap_nodes Sample.snapshot)
  /\ (Snapshot.nodeCount Sample.snapshot <= Captured.size Sample.root)%nat.
Proof.
  destruct (snapshot_has_at_most_one_node_per_element Sample.local Sample.root
              Sample.snapshot) as (H1 & H2 & _).
  - vm_compute. reflexivity.
  - split; assumption.
Defined.

(** ** Blocks: measuring and laying out *)

Lemma childHeight_finite c s h :
  Block.intrinsicSize c = Some s -> Layout.height s = JS.Fin h ->
  exists h', Block.childHeight c = JS.Fin h' /\ (h' == h)%Q.
Proof.
  intros Hs Hh. unfold Block.childHeight. rewrite Hs, Hh.
  unfold JS.or_else, JS.truthy. destruct (Qeq_bool h 0) eqn:Hz; cbn [negb].
  - apply Qeq_bool_iff in Hz. exists 0%Q. split; [reflexivity|]. now rewrite Hz.
  - exists h. split; reflexivity.
Qed.

Lemma stack_length cb children : forall cy,
  List.length (Block.stack cb children cy) = List.length children.
Proof. induction children as [|c rest IH]; intros cy; cbn; [reflexivity|]. now rewrite IH. Qed.

Lemma stack_at cb : forall children hs (cy : Q) k kid h,
  Forall2 Block.measured_height children hs ->
  Block.stack cb children (JS.Fin cy) !! k = Some kid ->
  hs !! k = Some h ->
  exists ky kh,
    Dom.top kid = JS.Fin ky /\ (ky == cy + Layout.Qsum (take k hs))%Q
    /\ Dom.height kid = JS.Fin kh /\ (kh == h)%Q
    /\ Dom.left kid = Dom.left cb /\ Dom.width kid = Dom.width cb.
Proof.
  induction children as [|c rest IH]; intros hs cy k kid h Hall Hkid Hh;
    [destruct k; discriminate|].
  inversion Hall as [|? h0 ? hs' (s & Hs & Hsh) Hrest]; subst.
  destruct (childHeight_finite c s h0 Hs Hsh) as (h' & Hc & Hh').
  cbn [Block.stack] in Hkid. rewrite Hc in Hkid. destruct k as [|k].
  - injection Hkid as <-. injection Hh as <-. cbn [Dom.top Dom.height Dom.left Dom.width].
    exists cy, h'. rewrite take_0. cbn [Layout.Qsum].
    repeat split; [ring|exact Hh'].
  - cbn [lookup list_lookup JS.add] in Hkid, Hh.
    destruct (IH hs' (cy + h')%Q k kid h Hrest Hkid Hh)
      as (ky & kh & Ht & Hky & Hhk & Hkh & Hl & Hw).
    exists ky, kh. repeat split; try assumption.
    rewrite Hky. change (take (S k) (h0 :: hs')) with (h0 :: take k hs').
    cbn [Layout.Qsum]. rewrite Hh'. ring.
Qed.

Lemma heights_sum sizes : forall hs acc,
  Forall2 (fun s h => Layout.height s = JS.Fin h) sizes hs ->
  exists q, fold_left JS.add (map Layout.height sizes) (JS.Fin acc) = JS.Fin q
            /\ (q == acc + Layout.Qsum hs)%Q.
Proof.
  induction sizes as [|s rest IH]; intros hs acc Hall.
  - inversion Hall; subst. exists acc. split; [reflexivity|]. cbn. ring.
  - inversion Hall as [|? h ? hs' Hs Hrest]; subst.
    cbn [map fold_left]. rewrite Hs. cbn [JS.add].
    destruct (IH hs' (acc + h)%Q Hrest) as (q & Hq & Hv).
    exists q. split; [exact Hq|]. rewrite Hv. cbn [Layout.Qsum]. ring.
Qed.

Lemma measured_children (f : Block.child -> Layout.size) children : forall hs,
  Forall2 Block.measured_height
    (map (fun c => {| Block.measure_of := Block.measure_of c;
                      Block.intrinsicSize := Some (f c) |}) children) hs ->
  Forall2 (fun s h => Layout.height s = JS.Fin h) (map f children) hs.
Proof.
  induction children as [|c rest IH]; intros hs Hall; inversion Hall as [|? h ? hs' Hc Hrest];
    subst; constructor.
  - destruct Hc as (s & [= <-] & Hs). exact Hs.
  - now apply IH.
Qed.



(** ** Flex children inside the container *)

Lemma Qsum_nonneg l : Forall (fun q => 0 <= q)%Q l -> (0 <= Layout.Qsum l)%Q.
Proof.
  induction 1 as [|x l Hx _ IH]; cbn [Layout.Qsum]; [apply Qle_refl|lra].
Qed.

Lemma Qsum_split l : forall k,
  (Layout.Qsum l == Layout.Qsum (take k l) + Layout.Qsum (drop k l))%Q.
Proof.
  induction l as [|x l IH]; intros [|k]; cbn [take drop firstn skipn Layout.Qsum];
    try ring.
  rewrite (IH k). change (firstn k l) with (take k l). change (skipn k l) with (drop k l).
  ring.
Qed.

Lemma positions_inside jc (a g : Q) (ss : list Q) i s p :
  Forall (fun q => 0 <= q)%Q ss -> (0 <= g)%Q -> (0 <= Layout.Qfree a g ss)%Q ->
  ss !! i = Some s ->
  Layout.calculateMainAxisPositions jc (JS.Fin a) (JS.Fin g) (map JS.Fin ss) !! i = Some p ->
  exists q, p = JS.Fin q /\ (0 <= q)%Q /\ (q + s <= a)%Q.
Proof.
  intros Hss Hg Hfree Hs Hp.
  assert (Hne : ss <> []) by (intros ->; destruct i; discriminate).
  pose proof (lookup_lt_Some _ _ _ Hs) as Hi.
  destruct (positions_at jc a g ss i p Hne Hp) as (c0 & st & q & Hc0 & Hst & -> & Hq).
  destruct (justify_shares jc a g ss Hne)
    as (c0' & st' & u & v & Hc0' & Hst' & Hu & Hv & Hu0 & Hv0 & Huv & _).
  rewrite Hc0 in Hc0'. rewrite Hst in Hst'. injection Hc0' as <-. injection Hst' as <-.
  exists q. split; [reflexivity|].
  set (f := Layout.Qfree a g ss) in *.
  set (n := Layout.Qlen ss) in *.
  assert (Hk0 : (0 <= inject_Z (Z.of_nat i))%Q).
  { change 0%Q with (inject_Z 0). rewrite <- Zle_Qle. lia. }
  assert (Hkn : (inject_Z (Z.of_nat i) <= n - 1)%Q).
  { unfold n. rewrite <- (Qlen_pred ss Hne). rewrite <- Zle_Qle. lia. }
  remember (inject_Z (Z.of_nat i)) as k eqn:Ek. clear Ek.
  assert (Hbefore : (0 <= Layout.Qsum (take i ss))%Q).
  { apply Qsum_nonneg. now apply Forall_take. }
  assert (Hafter : (0 <= Layout.Qsum (drop (S i) ss))%Q).
  { apply Qsum_nonneg. now apply Forall_drop. }
  assert (Huf : (0 <= u * f)%Q) by (apply Qmult_le_0_compat; assumption).
  assert (Hvf : (0 <= v * f)%Q) by (apply Qmult_le_0_compat; assumption).
  assert (Hkvf : (0 <= k * (g + v * f))%Q) by (apply Qmult_le_0_compat; lra).
  split.
  - rewrite Hq, Hu, Hv. lra.
  - pose proof (Qsum_split ss (S i)) as Hsplit.
    rewrite (Qsum_take_S ss i s Hs) in Hsplit.
    assert (Hslack : (0 <= (1 - u - k * v) * f)%Q).
    { apply Qmult_le_0_compat; [|assumption].
      assert (Hkv : (k * v <= (n - 1) * v)%Q).
      { apply Qmult_le_compat_r; assumption. }
      lra. }
    assert (Hgaps : (0 <= (n - 1 - k) * g)%Q) by (apply Qmult_le_0_compat; lra).
    assert (E : (a - (q + s)
                 == (1 - u - k * v) * f + Layout.Qsum (drop (S i) ss) + (n - 1 - k) * g)%Q).
    { rewrite Hq, Hu, Hv.
      assert (Hf : (f == a - Layout.Qsum ss - g * (n - 1))%Q) by reflexivity.
      rewrite Hsplit in Hf.
      assert (Ha : (a == f + (Layout.Qsum (take i ss) + s + Layout.Qsum (drop (S i) ss))
                          + g * (n - 1))%Q) by (rewrite Hf; ring).
      rewrite Ha at 1. ring. }
    lra.
Qed.

Lemma flex_keep cs axis a g bs ws :
  map (Layout.baseSize (JS.Fin a) axis) cs = map JS.Fin bs ->
  map Layout.growWeight cs = map JS.Fin ws ->
  (0 <= Layout.Qremaining (Layout.Qlen cs) a g bs)%Q ->
  (Layout.Qremaining (Layout.Qlen cs) a g bs == 0)%Q \/ (Layout.Qsum ws <= 0)%Q ->
  Layout.calculateFlexSizes cs (JS.Fin a) axis (JS.Fin g) = map JS.Fin bs.
Proof.
  intros Hb Hw Hrem Hcase. unfold Layout.calculateFlexSizes.
  destruct (remainingSpace_Fin cs a g axis bs Hb) as (r & -> & Hr).
  destruct (total_Fin Layout.growWeight cs ws Hw) as (W & -> & HWq).
  rewrite Hb.
  destruct (JS.gt (JS.Fin r) JS.zero) eqn:Hgt.
  - apply gt_zero_Fin in Hgt.
    destruct Hcase as [Hz|Hle]; [rewrite Hr, Hz in Hgt; now apply Qlt_irrefl in Hgt|].
    now rewrite (proj2 (gt_zero_Fin_false W)) by (rewrite HWq; exact Hle).
  - destruct (JS.lt (JS.Fin r) JS.zero) eqn:Hlt; [|reflexivity].
    apply lt_zero_Fin in Hlt. rewrite Hr in Hlt. lra.
Qed.

Lemma Forall_Qeq_nonneg ss qs :
  Forall2 Qeq ss qs -> Forall (fun q => 0 <= q)%Q qs -> Forall (fun q => 0 <= q)%Q ss.
Proof.
  induction 1 as [|x y l k Hxy _ IH]; intros Hall; [constructor|].
  inversion Hall; subst. constructor; [now rewrite Hxy|now apply IH].
Qed.

Lemma grown_nonneg R W : forall bs ws,
  (0 <= R)%Q -> (0 < W)%Q ->
  Forall (fun q => 0 <= q)%Q bs -> Forall (fun q => 0 <= q)%Q ws ->
  Forall (fun q => 0 <= q)%Q (zip_with (fun b w => b + R * w / W)%Q bs ws).
Proof.
  intros bs ws HR HW Hbs. revert ws.
  induction Hbs as [|b bs Hb _ IH]; intros ws Hws; [constructor|].
  destruct Hws as [|w ws Hw Hws]; [constructor|].
  cbn [zip_with]. constructor; [|now apply IH].
  assert (0 <= R * w / W)%Q.
  { apply Qle_shift_div_l; [exact HW|]. rewrite Qmult_0_l.
    now apply Qmult_le_0_compat. }
  lra.
Qed.

Lemma flex_main_axis_inside jc cs axis (a g : Q) (bs ws : list Q) :
  map (Layout.baseSize (JS.Fin a) axis) cs = map JS.Fin bs ->
  map Layout.growWeight cs = map JS.Fin ws ->
  Forall (fun b => 0 <= b)%Q bs -> Forall (fun w => 0 <= w)%Q ws ->
  (0 <= g)%Q ->
  (0 <= Layout.Qremaining (Layout.Qlen cs) a g bs)%Q ->
  let sizes := Layout.calculateFlexSizes cs (JS.Fin a) axis (JS.Fin g) in
  let positions := Layout.calculateMainAxisPositions jc (JS.Fin a) (JS.Fin g) sizes in
  List.length sizes = List.length cs
  /\ List.length positions = List.length cs
  /\ forall i sz p,
       sizes !! i = Some sz -> positions !! i = Some p ->
       exists s q, sz = JS.Fin s /\ p = JS.Fin q
                   /\ (0 <= s)%Q /\ (0 <= q)%Q /\ (q + s <= a)%Q.
Proof.
  intros Hb Hw Hbs Hws Hg Hrem sizes positions.
  assert (Hlb : List.length bs = List.length cs).
  { symmetry. eapply length_of_map_eq, Hb. }
  assert (Hlw : List.length ws = List.length cs).
  { symmetry. eapply length_of_map_eq, Hw. }
  assert (Hsizes : exists ss,
            sizes = map JS.Fin ss /\ List.length ss = List.length cs
            /\ Forall (fun q => 0 <= q)%Q ss /\ (0 <= Layout.Qfree a g ss)%Q).
  { destruct (Qlt_le_dec 0 (Layout.Qremaining (Layout.Qlen cs) a g bs)) as [Hpos|Hzero];
      [destruct (Qlt_le_dec 0 (Layout.Qsum ws)) as [HW|HW]|].
    - pose proof (flex_grow cs axis a g bs ws Hb Hw Hpos HW) as Hgrow.
      destruct (Forall2_num_eq_Fin _ _ Hgrow) as (ss & Hss & Hqs).
      exists ss. split; [exact Hss|].
      assert (Hls : List.length ss = List.length cs).
      { rewrite (Forall2_length _ _ _ Hqs), length_zip_with. lia. }
      split; [exact Hls|]. split.
      + eapply Forall_Qeq_nonneg; [exact Hqs|].
        apply grown_nonneg; assumption.
      + unfold Layout.Qfree. rewrite (Qsum_Forall2 _ _ Hqs), Qsum_grown by lia.
        rewrite shares_sum by (try reflexivity; lra).
        unfold Layout.Qremaining, Layout.Qlen. rewrite Hls.
        apply Qle_lteq. right. ring.
    - exists bs. split; [apply (flex_keep cs axis a g bs ws); auto|].
      split; [exact Hlb|]. split; [exact Hbs|].
      unfold Layout.Qfree, Layout.Qremaining, Layout.Qlen in *. rewrite Hlb. lra.
    - exists bs. split; [apply (flex_keep cs axis a g bs ws); auto; left; lra|].
      split; [exact Hlb|]. split; [exact Hbs|].
      unfold Layout.Qfree, Layout.Qremaining, Layout.Qlen in *. rewrite Hlb. lra. }
  destruct Hsizes as (ss & Hss & Hls & Hnn & Hfree).
  unfold positions. rewrite Hss.
  split; [now rewrite length_map|]. split.
  - unfold Layout.calculateMainAxisPositions. now rewrite place_length, length_map.
  - intros i sz p Hsz Hp. rewrite list_lookup_fmap in Hsz.
    destruct (ss !! i) as [s|] eqn:Hs; [|discriminate]. injection Hsz as <-.
    destruct (positions_inside jc a g ss i s p Hnn Hg Hfree Hs Hp) as (q & -> & Hq0 & Hqa).
    exists s, q. repeat split; try assumption.
    rewrite Forall_lookup in Hnn. exact (Hnn i s Hs).
Qed.

(** ** Flex containers keep their children inside *)

Lemma cross_axis_inside pr child align (c s : Q) :
  Layout.along (Flex.crossAxis_read pr) (Layout.intrinsicSize child) = JS.Fin s ->
  (0 <= s)%Q -> (s <= c)%Q ->
  exists q p,
    Flex.calculateCrossSize pr child align (JS.Fin c) = JS.Fin q
    /\ Flex.calculateCrossPosition child align (JS.Fin c) (JS.Fin q) = JS.Fin p
    /\ (0 <= q)%Q /\ (0 <= p)%Q /\ (p + q <= c)%Q.
Proof.
  intros Hs Hs0 Hsc.
  assert (Hsize : exists q, Flex.calculateCrossSize pr child align (JS.Fin c) = JS.Fin q
                    /\ (0 <= q)%Q /\ (q <= c)%Q).
  { unfold Flex.calculateCrossSize. destruct (_ && _ && _).
    - exists c. repeat split; lra.
    - exists s. rewrite Hs. repeat split; assumption. }
  destruct Hsize as (q & Hq & Hq0 & Hqc).
  exists q. unfold Flex.calculateCrossPosition.
  destruct (_ || _).
  - exists 0%Q. repeat split; try assumption; lra.
  - destruct (Flex.is_str _ "flex-end").
    + exists (c + - q)%Q. repeat split; try assumption; lra.
    + destruct (Flex.is_str _ "center").
      * exists ((c + - q) / 2)%Q. split; [exact Hq|]. split.
        { cbn [JS.sub JS.neg JS.add]. apply div_Fin. discriminate. }
        assert (E : ((c + - q) / 2 == (c - q) * (1 # 2))%Q) by (field).
        rewrite E. repeat split; try assumption; lra.
      * exists 0%Q. repeat split; try assumption; lra.
Qed.



(** A container without [flexDirection] lays its children out in a row,
    but [calculateCrossSize] reads the width of a child that is not
    stretched where the row needs its height. *)
Example default_direction_reads_width :
  Flex.layout
    {| Flex.flexDirection := JS.PUndef; Flex.justifyContent := None;
       Flex.alignItems := Some "flex-start"; Flex.gap := None; Flex.padding := None |}
    [Layout.with_grow 0 80]
    {| Dom.left := JS.Fin 0; Dom.top := JS.Fin 0;
       Dom.width := JS.Fin 200; Dom.height := JS.Fin 100 |}
  = Some [{| Dom.left := JS.Fin (0 + 0 + 0); Dom.top := JS.Fin (0 + 0 + 0);
             Dom.width := JS.Fin 80; Dom.height := JS.Fin 80 |}]
  /\ Layout.intrinsicSize (Layout.with_grow 0 80)
     = {| Layout.width := JS.Fin 80; Layout.height := JS.Fin 20 |}.
Proof. split; reflexivity. Qed.
